(** * SnApper core: a shallow embedding of the plugin kernel

    The development follows the TypeScript sources of the SnApper core
    (lifecycle driver, registry, hook router, message bus, state store and
    the per-app API facade).  Stateful code is written in a small
    state-and-exception monad: a JavaScript [throw] keeps every mutation made
    before it, so a computation returns its completion together with the
    state it leaves behind. *)

From Stdlib Require Import ZArith Ascii String List Bool Lia.
From stdpp Require Import base decidable option list gmap strings sorting pretty.
Import ListNotations.
Open Scope string_scope.
Open Scope list_scope.
Open Scope Z_scope.

(* ===================================================================== *)
(** ** Shared types ([types.ts]) *)
(* ===================================================================== *)

(** [SnAppState]: the nine lifecycle states. *)
Inductive SnAppState :=
| Registered | Loading | Loaded | Activating | Active
| Suspending | Suspended | Unloading | Error.

#[global] Instance SnAppState_eq_dec : EqDecision SnAppState.
Proof. solve_decision. Defined.

(** The double-quote character, for messages that quote an identifier. *)
Definition dquote : string := String "034"%char EmptyString.

(** The string a state interpolates to in a template literal. *)
Definition show_state (s : SnAppState) : string :=
  match s with
  | Registered => "registered" | Loading => "loading" | Loaded => "loaded"
  | Activating => "activating" | Active => "active"
  | Suspending => "suspending" | Suspended => "suspended"
  | Unloading => "unloading" | Error => "error"
  end.

(** Values that JavaScript code throws.  [LifecycleError] is the class of
    [lifecycle.ts]; [JsError msg] is [new Error(msg)]; [NonError s] is any
    thrown value that is not an [Error], kept by its [String(...)] image. *)
Inductive Thrown :=
| LifecycleError (from to : SnAppState)
| JsError (msg : string)
| NonError (s : string).

(** [error instanceof Error ? error : new Error(String(error))] *)
Definition toError (t : Thrown) : Thrown :=
  match t with
  | NonError s => JsError s
  | e => e
  end.

(** The message of an [Error] object. *)
Definition message (t : Thrown) : string :=
  match t with
  | LifecycleError from to =>
      "Invalid state transition: " +:+ show_state from +:+ " -> " +:+ show_state to
  | JsError msg => msg
  | NonError s => s
  end.

(** [s.startsWith(p)] *)
Fixpoint starts_with (p s : string) : bool :=
  match p with
  | EmptyString => true
  | String a p' =>
      match s with
      | EmptyString => false
      | String b s' => Ascii.eqb a b && starts_with p' s'
      end
  end.

(** A string-typed property as read at run time: [None] is [undefined]. *)
Definition truthy (o : option string) : bool :=
  match o with
  | Some s => negb (String.eqb s EmptyString)
  | None => false
  end.

(** A string-typed property interpolated into a template literal. *)
Definition interpolate (o : option string) : string :=
  match o with
  | Some s => s
  | None => "undefined"
  end.

(** [SnAppManifest], as [JSON.parse] hands it over: every property may be
    absent, and [permissions] may hold something that is not an array. *)
Module Manifest.

Inductive PermissionsValue :=
| PermArray (l : list string)
| PermString (s : string).

Record OpenClaw := {
  minVersion : option string
}.

Record SnAppManifest := {
  id : option string;
  name : option string;
  shortName : option string;
  version : option string;
  entry : option string;
  permissions : option PermissionsValue;
  openclaw : option OpenClaw
}.

End Manifest.
Abbreviation SnAppManifest := Manifest.SnAppManifest.

(** What awaiting an app-supplied callback yields: the core treats the
    callbacks as opaque, so a callback is modelled by its outcome.  It does
    not reach back into the record of the app being driven. *)
Inductive Outcome :=
| Resolves
| Rejects (t : Thrown).

(** [SnAppInstance]: three optional callbacks. *)
Record SnAppInstance := {
  onActivate : option Outcome;
  onSuspend : option Outcome;
  onDestroy : option Outcome
}.

(** [SnApp]: an entry of the registry; dates are epoch milliseconds. *)
Record SnApp := {
  manifest : SnAppManifest;
  state : SnAppState;
  instance : option SnAppInstance;
  error : option Thrown;
  registeredAt : Z;
  stateChangedAt : Z
}.

(* ===================================================================== *)
(** ** The effect monad *)
(* ===================================================================== *)

Module Eff.

(** How a computation ends: normally with a value, or by a [throw]. *)
Inductive Completion (A : Type) :=
| Normal (a : A)
| Abrupt (t : Thrown).
Arguments Normal {A} a.
Arguments Abrupt {A} t.

Definition M (S A : Type) : Type := S -> Completion A * S.

Definition ret {S A} (a : A) : M S A := fun s => (Normal a, s).

Definition bind {S A B} (m : M S A) (k : A -> M S B) : M S B :=
  fun s =>
    match m s with
    | (Normal a, s') => k a s'
    | (Abrupt t, s') => (Abrupt t, s')
    end.

Definition throw {S A} (t : Thrown) : M S A := fun s => (Abrupt t, s).

(** [try { body } catch (error) { handler(error) }] *)
Definition try_catch {S A} (body : M S A) (handler : Thrown -> M S A) : M S A :=
  fun s =>
    match body s with
    | (Normal a, s') => (Normal a, s')
    | (Abrupt t, s') => handler t s'
    end.

Definition get {S} : M S S := fun s => (Normal s, s).
Definition gets {S A} (f : S -> A) : M S A := fun s => (Normal (f s), s).
Definition modify {S} (f : S -> S) : M S unit := fun s => (Normal tt, f s).

(** [if (c) { m }] *)
Definition when {S} (c : bool) (m : M S unit) : M S unit :=
  if c then m else ret tt.

Definition completion {S A} (r : Completion A * S) : Completion A := fst r.
Definition final {S A} (r : Completion A * S) : S := snd r.

Definition raises {A} (c : Completion A) : bool :=
  match c with Abrupt _ => true | Normal _ => false end.

End Eff.
Import Eff.

Declare Scope eff_scope.
Delimit Scope eff_scope with eff.
Notation "'let*' x ':=' m 'in' k" := (bind m (fun x => k))
  (at level 10, x name, m at level 100, k at level 200) : eff_scope.
Notation "m '>>' k" := (bind m (fun _ => k))
  (at level 90, right associativity) : eff_scope.
Open Scope eff_scope.

(* ===================================================================== *)
(** ** Lifecycle driver ([lifecycle.ts], class [SnAppLifecycle]) *)
(* ===================================================================== *)

Module Lifecycle.

(** What awaiting the factory yields. *)
Inductive FactoryOutcome :=
| Produces (i : SnAppInstance)
| Fails (t : Thrown).

(** The driver's world: the app record, the number of [new Date()] readings
    taken so far, and (ghost) every value written to [snapp.state], oldest
    first. *)
Record World := {
  snapp : SnApp;
  reads : nat;
  written : list SnAppState
}.

Definition start (a : SnApp) (n : nat) : World :=
  {| snapp := a; reads := n; written := [] |}.

(** [validTransitions] *)
Definition validTransitions (s : SnAppState) : list SnAppState :=
  match s with
  | Registered => [Loading]
  | Loading => [Loaded; Error]
  | Loaded => [Activating; Unloading]
  | Activating => [Active; Error]
  | Active => [Suspending; Unloading]
  | Suspending => [Suspended; Error]
  | Suspended => [Activating; Unloading]
  | Unloading => [Registered; Error]
  | Error => [Unloading]
  end.

(** [Array.prototype.includes] *)
Definition includes (l : list SnAppState) (x : SnAppState) : bool :=
  existsb (fun y => bool_decide (y = x)) l.

(** [canTransition(from, to)] *)
Definition canTransition (from to : SnAppState) : bool :=
  if bool_decide (from = to) then true
  else includes (validTransitions from) to.

(** [getValidTransitions(from)] *)
Definition getValidTransitions (from : SnAppState) : list SnAppState :=
  validTransitions from.

Section Driver.

(** [clock n] is what the [n]-th evaluation of [new Date()] reads, in
    epoch milliseconds. *)
Variable clock : nat -> Z.

(** [snapp.state = s] *)
Definition set_state (s : SnAppState) : M World unit :=
  modify (fun w =>
    let a := snapp w in
    {| snapp := {| manifest := manifest a; state := s;
                   instance := instance a; error := error a;
                   registeredAt := registeredAt a;
                   stateChangedAt := stateChangedAt a |};
       reads := reads w;
       written := written w ++ [s] |}).

(** [snapp.stateChangedAt = new Date()] *)
Definition stamp : M World unit :=
  modify (fun w =>
    let a := snapp w in
    {| snapp := {| manifest := manifest a; state := state a;
                   instance := instance a; error := error a;
                   registeredAt := registeredAt a;
                   stateChangedAt := clock (reads w) |};
       reads := S (reads w);
       written := written w |}).

(** [snapp.instance = i] *)
Definition set_instance (i : option SnAppInstance) : M World unit :=
  modify (fun w =>
    let a := snapp w in
    {| snapp := {| manifest := manifest a; state := state a;
                   instance := i; error := error a;
                   registeredAt := registeredAt a;
                   stateChangedAt := stateChangedAt a |};
       reads := reads w;
       written := written w |}).

(** [snapp.error = e] *)
Definition set_error (e : option Thrown) : M World unit :=
  modify (fun w =>
    let a := snapp w in
    {| snapp := {| manifest := manifest a; state := state a;
                   instance := instance a; error := e;
                   registeredAt := registeredAt a;
                   stateChangedAt := stateChangedAt a |};
       reads := reads w;
       written := written w |}).

(** [await callback()] *)
Definition await (o : Outcome) : M World unit :=
  match o with
  | Resolves => ret tt
  | Rejects t => throw t
  end.

(** [if (callback) await callback()] *)
Definition await_if_defined (o : option Outcome) : M World unit :=
  match o with
  | Some c => await c
  | None => ret tt
  end.

(** [private transition(snapp, to)] *)
Definition transition (to : SnAppState) : M World unit :=
  let* from := gets (fun w => state (snapp w)) in
  if bool_decide (from = to) then ret tt
  else if negb (canTransition from to) then throw (LifecycleError from to)
  else set_state to >> stamp.

(** The [catch (error)] block shared by the four operations. *)
Definition on_failure {A} (err : Thrown) : M World A :=
  set_state Error >>
  set_error (Some (toError err)) >>
  throw err.

(** [private defaultLoad(snapp)]: a zero-delay timer, which resolves. *)
Definition defaultLoad : Outcome := Resolves.

(** [load(snapp, loader?)] *)
Definition load (loader : option Outcome) : M World unit :=
  let* a := gets snapp in
  if negb (bool_decide (state a = Registered)) then
    throw (JsError ("Cannot load SnApp " +:+ dquote +:+ interpolate (Manifest.id (manifest a)) +:+
                    dquote +:+ " in state: " +:+ show_state (state a)))
  else
    transition Loading >>
    try_catch
      (match loader with
       | Some l => await l
       | None => await defaultLoad
       end >>
       transition Loaded)
      on_failure.

(** [activate(snapp, factory)] *)
Definition activate (factory : FactoryOutcome) : M World unit :=
  let* a := gets snapp in
  if negb (bool_decide (state a = Loaded)) && negb (bool_decide (state a = Suspended)) then
    throw (JsError ("Cannot activate SnApp " +:+ dquote +:+ interpolate (Manifest.id (manifest a)) +:+
                    dquote +:+ " in state: " +:+ show_state (state a)))
  else
    transition Activating >>
    try_catch
      (let* inst := (match factory with
                     | Produces i => ret i
                     | Fails t => throw t
                     end) in
       set_instance (Some inst) >>
       await_if_defined (onActivate inst) >>
       transition Active)
      on_failure.

(** [snapp.instance?.callback] *)
Definition instance_callback (f : SnAppInstance -> option Outcome)
    (a : SnApp) : option Outcome :=
  match instance a with
  | Some i => f i
  | None => None
  end.

(** [suspend(snapp)] *)
Definition suspend : M World bool :=
  let* a := gets snapp in
  if negb (bool_decide (state a = Active)) then ret false
  else
    transition Suspending >>
    try_catch
      (let* a := gets snapp in
       await_if_defined (instance_callback onSuspend a) >>
       transition Suspended >>
       ret true)
      on_failure.

(** [unload(snapp)] *)
Definition unload : M World bool :=
  let* a := gets snapp in
  if bool_decide (state a = Registered) then ret false
  else
    transition Unloading >>
    try_catch
      (let* a := gets snapp in
       await_if_defined (instance_callback onDestroy a) >>
       set_instance None >>
       set_error None >>
       transition Registered >>
       ret true)
      on_failure.

(** The four driver operations with their arguments. *)
Inductive Operation :=
| Load (loader : option Outcome)
| Activate (factory : FactoryOutcome)
| Suspend
| Unload.

(** Running an operation; [load] and [activate] return nothing,
    [suspend] and [unload] return a boolean. *)
Definition drive (op : Operation) : M World (option bool) :=
  match op with
  | Load loader => load loader >> ret None
  | Activate factory => activate factory >> ret None
  | Suspend => let* b := suspend in ret (Some b)
  | Unload => let* b := unload in ret (Some b)
  end.

End Driver.

End Lifecycle.

(* ===================================================================== *)
(** ** Regular expressions ([RegExp.prototype.test]) *)
(* ===================================================================== *)

Module Regex.

(** The fragment of regular expressions the validators use, matched by
    derivatives. *)
Inductive regex :=
| Void
| Eps
| Class (p : ascii -> bool)
| Seq (r1 r2 : regex)
| Alt (r1 r2 : regex)
| Star (r : regex).

Fixpoint nullable (r : regex) : bool :=
  match r with
  | Void => false
  | Eps => true
  | Class _ => false
  | Seq r1 r2 => nullable r1 && nullable r2
  | Alt r1 r2 => nullable r1 || nullable r2
  | Star _ => true
  end.

Fixpoint derive (c : ascii) (r : regex) : regex :=
  match r with
  | Void => Void
  | Eps => Void
  | Class p => if p c then Eps else Void
  | Seq r1 r2 =>
      if nullable r1
      then Alt (Seq (derive c r1) r2) (derive c r2)
      else Seq (derive c r1) r2
  | Alt r1 r2 => Alt (derive c r1) (derive c r2)
  | Star r1 => Seq (derive c r1) (Star r1)
  end.

(** [/^r$/.test(s)]: without the [m] flag, [$] matches at the end of the
    input only. *)
Fixpoint matches (r : regex) (s : string) : bool :=
  match s with
  | EmptyString => nullable r
  | String c rest => matches (derive c r) rest
  end.

(** [r+] *)
Definition plus (r : regex) : regex := Seq r (Star r).

Definition in_range (lo hi : N) (c : ascii) : bool :=
  ((lo <=? N_of_ascii c) && (N_of_ascii c <=? hi))%N.

(** [\d] *)
Definition digit : regex := Class (in_range 48 57).

(** [[a-z0-9]] *)
Definition lower_or_digit : regex :=
  Class (fun c => in_range 97 122 c || in_range 48 57 c).

(** A literal character. *)
Definition chr (a : ascii) : regex := Class (Ascii.eqb a).

(** Any character at all. *)
Definition any : regex := Class (fun _ => true).

(** [/^r/.test(s)]: anything may follow the match. *)
Definition matches_prefix (r : regex) (s : string) : bool :=
  matches (Seq r (Star any)) s.

End Regex.

(* ===================================================================== *)
(** ** Registry ([registry.ts], class [SnAppRegistry]) *)
(* ===================================================================== *)

Module Registry.
Import Regex.

(** [snapps : Map<string, SnApp>].  A key is whatever [manifest.id] holds,
    which at run time may be [undefined]. *)
Record SnAppRegistry := {
  snapps : gmap (option string) SnApp
}.

(** The registry together with what it printed with [console.warn]. *)
Record World := {
  registry : SnAppRegistry;
  console : list string
}.

Definition empty : World :=
  {| registry := {| snapps := ∅ |}; console := [] |}.

(** [has(id)] *)
Definition has (r : SnAppRegistry) (id : option string) : bool :=
  bool_decide (is_Some (snapps r !! id)).

(** [get(id)] *)
Definition get (r : SnAppRegistry) (id : string) : option SnApp :=
  snapps r !! Some id.

(** [count()] *)
Definition count (r : SnAppRegistry) : nat := size (snapps r).

(** [unregister(id)] *)
Definition unregister (id : string) : M World bool :=
  let* w := Eff.get in
  modify (fun w => {| registry := {| snapps := delete (Some id) (snapps (registry w)) |};
                      console := console w |}) >>
  ret (has (registry w) (Some id)).

(** [clear()] *)
Definition clear : M World unit :=
  modify (fun w => {| registry := {| snapps := ∅ |}; console := console w |}).

(** [console.warn(line)] *)
Definition warn (line : string) : M World unit :=
  modify (fun w => {| registry := registry w; console := console w ++ [line] |}).

(** [/^[a-z0-9]+(-[a-z0-9]+)*$/] *)
Definition kebab_case : regex :=
  Seq (plus lower_or_digit) (Star (Seq (chr "-") (plus lower_or_digit))).

(** [/^\d+\.\d+\.\d+/] *)
Definition semver_start : regex :=
  Seq (plus digit) (Seq (chr ".") (Seq (plus digit) (Seq (chr ".") (plus digit)))).

Definition validPermissions : list string :=
  [ "storage:read"; "storage:write"; "storage:delete";
    "session:hook"; "prompt:inject";
    "ui:tab"; "ui:panel"; "ui:modal"; "ui:toast";
    "command:register";
    "tool:register"; "tool:wrap";
    "fs:read"; "fs:write";
    "bus:publish"; "bus:subscribe";
    "system:exec"; "network:request" ].

(** [validPermissions.has(perm)] *)
Definition is_valid_permission (perm : string) : bool :=
  existsb (String.eqb perm) validPermissions.

(** Truthiness of [manifest.permissions]: an array is truthy even when
    empty, a string is truthy unless empty. *)
Definition permissions_truthy (p : option Manifest.PermissionsValue) : bool :=
  match p with
  | Some (Manifest.PermArray _) => true
  | Some (Manifest.PermString s) => negb (String.eqb s EmptyString)
  | None => false
  end.

(** [Array.isArray(manifest.permissions)] *)
Definition isArray (p : option Manifest.PermissionsValue) : bool :=
  match p with
  | Some (Manifest.PermArray _) => true
  | _ => false
  end.

(** What [for (const perm of manifest.permissions)] visits; the loop is
    reached with an array only. *)
Definition elements (p : option Manifest.PermissionsValue) : list string :=
  match p with
  | Some (Manifest.PermArray perms) => perms
  | _ => []
  end.

(** [String.prototype.length] *)
Definition js_length (s : string) : Z := Z.of_nat (String.length s).

(** The loop over [manifest.permissions]. *)
Fixpoint warn_unknown (id : option string) (perms : list string) : M World unit :=
  match perms with
  | [] => ret tt
  | perm :: rest =>
      when (negb (is_valid_permission perm))
        (warn ("SnApp " +:+ dquote +:+ interpolate id +:+ dquote +:+
               " has unknown permission: " +:+ dquote +:+ perm +:+ dquote)) >>
      warn_unknown id rest
  end.

(** [private validateManifest(manifest)] *)
Definition validateManifest (manifest : SnAppManifest) : M World unit :=
  let id := Manifest.id manifest in
  when (negb (truthy id))
    (throw (JsError "Missing required field: id")) >>
  when (negb (truthy (Manifest.name manifest)))
    (throw (JsError "Missing required field: name")) >>
  when (negb (truthy (Manifest.entry manifest)))
    (throw (JsError "Missing required field: entry")) >>
  when (negb (permissions_truthy (Manifest.permissions manifest)))
    (throw (JsError "Missing required field: permissions")) >>
  when (negb (bool_decide (is_Some (Manifest.openclaw manifest))))
    (throw (JsError "Missing required field: openclaw")) >>
  when (negb (matches kebab_case (interpolate id)))
    (throw (JsError ("Invalid SnApp ID " +:+ dquote +:+ interpolate id +:+ dquote +:+
                     ": must be kebab-case (lowercase letters, numbers, hyphens only)"))) >>
  when (truthy (Manifest.version manifest) &&
        negb (matches_prefix semver_start (interpolate (Manifest.version manifest))))
    (throw (JsError ("Invalid version format " +:+ dquote +:+
                     interpolate (Manifest.version manifest) +:+ dquote +:+
                     ": must be semantic version (e.g., " +:+ dquote +:+ "1.0.0" +:+
                     dquote +:+ ")"))) >>
  when (truthy (Manifest.shortName manifest) &&
        (5 <? js_length (interpolate (Manifest.shortName manifest))))
    (warn ("SnApp " +:+ dquote +:+ interpolate id +:+ dquote +:+ " has long shortName " +:+
           dquote +:+ interpolate (Manifest.shortName manifest) +:+ dquote +:+
           " (recommend 2-3 chars for tabs)")) >>
  when (negb (isArray (Manifest.permissions manifest)))
    (throw (JsError "permissions must be an array")) >>
  warn_unknown id (elements (Manifest.permissions manifest)) >>
  when (negb (truthy (match Manifest.openclaw manifest with
                      | Some o => Manifest.minVersion o
                      | None => None
                      end)))
    (throw (JsError "openclaw.minVersion is required")).

(** [register(manifest)]; [now] is what [new Date()] reads. *)
Definition register (now : Z) (manifest : SnAppManifest) : M World SnApp :=
  let* r := gets registry in
  if has r (Manifest.id manifest) then
    throw (JsError ("SnApp " +:+ dquote +:+ interpolate (Manifest.id manifest) +:+
                    dquote +:+ " is already registered"))
  else
    validateManifest manifest >>
    let snapp := {| manifest := manifest; state := Registered;
                    instance := None; error := None;
                    registeredAt := now; stateChangedAt := now |} in
    modify (fun w =>
      {| registry := {| snapps := <[Manifest.id manifest := snapp]> (snapps (registry w)) |};
         console := console w |}) >>
    ret snapp.

End Registry.

(* ===================================================================== *)
(** ** Hook router ([hooks.ts], class [HookService]) *)
(* ===================================================================== *)

Module Hooks.

(** An event payload: an object with string properties. *)
Definition Payload := list (string * string).

(** [HookOptions], every property optional. *)
Record HookOptions := {
  opt_priority : option Z;
  opt_filter : option (Payload -> bool);
  opt_async : option bool
}.

Definition no_options : HookOptions :=
  {| opt_priority := None; opt_filter := None; opt_async := None |}.

(** The function stored in an entry: either the function the caller passed,
    known by its name, or the closure [once] builds around it, which
    unsubscribes itself and then calls it. *)
Inductive Handler :=
| Plain (fn : string)
| OnceWrapper (fn : string).

Definition fn_of (h : Handler) : string :=
  match h with Plain fn => fn | OnceWrapper fn => fn end.

(** [HandlerEntry]: the handler, [Required<HookOptions>] and the id
    [handler_<n>], kept as the number [n]. *)
Record HandlerEntry := {
  handler : Handler;
  priority : Z;
  filter : Payload -> bool;
  async : bool;
  id : nat
}.

Record HookService := {
  handlers : gmap string (list HandlerEntry);
  handlerIdCounter : nat
}.

(** The service, together with (ghost) the entries whose function has been
    called, oldest first, and what [console.error] has printed. *)
Record World := {
  service : HookService;
  calls : list (HandlerEntry * Payload);
  console : list (string * Thrown)
}.

Definition initial : World :=
  {| service := {| handlers := ∅; handlerIdCounter := 0 |};
     calls := []; console := [] |}.

(** [this.handlers.get(event) ?? []] *)
Definition handlers_of (event : string) (w : World) : list HandlerEntry :=
  default [] (handlers (service w) !! event).

Definition set_handlers (event : string) (hs : list HandlerEntry) (w : World) : World :=
  {| service := {| handlers := <[event := hs]> (handlers (service w));
                   handlerIdCounter := handlerIdCounter (service w) |};
     calls := calls w; console := console w |}.

(** The comparator [(a, b) => b.options.priority - a.options.priority]. *)
Definition comparator (a b : HandlerEntry) : Z := priority b - priority a.

(** Where [e], which stood before all of [l] in the array, lands among
    them once they are in order: behind those the comparator puts strictly
    before it. *)
Fixpoint insert_by_priority (e : HandlerEntry) (l : list HandlerEntry) : list HandlerEntry :=
  match l with
  | [] => [e]
  | x :: rest =>
      if comparator x e <? 0
      then x :: insert_by_priority e rest
      else e :: x :: rest
  end.

(** [eventHandlers.sort(comparator)]: [Array.prototype.sort] is stable, so
    its result is the stable rearrangement by the comparator. *)
Definition sort (l : list HandlerEntry) : list HandlerEntry :=
  foldr insert_by_priority [] l.

(** [findIndex(h => h.id === id)] followed by [splice(idx, 1)]. *)
Fixpoint remove_id (n : nat) (l : list HandlerEntry) : list HandlerEntry :=
  match l with
  | [] => []
  | x :: rest => if Nat.eqb (id x) n then rest else x :: remove_id n rest
  end.

(** [on(event, handler, options)]; the value returned stands for the
    unsubscribe closure, which is [unsubscribe event id]. *)
Definition on (event : string) (h : Handler) (options : HookOptions) : M World nat :=
  let* w := Eff.get in
  let n := S (handlerIdCounter (service w)) in
  let entry := {| handler := h;
                  priority := default 0 (opt_priority options);
                  filter := default (fun _ => true) (opt_filter options);
                  async := default false (opt_async options);
                  id := n |} in
  modify (fun w =>
    {| service := {| handlers := <[event := sort (handlers_of event w ++ [entry])]>
                                   (handlers (service w));
                     handlerIdCounter := n |};
       calls := calls w; console := console w |}) >>
  ret n.

(** The closure [on] returns.  It splices the array it captured; once
    [clear] has dropped that array from the map nothing observes the
    splice, and no later array holds the same id. *)
Definition unsubscribe (event : string) (n : nat) : M World unit :=
  modify (fun w =>
    match handlers (service w) !! event with
    | Some hs => set_handlers event (remove_id n hs) w
    | None => w
    end).

(** [once(event, handler)] *)
Definition once (event : string) (fn : string) : M World unit :=
  on event (OnceWrapper fn) no_options >> ret tt.

(** [hasHandlers(event)] *)
Definition hasHandlers (event : string) (w : World) : bool :=
  (0 <? length (handlers_of event w))%nat.

(** [count(event)] *)
Definition count (event : string) (w : World) : nat :=
  length (handlers_of event w).

(** [clear(event?)] *)
Definition clear (event : option string) : M World unit :=
  modify (fun w =>
    {| service := {| handlers := match event with
                                 | Some ev => delete ev (handlers (service w))
                                 | None => ∅
                                 end;
                     handlerIdCounter := handlerIdCounter (service w) |};
       calls := calls w; console := console w |}).

Section Emit.

(** What the function named [fn] does when called with a payload: it
    returns (or its promise resolves), or it throws (or its promise
    rejects).  Either way [emit] awaits a promise. *)
Variable behaviour : string -> Payload -> Outcome.

Definition record_call (entry : HandlerEntry) (payload : Payload) : M World unit :=
  modify (fun w => {| service := service w;
                      calls := calls w ++ [(entry, payload)];
                      console := console w |}).

(** [console.error(`Hook handler error for ${event}:`, error)] *)
Definition console_error (event : string) (err : Thrown) : M World unit :=
  modify (fun w => {| service := service w; calls := calls w;
                      console := console w ++ [(event, err)] |}).

Definition settle (o : Outcome) : M World unit :=
  match o with
  | Resolves => ret tt
  | Rejects t => throw t
  end.

(** [(entry.handler as Function)(payload)], awaited. *)
Definition call (event : string) (entry : HandlerEntry) (payload : Payload) : M World unit :=
  match handler entry with
  | Plain fn =>
      record_call entry payload >> settle (behaviour fn payload)
  | OnceWrapper fn =>
      unsubscribe event (id entry) >>
      record_call entry payload >> settle (behaviour fn payload)
  end.

(** The [for (const entry of handlers)] loop from index [i] on.  The array
    iterator reads the live array at every step; [fuel] bounds the steps. *)
Fixpoint emit_from (fuel : nat) (i : nat) (event : string) (payload : Payload) : M World unit :=
  match fuel with
  | O => ret tt
  | S fuel' =>
      let* hs := gets (handlers_of event) in
      match hs !! i with
      | None => ret tt
      | Some entry =>
          (if negb (filter entry payload) then ret tt
           else try_catch (call event entry payload) (console_error event)) >>
          emit_from fuel' (S i) event payload
      end
  end.

(** [emit(event, payload)].  The array never grows while it is iterated, so
    its length at the start is fuel enough. *)
Definition emit (event : string) (payload : Payload) : M World unit :=
  let* hs := gets (handlers_of event) in
  emit_from (length hs) 0 event payload.

(** What a client of the router can do. *)
Inductive Command :=
| On (event : string) (fn : string) (options : HookOptions)
| Once (event : string) (fn : string)
| Unsubscribe (event : string) (n : nat)
| Emit (event : string) (payload : Payload)
| Clear (event : option string).

Definition exec (c : Command) : M World unit :=
  match c with
  | On event fn options => on event (Plain fn) options >> ret tt
  | Once event fn => once event fn
  | Unsubscribe event n => unsubscribe event n
  | Emit event payload => emit event payload
  | Clear event => clear event
  end.

Fixpoint exec_all (cs : list Command) : M World unit :=
  match cs with
  | [] => ret tt
  | c :: rest => exec c >> exec_all rest
  end.

End Emit.

End Hooks.

(* ===================================================================== *)
(** ** Message bus ([bus.ts], class [MessageBusService]) *)
(* ===================================================================== *)

Module Bus.

(** What travels on a channel: an application message, or the envelope
    [{ requestId, payload, sender }] that [request] publishes. *)
Inductive Message :=
| Body (text : string)
| Envelope (requestId payload sender : string).

(** [Subscription]; [ref] stands for the identity of the object, which
    [indexOf] compares. *)
Record Subscription := {
  handler : string;
  subscriber : string;
  once : bool;
  ref : nat
}.

(** An entry of [requestResolvers]: the promise its [resolve] and [reject]
    settle, and the timer that will reject it. *)
Record Resolver := {
  promise : nat;
  timeout : nat
}.

(** The inner map of [methods] for one app, with the identity of the map
    object, which the unregister closures capture. *)
Record MethodTable := {
  table_ref : nat;
  registrations : gmap string string
}.

Record MessageBusService := {
  channels : gmap string (list Subscription);
  methods : gmap string MethodTable;
  requestResolvers : gmap string Resolver
}.

(** A promise is pending or settled. *)
Inductive Settlement :=
| Pending
| Fulfilled (value : string)
| Rejected (reason : Thrown).

(** A timer the host holds for [request]: after [delay] milliseconds it
    deletes the resolver of [for_request] and rejects [rejects] with the
    timeout error for [target.method]. *)
Record Timer := {
  timer_id : nat;
  delay : Z;
  for_request : string;
  target : string;
  method : string;
  rejects : nat
}.

(** The bus and the part of the host it touches: object allocation, the
    promises handed out, the pending timers; and (ghost) the handler calls
    made and what [console.error] printed. *)
Record World := {
  bus : MessageBusService;
  allocated : nat;
  promises : list Settlement;
  timers : list Timer;
  timers_set : nat;
  calls : list (Subscription * Message * string);
  console : list (string * Thrown)
}.

Definition initial : World :=
  {| bus := {| channels := ∅; methods := ∅; requestResolvers := ∅ |};
     allocated := 0; promises := []; timers := []; timers_set := 0;
     calls := []; console := [] |}.

Definition with_bus (f : MessageBusService -> MessageBusService) (w : World) : World :=
  {| bus := f (bus w); allocated := allocated w; promises := promises w;
     timers := timers w; timers_set := timers_set w;
     calls := calls w; console := console w |}.

Definition set_channel (channel : string) (subs : list Subscription)
    (b : MessageBusService) : MessageBusService :=
  {| channels := <[channel := subs]> (channels b);
     methods := methods b; requestResolvers := requestResolvers b |}.

(** [this.channels.get(channel) ?? []] *)
Definition subscriptions_of (channel : string) (w : World) : list Subscription :=
  default [] (channels (bus w) !! channel).

(** [getSubscriberCount(channel)] *)
Definition getSubscriberCount (channel : string) (w : World) : nat :=
  length (subscriptions_of channel w).

(** The lookup [methods.get(snappId)?.get(method)]. *)
Definition registered_method (snappId method : string) (w : World) : option string :=
  match methods (bus w) !! snappId with
  | Some t => registrations t !! method
  | None => None
  end.

(** A fresh object identity. *)
Definition allocate : M World nat :=
  let* n := gets allocated in
  modify (fun w =>
    {| bus := bus w; allocated := S n; promises := promises w;
       timers := timers w; timers_set := timers_set w;
       calls := calls w; console := console w |}) >>
  ret n.

(** The common body of [subscribe] and [subscribeOnce]. *)
Definition add_subscription (channel handler subscriber : string) (once : bool) : M World nat :=
  let* r := allocate in
  let subscription := {| handler := handler; subscriber := subscriber;
                         once := once; ref := r |} in
  modify (fun w =>
    with_bus (set_channel channel (subscriptions_of channel w ++ [subscription])) w) >>
  ret r.

(** [subscribe(channel, handler, subscriber = 'unknown')]; the value
    returned stands for the unsubscribe closure, [unsubscribe channel ref]. *)
Definition subscribe (channel handler : string) (subscriber : option string) : M World nat :=
  add_subscription channel handler (default "unknown" subscriber) false.

(** [subscribeOnce(channel, handler, subscriber = 'unknown')] *)
Definition subscribeOnce (channel handler : string) (subscriber : option string) : M World unit :=
  add_subscription channel handler (default "unknown" subscriber) true >> ret tt.

(** [indexOf(subscription)] followed by [splice(idx, 1)]. *)
Fixpoint remove_ref (r : nat) (l : list Subscription) : list Subscription :=
  match l with
  | [] => []
  | x :: rest => if Nat.eqb (ref x) r then rest else x :: remove_ref r rest
  end.

(** The closure [subscribe] returns. *)
Definition unsubscribe (channel : string) (r : nat) : M World unit :=
  modify (fun w =>
    match channels (bus w) !! channel with
    | Some subs => with_bus (set_channel channel (remove_ref r subs)) w
    | None => w
    end).

(** [registerMethod(snappId, method, handler)]; the value returned stands
    for the unregister closure, [unregisterMethod snappId table_ref method]. *)
Definition registerMethod (snappId method handler : string) : M World nat :=
  let* w := Eff.get in
  let* t := (match methods (bus w) !! snappId with
             | Some t => ret t
             | None =>
                 let* r := allocate in
                 ret {| table_ref := r; registrations := ∅ |}
             end) in
  modify (with_bus (fun b =>
    {| channels := channels b;
       methods := <[snappId := {| table_ref := table_ref t;
                                  registrations := <[method := handler]> (registrations t) |}]>
                    (methods b);
       requestResolvers := requestResolvers b |})) >>
  ret (table_ref t).

(** The closure [registerMethod] returns: it deletes from the inner map it
    captured, which is the one in [methods] unless [clear] came between. *)
Definition unregisterMethod (snappId : string) (r : nat) (method : string) : M World unit :=
  modify (fun w =>
    match methods (bus w) !! snappId with
    | Some t =>
        if Nat.eqb (table_ref t) r then
          with_bus (fun b =>
            {| channels := channels b;
               methods := <[snappId := {| table_ref := r;
                                          registrations := delete method (registrations t) |}]>
                            (methods b);
               requestResolvers := requestResolvers b |}) w
        else w
    | None => w
    end).

(** What calling a subscriber's function does: it returns, or it throws.
    A promise it may return is not awaited by the bus. *)
Inductive CallResult :=
| Returns
| Throws (t : Thrown).

Section Dispatch.

Variable behaviour : string -> Message -> string -> CallResult.

(** [sub.handler(message, sender)] *)
Definition invoke (sub : Subscription) (message : Message) (sender : string) : M World unit :=
  modify (fun w =>
    {| bus := bus w; allocated := allocated w; promises := promises w;
       timers := timers w; timers_set := timers_set w;
       calls := calls w ++ [(sub, message, sender)]; console := console w |}) >>
  match behaviour (handler sub) message sender with
  | Returns => ret tt
  | Throws t => throw t
  end.

(** [console.error(`Message handler error on ${channel}:`, error)] *)
Definition console_error (channel : string) (err : Thrown) : M World unit :=
  modify (fun w =>
    {| bus := bus w; allocated := allocated w; promises := promises w;
       timers := timers w; timers_set := timers_set w;
       calls := calls w; console := console w ++ [(channel, err)] |}).

(** [subscriptions.forEach((sub, index) => ...)] from [index] on, with the
    indices collected so far. *)
Fixpoint deliver (channel : string) (message : Message) (sender : string)
    (subs : list Subscription) (index : nat) (toRemove : list nat) : M World (list nat) :=
  match subs with
  | [] => ret toRemove
  | sub :: rest =>
      let* toRemove' :=
        try_catch
          (invoke sub message sender >>
           ret (if once sub then toRemove ++ [index] else toRemove))
          (fun err => console_error channel err >> ret toRemove) in
      deliver channel message sender rest (S index) toRemove'
  end.

(** [subscriptions.splice(idx, 1)] *)
Definition splice (idx : nat) (subs : list Subscription) : list Subscription :=
  take idx subs ++ drop (S idx) subs.

(** [toRemove.reverse().forEach(idx => subscriptions.splice(idx, 1))] *)
Definition splice_all (toRemove : list nat) (subs : list Subscription) : list Subscription :=
  fold_left (fun l idx => splice idx l) (rev toRemove) subs.

(** [publish(channel, message, sender = 'system')].  The splices act on the
    array held in [channels]; when the channel is unknown they act on a
    fresh empty array that nothing else sees. *)
Definition publish (channel : string) (message : Message) (sender : option string) : M World unit :=
  let sender := default "system" sender in
  let* subscriptions := gets (subscriptions_of channel) in
  let* toRemove := deliver channel message sender subscriptions 0 [] in
  modify (fun w =>
    match channels (bus w) !! channel with
    | Some _ => with_bus (set_channel channel (splice_all toRemove subscriptions)) w
    | None => w
    end).

(** [new Promise(...)]: a fresh pending promise. *)
Definition new_promise : M World nat :=
  let* n := gets (fun w => length (promises w)) in
  modify (fun w =>
    {| bus := bus w; allocated := allocated w;
       promises := promises w ++ [Pending];
       timers := timers w; timers_set := timers_set w;
       calls := calls w; console := console w |}) >>
  ret n.

(** [setTimeout(callback, delay)] *)
Definition setTimeout (delay : Z) (requestId target method : string) (p : nat) : M World nat :=
  let* n := gets timers_set in
  modify (fun w =>
    {| bus := bus w; allocated := allocated w; promises := promises w;
       timers := timers w ++ [{| timer_id := n; delay := delay;
                                 for_request := requestId; target := target;
                                 method := method; rejects := p |}];
       timers_set := S n;
       calls := calls w; console := console w |}) >>
  ret n.

(** [request(targetSnapp, method, payload, timeout = 5000)]; [requestId] is
    the string the template [`${Date.now()}_${Math.random()...}`] yields.
    The value returned is the promise. *)
Definition request (requestId : string) (targetSnapp method payload : string)
    (timeout : option Z) : M World nat :=
  let timeout := default 5000 timeout in
  let* p := new_promise in
  let* timeoutId := setTimeout timeout requestId targetSnapp method p in
  modify (with_bus (fun b =>
    {| channels := channels b; methods := methods b;
       requestResolvers := <[requestId := {| promise := p; timeout := timeoutId |}]>
                             (requestResolvers b) |})) >>
  publish ("rpc:" +:+ targetSnapp +:+ ":" +:+ method)
          (Envelope requestId payload "requester") (Some "system") >>
  ret p.

(** [reject(reason)]: settles the promise unless it is settled already. *)
Definition reject (p : nat) (reason : Thrown) (l : list Settlement) : list Settlement :=
  match l !! p with
  | Some Pending => <[p := Rejected reason]> l
  | _ => l
  end.

(** The host runs the callback of timer [n], if that timer is still set:
    [this.requestResolvers.delete(requestId); reject(new Error(...))]. *)
Definition fire (n : nat) : M World unit :=
  modify (fun w =>
    match List.find (fun t => Nat.eqb (timer_id t) n) (timers w) with
    | Some t =>
        {| bus := {| channels := channels (bus w); methods := methods (bus w);
                     requestResolvers := delete (for_request t) (requestResolvers (bus w)) |};
           allocated := allocated w;
           promises := reject (rejects t)
                         (JsError ("Request timeout: " +:+ target t +:+ "." +:+ method t))
                         (promises w);
           timers := List.filter (fun t' => negb (Nat.eqb (timer_id t') n)) (timers w);
           timers_set := timers_set w;
           calls := calls w; console := console w |}
    | None => w
    end).

(** [clear()]: every timer still referenced from [requestResolvers] is
    cleared. *)
Definition clear : M World unit :=
  modify (fun w =>
    let cleared := map (fun kv => timeout (snd kv)) (map_to_list (requestResolvers (bus w))) in
    {| bus := {| channels := ∅; methods := ∅; requestResolvers := ∅ |};
       allocated := allocated w; promises := promises w;
       timers := List.filter (fun t => negb (existsb (Nat.eqb (timer_id t)) cleared)) (timers w);
       timers_set := timers_set w;
       calls := calls w; console := console w |}).

End Dispatch.

End Bus.

(* ===================================================================== *)
(** ** State store ([state.ts], class [FileStateService]) *)
(* ===================================================================== *)

Module State.

(** The values an app stores. *)
Inductive JsValue :=
| Undefined
| Null
| Bool (b : bool)
| Num (z : Z)
| Str (s : string).

(** [StateEntry] *)
Record StateEntry := {
  value : JsValue;
  createdAt : Z;
  expiresAt : option Z;
  encrypted : bool;
  version : Z
}.

(** [PersistOptions], every property optional. *)
Record PersistOptions := {
  opt_encrypted : option bool;
  opt_ttl : option Z;
  opt_sync : option bool;
  opt_namespace : option string
}.

Definition no_options : PersistOptions :=
  {| opt_encrypted := None; opt_ttl := None; opt_sync := None;
     opt_namespace := None |}.

(** [StateSyncEvent] *)
Record StateSyncEvent := {
  ev_namespace : string;
  ev_key : string;
  ev_snappId : string
}.

(** The text of a file, by what [JSON.parse] makes of it: [Json e] is the
    text [JSON.stringify(e, null, 2)], which parses back to [e]; [Sealed t]
    is a text that hides [t] and does not parse; [Garbage s] is any other
    text that does not parse. *)
Inductive FileText :=
| Json (e : StateEntry)
| Sealed (t : FileText)
| Garbage (s : string).

(** [JSON.parse(content)], [None] when it throws. *)
Definition parse (content : FileText) : option StateEntry :=
  match content with
  | Json e => Some e
  | _ => None
  end.

(** The pair of functions the constructor may be given. *)
Record Crypto := {
  encrypt : FileText -> FileText;
  decrypt : FileText -> FileText
}.

(** The two extensions a state file may carry. *)
Inductive Extension := DotJson | DotEnc.

Definition show_extension (x : Extension) : string :=
  match x with DotJson => ".json" | DotEnc => ".enc" end.

(** A path below [basePath]: the directory of the namespace, the file stem
    and the extension.  ([filePath.replace('.json', '.enc')] swaps the
    extension, [basePath] holding no [.json] of its own.) *)
Record Path := {
  dir : string;
  stem : string
}.

Definition file_name (p : Path) (x : Extension) : string :=
  stem p +:+ show_extension x.

Record FileStateService := {
  memory : gmap string (gmap string StateEntry);
  crypto : option Crypto;
  changeHandlers : list string
}.

(** The store, the directories below [basePath] (directory name to file
    name to text), and (ghost) the change handlers notified and the
    warnings printed. *)
Record World := {
  service : FileStateService;
  disk : gmap string (gmap string FileText);
  notified : list (string * StateSyncEvent);
  console : list string
}.

(** [new FileStateService(basePath, crypto)] over a given disk. *)
Definition create (c : option Crypto) (d : gmap string (gmap string FileText)) : World :=
  {| service := {| memory := ∅; crypto := c; changeHandlers := [] |};
     disk := d; notified := []; console := [] |}.

Definition with_memory (f : gmap string (gmap string StateEntry) ->
                            gmap string (gmap string StateEntry)) (w : World) : World :=
  {| service := {| memory := f (memory (service w)); crypto := crypto (service w);
                   changeHandlers := changeHandlers (service w) |};
     disk := disk w; notified := notified w; console := console w |}.

Definition with_disk (f : gmap string (gmap string FileText) ->
                          gmap string (gmap string FileText)) (w : World) : World :=
  {| service := service w; disk := f (disk w);
     notified := notified w; console := console w |}.

(** [[a-zA-Z0-9_-]] *)
Definition is_safe_char (c : ascii) : bool :=
  Regex.in_range 97 122 c || Regex.in_range 65 90 c || Regex.in_range 48 57 c ||
  Ascii.eqb c "_" || Ascii.eqb c "-".

(** [private sanitizePath(input)] *)
Fixpoint sanitizePath (input : string) : string :=
  match input with
  | EmptyString => EmptyString
  | String c rest =>
      String (if is_safe_char c then c else "_"%char) (sanitizePath rest)
  end.

(** [private getFullKey(namespace, key)] *)
Definition getFullKey (namespace key : string) : string :=
  namespace +:+ ":" +:+ key.

(** [const [namespace, ...keyParts] = fullKey.split(':')] with
    [keyParts.join(':')]: the text before the first colon and the text
    after it. *)
Fixpoint split_at_colon (s : string) : string * string :=
  match s with
  | EmptyString => (EmptyString, EmptyString)
  | String c rest =>
      if Ascii.eqb c ":" then (EmptyString, rest)
      else let (before, after) := split_at_colon rest in (String c before, after)
  end.

(** [private getFilePath(fullKey)] *)
Definition getFilePath (fullKey : string) : Path :=
  let (namespace, key) := split_at_colon fullKey in
  {| dir := sanitizePath namespace; stem := sanitizePath key |}.

(** [private isExpired(entry)]; [now] is what [Date.now()] reads. *)
Definition isExpired (now : Z) (entry : StateEntry) : bool :=
  match expiresAt entry with
  | None => false
  | Some at_ => if at_ =? 0 then false else at_ <? now
  end.

(** [fs.readFile(path, 'utf-8')], [None] when it throws. *)
Definition readFile (p : Path) (x : Extension) (w : World) : option FileText :=
  match disk w !! dir p with
  | Some files => files !! file_name p x
  | None => None
  end.

(** [fs.mkdir(dir, { recursive: true })] then [fs.writeFile(path, data)]. *)
Definition writeFile (p : Path) (x : Extension) (data : FileText) : M World unit :=
  modify (with_disk (fun d =>
    <[dir p := <[file_name p x := data]> (default ∅ (d !! dir p))]> d)).

(** [fs.unlink(path)], a missing file being ignored. *)
Definition unlink (p : Path) (x : Extension) : M World unit :=
  modify (with_disk (fun d =>
    match d !! dir p with
    | Some files => <[dir p := delete (file_name p x) files]> d
    | None => d
    end)).

(** [console.warn(line)] *)
Definition warn (line : string) : M World unit :=
  modify (fun w => {| service := service w; disk := disk w;
                      notified := notified w; console := console w ++ [line] |}).

(** [private persistToDisk(fullKey, entry)] *)
Definition persistToDisk (fullKey : string) (entry : StateEntry) : M World unit :=
  let filePath := getFilePath fullKey in
  let data := Json entry in
  let* c := gets (fun w => crypto (service w)) in
  match c with
  | Some fns =>
      if encrypted entry then writeFile filePath DotEnc (encrypt fns data)
      else writeFile filePath DotJson data
  | None => writeFile filePath DotJson data
  end.

(** [private loadFromDisk(fullKey)] *)
Definition loadFromDisk (fullKey : string) : M World (option StateEntry) :=
  let filePath := getFilePath fullKey in
  let* w := Eff.get in
  match (match readFile filePath DotEnc w with
         | Some content => Some (content, true)
         | None =>
             match readFile filePath DotJson w with
             | Some content => Some (content, false)
             | None => None
             end
         end) with
  | None => ret None
  | Some (content, isEncrypted) =>
      let content := match crypto (service w) with
                     | Some fns => if isEncrypted then decrypt fns content else content
                     | None => content
                     end in
      match parse content with
      | Some parsed =>
          when (negb (version parsed =? 1))
            (warn ("State entry version mismatch: " +:+ pretty (version parsed) +:+
                   " vs " +:+ pretty (1 : Z))) >>
          ret (Some parsed)
      | None => ret None
      end
  end.

(** [private emitChange(event)]: every change handler is called, whatever
    it throws being ignored. *)
Definition emitChange (event : StateSyncEvent) : M World unit :=
  modify (fun w =>
    {| service := service w; disk := disk w;
       notified := notified w ++ map (fun h => (h, event)) (changeHandlers (service w));
       console := console w |}).

(** [onChange(handler)] *)
Definition onChange (h : string) : M World unit :=
  modify (fun w =>
    {| service := {| memory := memory (service w); crypto := crypto (service w);
                     changeHandlers :=
                       if existsb (String.eqb h) (changeHandlers (service w))
                       then changeHandlers (service w)
                       else changeHandlers (service w) ++ [h] |};
       disk := disk w; notified := notified w; console := console w |}).

(** [this.memory.get(ns)?.get(key)] *)
Definition memory_get (ns key : string) (w : World) : option StateEntry :=
  match memory (service w) !! ns with
  | Some entries => entries !! key
  | None => None
  end.

(** [this.memory.get(ns).set(key, entry)], the inner map being created
    when absent. *)
Definition memory_set (ns key : string) (entry : StateEntry) : M World unit :=
  modify (with_memory (fun m => <[ns := <[key := entry]> (default ∅ (m !! ns))]> m)).

(** [this.memory.get(ns)?.delete(key)] *)
Definition memory_delete (ns key : string) : M World unit :=
  modify (with_memory (fun m =>
    match m !! ns with
    | Some entries => <[ns := delete key entries]> m
    | None => m
    end)).

(** Truthiness of a number option such as [options.ttl]. *)
Definition nonzero (o : option Z) : bool :=
  match o with
  | Some z => negb (z =? 0)
  | None => false
  end.

(** [persist(snappId, key, value, options)]; [now] is what [Date.now()]
    reads. *)
Definition persist (now : Z) (snappId key : string) (v : JsValue)
    (options : PersistOptions) : M World unit :=
  let namespace := default snappId (opt_namespace options) in
  let fullKey := getFullKey namespace key in
  let entry := {| value := v;
                  createdAt := now;
                  expiresAt := if nonzero (opt_ttl options)
                               then Some (now + default 0 (opt_ttl options))
                               else None;
                  encrypted := default false (opt_encrypted options);
                  version := 1 |} in
  memory_set namespace key entry >>
  persistToDisk fullKey entry >>
  when (default false (opt_sync options))
    (emitChange {| ev_namespace := namespace; ev_key := key; ev_snappId := snappId |}).

(** [remove(snappId, key, namespace)] *)
Definition remove (snappId key : string) (namespace : option string) : M World unit :=
  let ns := default snappId namespace in
  memory_delete ns key >>
  let filePath := getFilePath (getFullKey ns key) in
  unlink filePath DotJson >>
  unlink filePath DotEnc.

(** [restore(snappId, key, defaultValue, namespace)]; [now] is what
    [Date.now()] reads when expiry is checked. *)
Definition restore (now : Z) (snappId key : string) (defaultValue : JsValue)
    (namespace : option string) : M World JsValue :=
  let ns := default snappId namespace in
  let* memEntry := gets (memory_get ns key) in
  match memEntry with
  | Some memEntry =>
      if isExpired now memEntry then
        remove snappId key (Some ns) >> ret defaultValue
      else ret (value memEntry)
  | None =>
      let* entry := loadFromDisk (getFullKey ns key) in
      match entry with
      | None => ret defaultValue
      | Some entry =>
          if isExpired now entry then
            remove snappId key (Some ns) >> ret defaultValue
          else
            memory_set ns key entry >> ret (value entry)
      end
  end.

(** [s.endsWith(suffix)] *)
Definition ends_with (suffix s : string) : bool :=
  let n := String.length s in
  let k := String.length suffix in
  (k <=? n)%nat && String.eqb (String.substring (n - k) k s) suffix.

(** [entry.replace(/\.(json|enc)$/, '')] *)
Definition strip_extension (entry : string) : string :=
  let n := String.length entry in
  if ends_with ".json" entry then String.substring 0 (n - 5) entry
  else if ends_with ".enc" entry then String.substring 0 (n - 4) entry
  else entry.

(** [fs.readdir(nsPath)], [None] for [ENOENT]. *)
Definition readdir (d : string) (w : World) : option (list string) :=
  match disk w !! d with
  | Some files => Some (map fst (map_to_list files))
  | None => None
  end.

(** The loop of [listKeys] over the directory entries. *)
Fixpoint collect_keys (now : Z) (ns : string) (entries : list string)
    (keys : list string) : M World (list string) :=
  match entries with
  | [] => ret keys
  | entry :: rest =>
      if ends_with ".json" entry || ends_with ".enc" entry then
        let key := strip_extension entry in
        let* stateEntry := loadFromDisk (getFullKey ns key) in
        match stateEntry with
        | Some e =>
            if negb (isExpired now e)
            then collect_keys now ns rest (keys ++ [key])
            else collect_keys now ns rest keys
        | None => collect_keys now ns rest keys
        end
      else collect_keys now ns rest keys
  end.

(** [listKeys(snappId, namespace)] *)
Definition listKeys (now : Z) (snappId : string) (namespace : option string) : M World (list string) :=
  let ns := default snappId namespace in
  let* entries := gets (readdir (sanitizePath ns)) in
  match entries with
  | Some entries => collect_keys now ns entries []
  | None => ret []
  end.

(** [clear(snappId, namespace)] *)
Definition clear (snappId : string) (namespace : option string) : M World unit :=
  let ns := default snappId namespace in
  modify (with_memory (delete ns)) >>
  modify (with_disk (delete (sanitizePath ns))).



End State.

(* ===================================================================== *)
(** ** API facade ([api.ts], class [SnAppApiImpl]) *)
(* ===================================================================== *)

Module Api.

(** Modelled from the spec: the declarations of [TabDefinition],
    [PanelDefinition], [ToastOptions] and [CommandDefinition] are not among
    the sources; the specification calls them plain records, so a
    definition is kept as its properties by name. *)
Definition Props := gmap string State.JsValue.

(** [TabEvent] *)
Inductive TabEventType := Activated | Closed | Updated.

Record TabEvent := {
  event_type : TabEventType;
  tabId : string
}.

(** [CommandDefinition], the handler by its name. *)
Record CommandDefinition := {
  command_name : string;
  description : string;
  command_handler : string
}.

Record SnAppApiImpl := {
  id : string;
  manifest : SnAppManifest;
  state : SnAppState;
  permissions : gset string;
  workingDirectory : string;
  tabs : gmap string Props;
  panels : gmap string Props;
  tabEventCallbacks : list string;
  tabIdCounter : nat;
  panelIdCounter : nat;
  commands : gmap string CommandDefinition
}.

(** The facade with the three services it was constructed over, and
    (ghost) the tab callbacks called and the lines printed. *)
Record World := {
  api : SnAppApiImpl;
  stateService : State.World;
  hookService : Hooks.World;
  messageBus : Bus.World;
  tab_calls : list (string * TabEvent);
  console : list string
}.

(** [new SnAppApiImpl(options)] *)
Definition create (snappId : string) (m : SnAppManifest) (s : SnAppState)
    (granted : list string) (st : State.World) (hk : Hooks.World) (mb : Bus.World)
    (wd : string) : World :=
  {| api := {| id := snappId; manifest := m; state := s;
               permissions := list_to_set granted;
               workingDirectory := wd;
               tabs := ∅; panels := ∅; tabEventCallbacks := [];
               tabIdCounter := 0; panelIdCounter := 0; commands := ∅ |};
     stateService := st; hookService := hk; messageBus := mb;
     tab_calls := []; console := [] |}.

Definition with_api (f : SnAppApiImpl -> SnAppApiImpl) (w : World) : World :=
  {| api := f (api w); stateService := stateService w;
     hookService := hookService w; messageBus := messageBus w;
     tab_calls := tab_calls w; console := console w |}.

(** A call into the state store the facade holds. *)
Definition in_stateService {A} (m : M State.World A) : M World A :=
  fun w =>
    let (c, st) := m (stateService w) in
    (c, {| api := api w; stateService := st; hookService := hookService w;
           messageBus := messageBus w; tab_calls := tab_calls w;
           console := console w |}).

(** A call into the hook router the facade holds. *)
Definition in_hookService {A} (m : M Hooks.World A) : M World A :=
  fun w =>
    let (c, hk) := m (hookService w) in
    (c, {| api := api w; stateService := stateService w; hookService := hk;
           messageBus := messageBus w; tab_calls := tab_calls w;
           console := console w |}).

(** A call into the message bus the facade holds. *)
Definition in_messageBus {A} (m : M Bus.World A) : M World A :=
  fun w =>
    let (c, mb) := m (messageBus w) in
    (c, {| api := api w; stateService := stateService w;
           hookService := hookService w; messageBus := mb;
           tab_calls := tab_calls w; console := console w |}).

Definition print (line : string) : M World unit :=
  modify (fun w =>
    {| api := api w; stateService := stateService w;
       hookService := hookService w; messageBus := messageBus w;
       tab_calls := tab_calls w; console := console w ++ [line] |}).

(** [hasPermission(permission)] *)
Definition hasPermission (permission : string) (a : SnAppApiImpl) : bool :=
  bool_decide (permission ∈ permissions a).

(** The error [requirePermission] throws. *)
Definition PermissionDenied (permission : string) : Thrown :=
  JsError ("Permission denied: " +:+ permission).

(** [private requirePermission(permission)] *)
Definition requirePermission (permission : string) : M World unit :=
  let* a := gets api in
  if negb (hasPermission permission a) then throw (PermissionDenied permission)
  else ret tt.

(** [getVersion()] *)
Definition getVersion (a : SnAppApiImpl) : option string * string :=
  (Manifest.version (manifest a), "1.0.0").

(** [getWorkingDirectory()] *)
Definition getWorkingDirectory (a : SnAppApiImpl) : string := workingDirectory a.

Section Calls.

(** What [Date.now()] reads during the call, and what the subscribers of
    the bus do. *)
Variable now : Z.
Variable subscribers : string -> Bus.Message -> string -> Bus.CallResult.

(** [persist(key, value, options)] *)
Definition persist (key : string) (v : State.JsValue)
    (options : option State.PersistOptions) : M World unit :=
  requirePermission "storage:write" >>
  let* a := gets api in
  in_stateService (State.persist now (id a) key v (default State.no_options options)).

(** [restore(key, defaultValue)] *)
Definition restore (key : string) (defaultValue : State.JsValue) : M World State.JsValue :=
  requirePermission "storage:read" >>
  let* a := gets api in
  in_stateService (State.restore now (id a) key defaultValue None).

(** [remove(key)] *)
Definition remove (key : string) : M World unit :=
  requirePermission "storage:delete" >>
  let* a := gets api in
  in_stateService (State.remove (id a) key None).

(** [listKeys()] *)
Definition listKeys : M World (list string) :=
  requirePermission "storage:read" >>
  let* a := gets api in
  in_stateService (State.listKeys now (id a) None).

(** [clear()] *)
Definition clear : M World unit :=
  requirePermission "storage:delete" >>
  let* a := gets api in
  in_stateService (State.clear (id a) None).

(** [private emitTabEvent(event)]: every callback is called, whatever it
    throws being ignored. *)
Definition emitTabEvent (event : TabEvent) : M World unit :=
  modify (fun w =>
    {| api := api w; stateService := stateService w;
       hookService := hookService w; messageBus := messageBus w;
       tab_calls := tab_calls w ++ map (fun cb => (cb, event)) (tabEventCallbacks (api w));
       console := console w |}).

Definition set_tabs (f : gmap string Props -> gmap string Props) (a : SnAppApiImpl) : SnAppApiImpl :=
  {| id := id a; manifest := manifest a; state := state a;
     permissions := permissions a; workingDirectory := workingDirectory a;
     tabs := f (tabs a); panels := panels a;
     tabEventCallbacks := tabEventCallbacks a;
     tabIdCounter := tabIdCounter a; panelIdCounter := panelIdCounter a;
     commands := commands a |}.

Definition set_panels (f : gmap string Props -> gmap string Props) (a : SnAppApiImpl) : SnAppApiImpl :=
  {| id := id a; manifest := manifest a; state := state a;
     permissions := permissions a; workingDirectory := workingDirectory a;
     tabs := tabs a; panels := f (panels a);
     tabEventCallbacks := tabEventCallbacks a;
     tabIdCounter := tabIdCounter a; panelIdCounter := panelIdCounter a;
     commands := commands a |}.

Definition set_commands (f : gmap string CommandDefinition -> gmap string CommandDefinition)
    (a : SnAppApiImpl) : SnAppApiImpl :=
  {| id := id a; manifest := manifest a; state := state a;
     permissions := permissions a; workingDirectory := workingDirectory a;
     tabs := tabs a; panels := panels a;
     tabEventCallbacks := tabEventCallbacks a;
     tabIdCounter := tabIdCounter a; panelIdCounter := panelIdCounter a;
     commands := f (commands a) |}.

(** [registerTab(tab)] *)
Definition registerTab (tab : Props) : M World string :=
  requirePermission "ui:tab" >>
  let* a := gets api in
  let n := S (tabIdCounter a) in
  let tabId := "tab_" +:+ id a +:+ "_" +:+ pretty n in
  modify (with_api (fun a =>
    {| id := id a; manifest := manifest a; state := state a;
       permissions := permissions a; workingDirectory := workingDirectory a;
       tabs := <[tabId := <["id" := State.Str tabId]> tab]> (tabs a);
       panels := panels a; tabEventCallbacks := tabEventCallbacks a;
       tabIdCounter := n; panelIdCounter := panelIdCounter a;
       commands := commands a |})) >>
  emitTabEvent {| event_type := Activated; tabId := tabId |} >>
  ret tabId.

(** [unregisterTab(tabId)] *)
Definition unregisterTab (tabId : string) : M World unit :=
  requirePermission "ui:tab" >>
  modify (with_api (set_tabs (delete tabId))) >>
  emitTabEvent {| event_type := Closed; tabId := tabId |}.

(** [updateTab(tabId, updates)] *)
Definition updateTab (tabId : string) (updates : Props) : M World unit :=
  requirePermission "ui:tab" >>
  let* a := gets api in
  match tabs a !! tabId with
  | Some tab =>
      modify (with_api (set_tabs (insert tabId (updates ∪ tab)))) >>
      emitTabEvent {| event_type := Updated; tabId := tabId |}
  | None => ret tt
  end.

(** [activateTab(tabId)] *)
Definition activateTab (tabId : string) : M World unit :=
  requirePermission "ui:tab" >>
  emitTabEvent {| event_type := Activated; tabId := tabId |}.

(** [registerPanel(panel)] *)
Definition registerPanel (panel : Props) : M World string :=
  requirePermission "ui:panel" >>
  let* a := gets api in
  let n := S (panelIdCounter a) in
  let panelId := "panel_" +:+ id a +:+ "_" +:+ pretty n in
  modify (with_api (fun a =>
    {| id := id a; manifest := manifest a; state := state a;
       permissions := permissions a; workingDirectory := workingDirectory a;
       tabs := tabs a;
       panels := <[panelId := <["id" := State.Str panelId]> panel]> (panels a);
       tabEventCallbacks := tabEventCallbacks a;
       tabIdCounter := tabIdCounter a; panelIdCounter := n;
       commands := commands a |})) >>
  ret panelId.

(** [updatePanel(panelId, updates)] *)
Definition updatePanel (panelId : string) (updates : Props) : M World unit :=
  requirePermission "ui:panel" >>
  let* a := gets api in
  match panels a !! panelId with
  | Some panel => modify (with_api (set_panels (insert panelId (updates ∪ panel))))
  | None => ret tt
  end.

(** Truthiness of a stored value. *)
Definition value_truthy (v : option State.JsValue) : bool :=
  match v with
  | Some (State.Bool b) => b
  | Some (State.Num z) => negb (z =? 0)
  | Some (State.Str s) => negb (String.eqb s EmptyString)
  | _ => false
  end.

(** [togglePanel(panelId, expanded)] *)
Definition togglePanel (panelId : string) (expanded : option bool) : M World unit :=
  requirePermission "ui:panel" >>
  let* a := gets api in
  match panels a !! panelId with
  | Some panel =>
      let flag := default (negb (value_truthy (panel !! "expanded"))) expanded in
      modify (with_api (set_panels (insert panelId (<["expanded" := State.Bool flag]> panel))))
  | None => ret tt
  end.

(** [showToast(options)] *)
Definition showToast (toast_type message : string) : M World unit :=
  requirePermission "ui:toast" >>
  print ("[Toast:" +:+ toast_type +:+ "] " +:+ message).

(** [registerCommand(command)] *)
Definition registerCommand (command : CommandDefinition) : M World unit :=
  requirePermission "command:register" >>
  let* a := gets api in
  let fullName := id a +:+ ":" +:+ command_name command in
  modify (with_api (set_commands (insert fullName command))).

(** [name.includes(':')] *)
Fixpoint includes_colon (name : string) : bool :=
  match name with
  | EmptyString => false
  | String c rest => Ascii.eqb c ":" || includes_colon rest
  end.

(** [unregisterCommand(name)] *)
Definition unregisterCommand (name : string) : M World unit :=
  requirePermission "command:register" >>
  let* a := gets api in
  let fullName := if includes_colon name then name else id a +:+ ":" +:+ name in
  modify (with_api (set_commands (delete fullName))).

(** [onHook(event, handler, options)]; the value returned stands for the
    unsubscribe closure. *)
Definition onHook (event handler : string) (options : option Hooks.HookOptions) : M World nat :=
  requirePermission "session:hook" >>
  in_hookService (Hooks.on event (Hooks.Plain handler) (default Hooks.no_options options)).

(** [onceHook(event, handler)] *)
Definition onceHook (event handler : string) : M World unit :=
  requirePermission "session:hook" >>
  in_hookService (Hooks.once event handler).

(** [injectPromptContext(text, priority = 0)] *)
Definition injectPromptContext (text : string) (priority : option Z) : M World unit :=
  requirePermission "prompt:inject" >>
  let* a := gets api in
  print ("[SnApp:" +:+ id a +:+ "] Injecting prompt context: " +:+ text).

(** [publish(channel, message)] *)
Definition publish (channel : string) (message : Bus.Message) : M World unit :=
  requirePermission "bus:publish" >>
  let* a := gets api in
  in_messageBus (Bus.publish subscribers channel message (Some (id a))).

(** [subscribe(channel, handler)]; the value returned stands for the
    unsubscribe closure. *)
Definition subscribe (channel handler : string) : M World nat :=
  requirePermission "bus:subscribe" >>
  let* a := gets api in
  in_messageBus (Bus.subscribe channel handler (Some (id a))).

(** A call of one of the permission-gated operations. *)
Inductive Call :=
| Persist (key : string) (v : State.JsValue) (options : option State.PersistOptions)
| Restore (key : string) (defaultValue : State.JsValue)
| Remove (key : string)
| ListKeys
| Clear
| RegisterTab (tab : Props)
| UnregisterTab (tabId : string)
| UpdateTab (tabId : string) (updates : Props)
| ActivateTab (tabId : string)
| RegisterPanel (panel : Props)
| UpdatePanel (panelId : string) (updates : Props)
| TogglePanel (panelId : string) (expanded : option bool)
| ShowToast (toast_type message : string)
| RegisterCommand (command : CommandDefinition)
| UnregisterCommand (name : string)
| OnHook (event handler : string) (options : option Hooks.HookOptions)
| OnceHook (event handler : string)
| InjectPromptContext (text : string) (priority : option Z)
| Publish (channel : string) (message : Bus.Message)
| Subscribe (channel handler : string).

(** What a call returns. *)
Inductive Returned :=
| Nothing
| AValue (v : State.JsValue)
| Keys (l : list string)
| AnId (s : string)
| AClosure (n : nat).

Definition perform (c : Call) : M World Returned :=
  match c with
  | Persist key v options => persist key v options >> ret Nothing
  | Restore key defaultValue => let* v := restore key defaultValue in ret (AValue v)
  | Remove key => remove key >> ret Nothing
  | ListKeys => let* l := listKeys in ret (Keys l)
  | Clear => clear >> ret Nothing
  | RegisterTab tab => let* s := registerTab tab in ret (AnId s)
  | UnregisterTab tabId => unregisterTab tabId >> ret Nothing
  | UpdateTab tabId updates => updateTab tabId updates >> ret Nothing
  | ActivateTab tabId => activateTab tabId >> ret Nothing
  | RegisterPanel panel => let* s := registerPanel panel in ret (AnId s)
  | UpdatePanel panelId updates => updatePanel panelId updates >> ret Nothing
  | TogglePanel panelId expanded => togglePanel panelId expanded >> ret Nothing
  | ShowToast toast_type message => showToast toast_type message >> ret Nothing
  | RegisterCommand command => registerCommand command >> ret Nothing
  | UnregisterCommand name => unregisterCommand name >> ret Nothing
  | OnHook event handler options =>
      let* n := onHook event handler options in ret (AClosure n)
  | OnceHook event handler => onceHook event handler >> ret Nothing
  | InjectPromptContext text priority => injectPromptContext text priority >> ret Nothing
  | Publish channel message => publish channel message >> ret Nothing
  | Subscribe channel handler => let* n := subscribe channel handler in ret (AClosure n)
  end.

End Calls.

End Api.

(* ===================================================================== *)
(** ** Discovery ([registry.ts], [SnAppRegistry.discover]) *)
(* ===================================================================== *)

Module Discovery.

(** [RegistryOptions], every property optional. *)
Record RegistryOptions := {
  builtinPath : option string;
  additionalPaths : option (list string)
}.

(** An entry of [DiscoveryResult.errors]. *)
Record DiscoveryError := {
  path : string;
  error : Thrown
}.

(** [DiscoveryResult] *)
Record DiscoveryResult := {
  manifests : list SnAppManifest;
  errors : list DiscoveryError
}.

Definition no_result : DiscoveryResult := {| manifests := []; errors := [] |}.

(** A [Dirent] as [readdir] returns it with [withFileTypes]. *)
Record Dirent := {
  name : string;
  isDirectory : bool
}.

(** What [fs.readdir] does: it returns the entries, or throws an error
    with a [code]. *)
Inductive Listing :=
| Lists (entries : list Dirent)
| ListFails (code : option string) (err : Thrown).

(** The text of a file, by what [JSON.parse] makes of it: a value, or a
    thrown [SyntaxError]. *)
Inductive Text :=
| Json (m : SnAppManifest)
| Malformed (err : Thrown).

(** What [fs.readFile] does. *)
Inductive Reading :=
| Reads (content : Text)
| ReadFails (err : Thrown).

(** The part of the host that discovery observes. *)
Record FileSystem := {
  readdir : string -> Listing;
  readFile : string -> Reading;
  access : string -> bool
}.

Section Scan.

(** [path.join] and the file system are the host's. *)
Variable join : string -> string -> string.
Variable fs : FileSystem.

(** [result.manifests.push(manifest)] *)
Definition push_manifest (m : SnAppManifest) : M DiscoveryResult unit :=
  modify (fun r => {| manifests := manifests r ++ [m]; errors := errors r |}).

(** [result.errors.push(e)] *)
Definition push_error (e : DiscoveryError) : M DiscoveryResult unit :=
  modify (fun r => {| manifests := manifests r; errors := errors r ++ [e] |}).

(** [private loadManifest(manifestPath)] *)
Definition loadManifest (manifestPath : string) : M DiscoveryResult SnAppManifest :=
  match readFile fs manifestPath with
  | Reads (Json manifest) => ret manifest
  | Reads (Malformed err) => throw err
  | ReadFails err => throw err
  end.

(** [private fileExists(filePath)] *)
Definition fileExists (filePath : string) : M DiscoveryResult bool :=
  ret (access fs filePath).

(** The loop of [scanDirectory] over the directory entries. *)
Fixpoint scan_entries (dirPath : string) (entries : list Dirent) : M DiscoveryResult unit :=
  match entries with
  | [] => ret tt
  | entry :: rest =>
      when (isDirectory entry)
        (let snappPath := join dirPath (name entry) in
         let manifestPath := join snappPath "snap.json" in
         try_catch
           (let* manifest := loadManifest manifestPath in
            push_manifest manifest)
           (fun err =>
              let* found := fileExists manifestPath in
              when found (push_error {| path := snappPath; error := toError err |}))) >>
      scan_entries dirPath rest
  end.

(** [private scanDirectory(dirPath)] *)
Definition scanDirectory (dirPath : string) : DiscoveryResult :=
  final
    (match readdir fs dirPath with
     | Lists entries => scan_entries dirPath entries
     | ListFails code err =>
         when (negb (bool_decide (code = Some "ENOENT")))
           (push_error {| path := dirPath; error := toError err |})
     end no_result).

(** [result.manifests.push(...r.manifests); result.errors.push(...r.errors)] *)
Definition push_all (result r : DiscoveryResult) : DiscoveryResult :=
  {| manifests := manifests result ++ manifests r;
     errors := errors result ++ errors r |}.

(** [discover()], for a registry constructed with [options]. *)
Definition discover (options : RegistryOptions) : DiscoveryResult :=
  let builtinPath := default "./snapps" (builtinPath options) in
  let additionalPaths := default [] (additionalPaths options) in
  fold_left (fun result path => push_all result (scanDirectory path))
    additionalPaths
    (push_all no_result (scanDirectory builtinPath)).

End Scan.

End Discovery.

(* ===================================================================== *)
(** ** API facade, continued ([api.ts]: tab events, commands, cleanup) *)
(* ===================================================================== *)

Module ApiSession.
Import Api.

(** The [CommandArgs] the facade builds: [options] is always the empty
    object and [flags] the empty set. *)
Record CommandArgs := {
  positional : list string;
  raw : string
}.

(** Modelled from the spec: the declaration of [CommandResult] is not
    among the sources; the two results [executeCommand] builds itself hold
    [success] and [message], and the specification gives a handler's
    result the same shape. *)
Record CommandResult := {
  success : bool;
  result_message : option string
}.

(** What awaiting a command handler yields. *)
Inductive HandlerOutcome :=
| Returns (r : CommandResult)
| Throws (t : Thrown).

(** [(error as Error).message]: a thrown value that is not an [Error]
    (a string, a number) has no such property. *)
Definition message_property (t : Thrown) : option string :=
  match t with
  | NonError _ => None
  | e => Some (message e)
  end.

(** The characters [\s] and [trim] take for white space, a character
    being a code unit below 256: tab, line feed, vertical tab, form feed,
    carriage return, space and no-break space. *)
Definition is_space (c : ascii) : bool :=
  let n := N_of_ascii c in
  ((9 <=? n) && (n <=? 13) || (n =? 32) || (n =? 160))%N.

(** The maximal runs of characters that are not white space; [word] is
    the run being read. *)
Fixpoint words_from (word : string) (s : string) : list string :=
  match s with
  | EmptyString =>
      match word with EmptyString => [] | _ => [word] end
  | String c rest =>
      if is_space c then
        match word with
        | EmptyString => words_from EmptyString rest
        | _ => word :: words_from EmptyString rest
        end
      else words_from (word +:+ String c EmptyString) rest
  end.

(** [commandLine.trim().split(/\s+/)]: the words of the line; a line
    that is empty or blank splits into one empty string. *)
Definition split_words (commandLine : string) : list string :=
  match words_from EmptyString commandLine with
  | [] => [EmptyString]
  | parts => parts
  end.

Definition set_callbacks (f : list string -> list string) (a : SnAppApiImpl) : SnAppApiImpl :=
  {| id := id a; manifest := manifest a; state := state a;
     permissions := permissions a; workingDirectory := workingDirectory a;
     tabs := tabs a; panels := panels a;
     tabEventCallbacks := f (tabEventCallbacks a);
     tabIdCounter := tabIdCounter a; panelIdCounter := panelIdCounter a;
     commands := commands a |}.

(** [onTabEvent(callback)]: the callbacks form a set, kept in insertion
    order.  The function it returns is [offTabEvent callback]. *)
Definition onTabEvent (callback : string) : M World unit :=
  modify (with_api (set_callbacks (fun cbs =>
    if existsb (String.eqb callback) cbs then cbs else cbs ++ [callback]))).

(** The closure [onTabEvent] returns. *)
Definition offTabEvent (callback : string) : M World unit :=
  modify (with_api (set_callbacks
    (List.filter (fun cb => negb (String.eqb cb callback))))).

Section Commands.

(** What the handler named [h] does with the arguments it is given. *)
Variable handlers : string -> CommandArgs -> HandlerOutcome.

(** [executeCommand(commandLine)] *)
Definition executeCommand (commandLine : string) : M World CommandResult :=
  let parts := split_words commandLine in
  let name := hd EmptyString parts in
  let args := {| positional := tl parts; raw := commandLine |} in
  let* a := gets api in
  match commands a !! name with
  | None =>
      ret {| success := false;
             result_message := Some ("Command not found: " +:+ name) |}
  | Some command =>
      try_catch
        (match handlers (command_handler command) args with
         | Returns result => ret result
         | Throws t => throw t
         end)
        (fun err =>
           ret {| success := false;
                  result_message :=
                    Some ("Command failed: " +:+ interpolate (message_property err)) |})
  end.

End Commands.

(** [dispose()]: nothing ever puts a function into [disposables], so the
    loop over it does nothing. *)
Definition dispose : M World unit :=
  modify (with_api (fun a =>
    {| id := id a; manifest := manifest a; state := state a;
       permissions := permissions a; workingDirectory := workingDirectory a;
       tabs := ∅; panels := ∅; tabEventCallbacks := [];
       tabIdCounter := tabIdCounter a; panelIdCounter := panelIdCounter a;
       commands := ∅ |})) >>
  let* a := gets api in
  print ("[SnApp:" +:+ id a +:+ "] API disposed").

End ApiSession.

(* ===================================================================== *)
(** * Vocabulary of the properties *)
(* ===================================================================== *)

(** The manifest and the app of the end-to-end scenarios. *)
Module Scenario.

Definition manifest_x : SnAppManifest :=
  {| Manifest.id := Some "x"; Manifest.name := Some "X";
     Manifest.shortName := None; Manifest.version := None;
     Manifest.entry := Some "./i";
     Manifest.permissions := Some (Manifest.PermArray []);
     Manifest.openclaw := Some {| Manifest.minVersion := Some "2.0.0" |} |}.

(** The app in state [s], stamped at 1000. *)
Definition app_x (s : SnAppState) : SnApp :=
  {| manifest := manifest_x; state := s; instance := None; error := None;
     registeredAt := 1000; stateChangedAt := 1000 |}.

End Scenario.

(* ===================================================================== *)
(** ** Lifecycle driver *)
(* ===================================================================== *)

Module LifecycleSpec.
Import Lifecycle Scenario.

(** The transition table as the specification prints it. *)
Inductive table : SnAppState -> SnAppState -> Prop :=
| registered_loading : table Registered Loading
| loading_loaded : table Loading Loaded
| loading_error : table Loading Error
| loaded_activating : table Loaded Activating
| loaded_unloading : table Loaded Unloading
| activating_active : table Activating Active
| activating_error : table Activating Error
| active_suspending : table Active Suspending
| active_unloading : table Active Unloading
| suspending_suspended : table Suspending Suspended
| suspending_error : table Suspending Error
| suspended_activating : table Suspended Activating
| suspended_unloading : table Suspended Unloading
| unloading_registered : table Unloading Registered
| unloading_error : table Unloading Error
| error_unloading : table Error Unloading.

(** Every write in [ws], starting from state [from], is a step of the table. *)
Fixpoint along_table (from : SnAppState) (ws : list SnAppState) : Prop :=
  match ws with
  | [] => True
  | to :: rest => table from to /\ along_table to rest
  end.

(** The specification's preconditions of the four operations. *)
Definition precondition (op : Operation) (s : SnAppState) : bool :=
  match op with
  | Load _ => bool_decide (s = Registered)
  | Activate _ => bool_decide (s = Loaded) || bool_decide (s = Suspended)
  | Suspend => bool_decide (s = Active)
  | Unload => negb (bool_decide (s = Registered))
  end.

(** A clock that is one millisecond further at every reading. *)
Definition ticking (n : nat) : Z := 1001 + Z.of_nat n.

(** A clock that stays within one millisecond. *)
Definition frozen (n : nat) : Z := 1000.

(** The state an operation enters first, and the state it ends in when
    nothing fails. *)
Definition intermediate (op : Operation) : SnAppState :=
  match op with
  | Load _ => Loading
  | Activate _ => Activating
  | Suspend => Suspending
  | Unload => Unloading
  end.

Definition target (op : Operation) : SnAppState :=
  match op with
  | Load _ => Loaded
  | Activate _ => Active
  | Suspend => Suspended
  | Unload => Registered
  end.

Definition rejection (o : option Outcome) : option Thrown :=
  match o with
  | Some (Rejects t) => Some t
  | _ => None
  end.

(** What the callbacks an operation awaits throw, if anything. *)
Definition failure (op : Operation) (a : SnApp) : option Thrown :=
  match op with
  | Load loader => rejection loader
  | Activate (Fails t) => Some t
  | Activate (Produces i) => rejection (onActivate i)
  | Suspend => rejection (instance_callback onSuspend a)
  | Unload => rejection (instance_callback onDestroy a)
  end.

End LifecycleSpec.

(* ===================================================================== *)
(** ** Registry *)
(* ===================================================================== *)

Module RegistrySpec.
Import Regex Registry.

(** What [warn_unknown] prints. *)
Fixpoint unknown_warnings (id : option string) (perms : list string) : list string :=
  match perms with
  | [] => []
  | perm :: rest =>
      (if is_valid_permission perm then []
       else ["SnApp " +:+ dquote +:+ interpolate id +:+ dquote +:+
             " has unknown permission: " +:+ dquote +:+ perm +:+ dquote])
      ++ unknown_warnings id rest
  end.

Definition missing (o : option string) : bool := negb (truthy o).

(** The required-field rules, a field counting as missing when the code
    finds it falsy: absent or empty. *)
Definition violates (m : SnAppManifest) : bool :=
  missing (Manifest.id m) || missing (Manifest.name m) ||
  missing (Manifest.entry m) ||
  negb (permissions_truthy (Manifest.permissions m)) ||
  negb (bool_decide (is_Some (Manifest.openclaw m))) ||
  missing (match Manifest.openclaw m with
           | Some o => Manifest.minVersion o
           | None => None
           end) ||
  negb (matches kebab_case (interpolate (Manifest.id m))) ||
  (truthy (Manifest.version m) &&
   negb (matches_prefix semver_start (interpolate (Manifest.version m)))) ||
  negb (isArray (Manifest.permissions m)).

Definition long_shortName_warning (m : SnAppManifest) : list string :=
  if truthy (Manifest.shortName m) &&
     (5 <? js_length (interpolate (Manifest.shortName m)))
  then ["SnApp " +:+ dquote +:+ interpolate (Manifest.id m) +:+ dquote +:+ " has long shortName " +:+
        dquote +:+ interpolate (Manifest.shortName m) +:+ dquote +:+
        " (recommend 2-3 chars for tabs)"]
  else [].

(** The rules as the specification words them: a required field is missing
    when the manifest has no such property, a version is present when the
    manifest has the property. *)
Definition stated_violation (m : SnAppManifest) : Prop :=
  Manifest.id m = None \/ Manifest.name m = None \/ Manifest.entry m = None \/
  Manifest.permissions m = None \/ Manifest.openclaw m = None \/
  (exists o, Manifest.openclaw m = Some o /\ Manifest.minVersion o = None) \/
  (exists s, Manifest.id m = Some s /\ matches kebab_case s = false) \/
  (exists v, Manifest.version m = Some v /\
             matches_prefix semver_start v = false) \/
  (exists s, Manifest.permissions m = Some (Manifest.PermString s)).

Definition with_name (name : option string) (m : SnAppManifest) : SnAppManifest :=
  {| Manifest.id := Manifest.id m; Manifest.name := name;
     Manifest.shortName := Manifest.shortName m;
     Manifest.version := Manifest.version m;
     Manifest.entry := Manifest.entry m;
     Manifest.permissions := Manifest.permissions m;
     Manifest.openclaw := Manifest.openclaw m |}.

Definition with_version (version : option string) (m : SnAppManifest) : SnAppManifest :=
  {| Manifest.id := Manifest.id m; Manifest.name := Manifest.name m;
     Manifest.shortName := Manifest.shortName m;
     Manifest.version := version;
     Manifest.entry := Manifest.entry m;
     Manifest.permissions := Manifest.permissions m;
     Manifest.openclaw := Manifest.openclaw m |}.

(** The same manifest with another short name and, when its permissions
    are an array, other elements in that array. *)
Definition redecorated (short : option string) (perms : list string)
    (m : SnAppManifest) : SnAppManifest :=
  {| Manifest.id := Manifest.id m; Manifest.name := Manifest.name m;
     Manifest.shortName := short;
     Manifest.version := Manifest.version m;
     Manifest.entry := Manifest.entry m;
     Manifest.permissions :=
       match Manifest.permissions m with
       | Some (Manifest.PermArray _) => Some (Manifest.PermArray perms)
       | p => p
       end;
     Manifest.openclaw := Manifest.openclaw m |}.

End RegistrySpec.

(* ===================================================================== *)
(** ** Hook router *)
(* ===================================================================== *)

Module HookSpec.
Import Hooks.

Definition entry_with (p : Z) (n : nat) : HandlerEntry :=
  {| handler := Plain "h"; priority := p; filter := fun _ => true; async := false; id := n |}.

(** The entries [emit] calls and the array it leaves, by the same loop
    without the calls themselves. *)
Fixpoint visited (fuel i : nat) (hs : list HandlerEntry) (payload : Payload)
  : list HandlerEntry * list HandlerEntry :=
  match fuel with
  | O => ([], hs)
  | S fuel' =>
      match hs !! i with
      | None => ([], hs)
      | Some e =>
          if negb (filter e payload) then visited fuel' (S i) hs payload
          else
            let hs' := match handler e with
                       | Plain _ => hs
                       | OnceWrapper _ => remove_id (id e) hs
                       end in
            let (called, left) := visited fuel' (S i) hs' payload in
            (e :: called, left)
      end
  end.

(** What [console.error] receives for the entries called. *)
Fixpoint errors (behaviour : string -> Payload -> Outcome) (event : string)
    (payload : Payload) (called : list HandlerEntry) : list (string * Thrown) :=
  match called with
  | [] => []
  | e :: rest =>
      match behaviour (fn_of (handler e)) payload with
      | Resolves => errors behaviour event payload rest
      | Rejects t => (event, t) :: errors behaviour event payload rest
      end
  end.

Definition after_emit (behaviour : string -> Payload -> Outcome) (event : string)
    (payload : Payload) (fuel i : nat) (w : World) : World :=
  let v := visited fuel i (handlers_of event w) payload in
  {| service :=
       {| handlers := match handlers (service w) !! event with
                      | Some _ => <[event := snd v]> (handlers (service w))
                      | None => handlers (service w)
                      end;
          handlerIdCounter := handlerIdCounter (service w) |};
     calls := calls w ++ map (fun e => (e, payload)) (fst v);
     console := console w ++ errors behaviour event payload (fst v) |}.

(** One iteration that calls entry [e]. *)
Definition after_call (behaviour : string -> Payload -> Outcome) (event : string)
    (payload : Payload) (e : HandlerEntry) (w : World) : World :=
  {| service :=
       match handler e with
       | Plain _ => service w
       | OnceWrapper _ =>
           service (set_handlers event (remove_id (id e) (handlers_of event w)) w)
       end;
     calls := calls w ++ [(e, payload)];
     console := console w ++ errors behaviour event payload [e] |}.

(** [before a b]: [a] has the higher priority, or the same priority and
    was registered earlier (ids are handed out in registration order). *)
Definition before (a b : HandlerEntry) : Prop :=
  priority b < priority a \/ (priority a = priority b /\ (id a < id b)%nat).

Definition ordered (l : list HandlerEntry) : Prop := StronglySorted before l.

(** The invariant of the router: every array is in order and every id has
    been handed out already. *)
Definition tidy (w : World) : Prop :=
  forall event hs,
    handlers (service w) !! event = Some hs ->
    ordered hs /\ forall x, x ∈ hs -> (id x <= handlerIdCounter (service w))%nat.

(** The entries called between two worlds, in the order called. *)
Definition called_between (w w' : World) : list HandlerEntry :=
  map fst (drop (length (calls w)) (calls w')).

(** Scenario 3: priorities 1, 3, 2 registered in that order. *)
Definition session_start_132 : list Command :=
  [ On "session_start" "push1"
       {| opt_priority := Some 1; opt_filter := None; opt_async := None |};
    On "session_start" "push3"
       {| opt_priority := Some 3; opt_filter := None; opt_async := None |};
    On "session_start" "push2"
       {| opt_priority := Some 2; opt_filter := None; opt_async := None |} ].

Definition is_plain (e : HandlerEntry) : bool :=
  match handler e with Plain _ => true | OnceWrapper _ => false end.

End HookSpec.

(* ===================================================================== *)
(** ** Message bus *)
(* ===================================================================== *)

Module BusSpec.
Import Bus.

Section Delivery.

Variable behaviour : string -> Message -> string -> CallResult.
Variables (channel : string) (message : Message) (sender : string).

Definition returns (sub : Subscription) : bool :=
  match behaviour (handler sub) message sender with
  | Returns => true
  | Throws _ => false
  end.

(** The indices [forEach] collects: the one-shot subscriptions whose
    handler returned. *)
Fixpoint collected (subs : list Subscription) (index : nat) : list nat :=
  match subs with
  | [] => []
  | sub :: rest =>
      (if once sub && returns sub then [index] else []) ++ collected rest (S index)
  end.

Fixpoint thrown (subs : list Subscription) : list (string * Thrown) :=
  match subs with
  | [] => []
  | sub :: rest =>
      match behaviour (handler sub) message sender with
      | Returns => thrown rest
      | Throws t => (channel, t) :: thrown rest
      end
  end.

Definition after_deliver (subs : list Subscription) (w : World) : World :=
  {| bus := bus w; allocated := allocated w; promises := promises w;
     timers := timers w; timers_set := timers_set w;
     calls := calls w ++ map (fun sub => (sub, message, sender)) subs;
     console := console w ++ thrown subs |}.

Definition after_publish (w : World) : World :=
  let subs := subscriptions_of channel w in
  {| bus := match channels (bus w) !! channel with
            | Some _ =>
                set_channel channel
                  (List.filter (fun sub => negb (once sub && returns sub)) subs) (bus w)
            | None => bus w
            end;
     allocated := allocated w; promises := promises w;
     timers := timers w; timers_set := timers_set w;
     calls := calls w ++ map (fun sub => (sub, message, sender)) subs;
     console := console w ++ thrown subs |}.

End Delivery.

(** A handler that throws whenever it is called, among handlers that
    return. *)
Definition boom (fn : string) (_ : Message) (_ : string) : CallResult :=
  if String.eqb fn "boom" then Throws (JsError "oops") else Returns.

Definition called_handlers (w : World) : list (string * Message) :=
  map (fun c => (handler (fst (fst c)), snd (fst c))) (calls w).

(** The timers the host holds were all set before now. *)
Definition fresh_timers (w : World) : Prop :=
  Forall (fun t => (timer_id t < timers_set w)%nat) (timers w).

(** The kinds of failure the specification names for the bus. *)
Inductive BusFailure :=
| UnknownMethod
| RequestTimeout.

(** The kind of an error the bus raises.  The bus builds one error only,
    [new Error(`Request timeout: ...`)]. *)
Definition failure_kind (t : Thrown) : option BusFailure :=
  match t with
  | JsError msg =>
      if starts_with "Request timeout: " msg then Some RequestTimeout else None
  | _ => None
  end.

(** A run of publications on one channel. *)
Fixpoint publish_all (behaviour : string -> Message -> string -> CallResult)
    (channel : string) (ms : list (Message * option string)) : M World unit :=
  match ms with
  | [] => ret tt
  | (message, sender) :: rest =>
      publish behaviour channel message sender >>
      publish_all behaviour channel rest
  end.

(** How often the subscription object [r] has been called. *)
Definition times_called (r : nat) (w : World) : nat :=
  length (List.filter (fun c => Nat.eqb (ref (fst (fst c))) r) (calls w)).

End BusSpec.

(* ===================================================================== *)
(** ** State store *)
(* ===================================================================== *)

Module StateSpec.
Import State.

(** The entry [persist] builds. *)
Definition entry_of (now : Z) (v : JsValue) (options : PersistOptions) : StateEntry :=
  {| value := v;
     createdAt := now;
     expiresAt := if nonzero (opt_ttl options)
                  then Some (now + default 0 (opt_ttl options))
                  else None;
     encrypted := default false (opt_encrypted options);
     version := 1 |}.

(** What [loadFromDisk] returns, as a function of the disk and the
    decryption function. *)
Definition loaded (fullKey : string) (w : World) : option StateEntry :=
  let filePath := getFilePath fullKey in
  match readFile filePath DotEnc w with
  | Some content =>
      parse (match crypto (service w) with
             | Some fns => decrypt fns content
             | None => content
             end)
  | None =>
      match readFile filePath DotJson w with
      | Some content => parse content
      | None => None
      end
  end.

(** Two worlds with the same store and the same disk. *)
Definition same_files (w w' : World) : Prop :=
  service w = service w' /\ disk w = disk w'.

(** The file [persist] writes is the file [loadFromDisk] reads back: an
    encrypted write is read through a [decrypt] that inverts [encrypt]; a
    plain write is read when no [.enc] file lies beside it. *)
Definition reads_back (options : PersistOptions) (fullKey : string) (w : World) : Prop :=
  match crypto (service w) with
  | Some fns =>
      if default false (opt_encrypted options)
      then forall text, decrypt fns (encrypt fns text) = text
      else readFile (getFilePath fullKey) DotEnc w = None
  | None => readFile (getFilePath fullKey) DotEnc w = None
  end.

(** A toy pair of functions: [Sealed] hides a text, [unseal] recovers it. *)
Definition unseal (t : FileText) : FileText :=
  match t with
  | Sealed inner => inner
  | other => other
  end.

Definition sealing : Crypto := {| encrypt := Sealed; decrypt := unseal |}.

Definition ttl (T : Z) : PersistOptions :=
  {| opt_encrypted := None; opt_ttl := Some T; opt_sync := None;
     opt_namespace := None |}.

Definition sealed : PersistOptions :=
  {| opt_encrypted := Some true; opt_ttl := None; opt_sync := None;
     opt_namespace := None |}.

End StateSpec.

(* ===================================================================== *)
(** ** API facade *)
(* ===================================================================== *)

Module ApiSpec.
Import Api.

(** The tag each operation hands to [requirePermission]. *)
Definition required (c : Call) : string :=
  match c with
  | Persist _ _ _ => "storage:write"
  | Restore _ _ | ListKeys => "storage:read"
  | Remove _ | Clear => "storage:delete"
  | RegisterTab _ | UnregisterTab _ | UpdateTab _ _ | ActivateTab _ => "ui:tab"
  | RegisterPanel _ | UpdatePanel _ _ | TogglePanel _ _ => "ui:panel"
  | ShowToast _ _ => "ui:toast"
  | RegisterCommand _ | UnregisterCommand _ => "command:register"
  | OnHook _ _ _ | OnceHook _ _ => "session:hook"
  | InjectPromptContext _ _ => "prompt:inject"
  | Publish _ _ => "bus:publish"
  | Subscribe _ _ => "bus:subscribe"
  end.

(** A facade like [w] that is granted [tag] as well. *)
Definition granting (tag : string) (w : World) : World :=
  with_api (fun a =>
    {| id := id a; manifest := manifest a; state := state a;
       permissions := {[tag]} ∪ permissions a;
       workingDirectory := workingDirectory a;
       tabs := tabs a; panels := panels a;
       tabEventCallbacks := tabEventCallbacks a;
       tabIdCounter := tabIdCounter a; panelIdCounter := panelIdCounter a;
       commands := commands a |}) w.

Section Guarded.

Variable now : Z.
Variable subscribers : string -> Bus.Message -> string -> Bus.CallResult.

(** What each operation goes on to do once the permission check has
    passed: the call into the service it delegates to, or its work on the
    facade's own tables. *)
Definition delegate (c : Call) : M World Returned :=
  let* a := gets api in
  match c with
  | Persist key v options =>
      in_stateService
        (State.persist now (id a) key v (default State.no_options options)) >>
      ret Nothing
  | Restore key defaultValue =>
      let* v := in_stateService (State.restore now (id a) key defaultValue None) in
      ret (AValue v)
  | Remove key =>
      in_stateService (State.remove (id a) key None) >> ret Nothing
  | ListKeys =>
      let* l := in_stateService (State.listKeys now (id a) None) in ret (Keys l)
  | Clear =>
      in_stateService (State.clear (id a) None) >> ret Nothing
  | RegisterTab tab =>
      let tabId := "tab_" +:+ id a +:+ "_" +:+ pretty (S (tabIdCounter a)) in
      modify (with_api (fun a =>
        {| id := id a; manifest := manifest a; state := state a;
           permissions := permissions a; workingDirectory := workingDirectory a;
           tabs := <[tabId := <["id" := State.Str tabId]> tab]> (tabs a);
           panels := panels a; tabEventCallbacks := tabEventCallbacks a;
           tabIdCounter := S (tabIdCounter a); panelIdCounter := panelIdCounter a;
           commands := commands a |})) >>
      emitTabEvent {| event_type := Activated; tabId := tabId |} >>
      ret (AnId tabId)
  | UnregisterTab tabId =>
      modify (with_api (set_tabs (delete tabId))) >>
      emitTabEvent {| event_type := Closed; tabId := tabId |} >>
      ret Nothing
  | UpdateTab tabId updates =>
      match tabs a !! tabId with
      | Some tab =>
          modify (with_api (set_tabs (insert tabId (updates ∪ tab)))) >>
          emitTabEvent {| event_type := Updated; tabId := tabId |} >>
          ret Nothing
      | None => ret Nothing
      end
  | ActivateTab tabId =>
      emitTabEvent {| event_type := Activated; tabId := tabId |} >> ret Nothing
  | RegisterPanel panel =>
      let panelId := "panel_" +:+ id a +:+ "_" +:+ pretty (S (panelIdCounter a)) in
      modify (with_api (fun a =>
        {| id := id a; manifest := manifest a; state := state a;
           permissions := permissions a; workingDirectory := workingDirectory a;
           tabs := tabs a;
           panels := <[panelId := <["id" := State.Str panelId]> panel]> (panels a);
           tabEventCallbacks := tabEventCallbacks a;
           tabIdCounter := tabIdCounter a; panelIdCounter := S (panelIdCounter a);
           commands := commands a |})) >>
      ret (AnId panelId)
  | UpdatePanel panelId updates =>
      match panels a !! panelId with
      | Some panel =>
          modify (with_api (set_panels (insert panelId (updates ∪ panel)))) >>
          ret Nothing
      | None => ret Nothing
      end
  | TogglePanel panelId expanded =>
      match panels a !! panelId with
      | Some panel =>
          let flag := default (negb (value_truthy (panel !! "expanded"))) expanded in
          modify (with_api (set_panels
            (insert panelId (<["expanded" := State.Bool flag]> panel)))) >>
          ret Nothing
      | None => ret Nothing
      end
  | ShowToast toast_type message =>
      print ("[Toast:" +:+ toast_type +:+ "] " +:+ message) >> ret Nothing
  | RegisterCommand command =>
      modify (with_api (set_commands
        (insert (id a +:+ ":" +:+ command_name command) command))) >>
      ret Nothing
  | UnregisterCommand name =>
      modify (with_api (set_commands
        (delete (if includes_colon name then name else id a +:+ ":" +:+ name)))) >>
      ret Nothing
  | OnHook event handler options =>
      let* n := in_hookService
                  (Hooks.on event (Hooks.Plain handler)
                     (default Hooks.no_options options)) in
      ret (AClosure n)
  | OnceHook event handler =>
      in_hookService (Hooks.once event handler) >> ret Nothing
  | InjectPromptContext text priority =>
      print ("[SnApp:" +:+ id a +:+ "] Injecting prompt context: " +:+ text) >>
      ret Nothing
  | Publish channel message =>
      in_messageBus (Bus.publish subscribers channel message (Some (id a))) >>
      ret Nothing
  | Subscribe channel handler =>
      let* n := in_messageBus (Bus.subscribe channel handler (Some (id a))) in
      ret (AClosure n)
  end.

End Guarded.

(** Scenario 5: a facade granted [storage:read] only, over an empty
    store. *)
Definition read_only : World :=
  create "x" Scenario.manifest_x Registered ["storage:read"]
    (State.create None ∅) Hooks.initial Bus.initial "/work".

Definition silent (_ : string) (_ : Bus.Message) (_ : string) : Bus.CallResult :=
  Bus.Returns.

End ApiSpec.

(* ===================================================================== *)
(** ** Lifecycle driver: runs of several operations *)
(* ===================================================================== *)

Module LifecycleRuns.
Import Lifecycle LifecycleSpec.

(** The states an operation can end in; the other four are entered and
    left within one operation. *)
Definition settled (s : SnAppState) : bool :=
  match s with
  | Registered | Loaded | Active | Suspended | Error => true
  | Loading | Activating | Suspending | Unloading => false
  end.

(** What the fields of an app record say about one another between
    operations: [error] is set exactly in state [error]; an app that is
    registered or loaded has no instance, an app that is active or
    suspended has one. *)
Definition consistent (a : SnApp) : Prop :=
  settled (state a) = true /\
  (is_Some (error a) <-> state a = Error) /\
  match state a with
  | Registered | Loaded => instance a = None
  | Active | Suspended => is_Some (instance a)
  | _ => True
  end.

(** A client that awaits one operation after the other and catches what
    they raise. *)
Fixpoint drive_all (clock : nat -> Z) (ops : list Operation) : M World unit :=
  match ops with
  | [] => ret tt
  | op :: rest =>
      try_catch (drive clock op >> ret tt) (fun _ => ret tt) >>
      drive_all clock rest
  end.

(** The instance an operation leaves in the record: [activate] installs
    what the factory produced before it awaits [onActivate], and a
    successful [unload] clears the field. *)
Definition instance_after (op : Operation) (a : SnApp) : option SnAppInstance :=
  match op with
  | Activate (Produces i) => Some i
  | Unload => match failure op a with None => None | Some _ => instance a end
  | _ => instance a
  end.

(** The error an operation leaves in the record. *)
Definition error_after (op : Operation) (a : SnApp) : option Thrown :=
  match failure op a with
  | Some t => Some (toError t)
  | None => match op with Unload => None | _ => error a end
  end.

(** A whole life: load, activate, suspend, activate again, unload. *)
Definition full_cycle (i i' : SnAppInstance) : list Operation :=
  [Load None; Activate (Produces i); Suspend; Activate (Produces i'); Unload].

(** Every callback the instance has resolves. *)
Definition resolves (o : option Outcome) : bool :=
  match o with
  | Some (Rejects _) => false
  | _ => true
  end.

Definition well_behaved (i : SnAppInstance) : bool :=
  resolves (onActivate i) && resolves (onSuspend i) && resolves (onDestroy i).

Definition quiet : SnAppInstance :=
  {| onActivate := Some Resolves; onSuspend := None; onDestroy := Some Resolves |}.

End LifecycleRuns.

(* ===================================================================== *)
(** ** Registry: histories of the catalogue *)
(* ===================================================================== *)

Module RegistryRuns.
Import Regex Registry RegistrySpec.

(** What a client of the catalogue can do to it. *)
Inductive Command :=
| Register (now : Z) (m : SnAppManifest)
| Unregister (id : string)
| Clear.

(** The client catches what [register] throws. *)
Definition exec (c : Command) : M World unit :=
  match c with
  | Register now m => try_catch (register now m >> ret tt) (fun _ => ret tt)
  | Unregister id => unregister id >> ret tt
  | Clear => clear
  end.

Fixpoint exec_all (cs : list Command) : M World unit :=
  match cs with
  | [] => ret tt
  | c :: rest => exec c >> exec_all rest
  end.

(** Every entry of the catalogue sits under the id of its manifest, and
    that manifest passes validation. *)
Definition validated (r : SnAppRegistry) : Prop :=
  forall k a,
    snapps r !! k = Some a ->
    exists id,
      k = Some id /\ Manifest.id (manifest a) = Some id /\
      matches kebab_case id = true /\ violates (manifest a) = false.

End RegistryRuns.

(* ===================================================================== *)
(** ** Discovery *)
(* ===================================================================== *)

Module DiscoverySpec.
Import Discovery.

(** The directories [discover] scans, in the order it scans them. *)
Definition scanned (options : RegistryOptions) : list string :=
  default "./snapps" (builtinPath options) :: default [] (additionalPaths options).

(** What reading and parsing a manifest file throws, if anything. *)
Definition load_error (r : Reading) : option Thrown :=
  match r with
  | Reads (Json _) => None
  | Reads (Malformed err) => Some err
  | ReadFails err => Some err
  end.

(** The manifests found below [dir], in the order of the listing. *)
Fixpoint found (join : string -> string -> string) (fs : FileSystem)
    (dir : string) (entries : list Dirent) : list SnAppManifest :=
  match entries with
  | [] => []
  | entry :: rest =>
      (if isDirectory entry then
         match readFile fs (join (join dir (name entry)) "snap.json") with
         | Reads (Json m) => [m]
         | _ => []
         end
       else []) ++ found join fs dir rest
  end.

(** The manifest files below [dir] that exist and could not be loaded. *)
Fixpoint broken (join : string -> string -> string) (fs : FileSystem)
    (dir : string) (entries : list Dirent) : list DiscoveryError :=
  match entries with
  | [] => []
  | entry :: rest =>
      (if isDirectory entry then
         match load_error (readFile fs (join (join dir (name entry)) "snap.json")) with
         | Some err =>
             if access fs (join (join dir (name entry)) "snap.json")
             then [{| path := join dir (name entry); error := toError err |}]
             else []
         | None => []
         end
       else []) ++ broken join fs dir rest
  end.

(** A host with one app directory, one directory without a manifest, a
    plain file, and a second scan path that does not exist. *)
Definition slash (a b : string) : string := a +:+ "/" +:+ b.

Definition one_app : FileSystem :=
  {| readdir := fun p =>
       if String.eqb p "./snapps"
       then Lists [ {| name := "x"; isDirectory := true |};
                    {| name := "notes"; isDirectory := true |};
                    {| name := "README.md"; isDirectory := false |} ]
       else ListFails (Some "ENOENT") (JsError "ENOENT: no such file or directory");
     readFile := fun p =>
       if String.eqb p "./snapps/x/snap.json" then Reads (Json Scenario.manifest_x)
       else ReadFails (JsError "ENOENT: no such file or directory");
     access := fun p => String.eqb p "./snapps/x/snap.json" |}.

End DiscoverySpec.

(* ===================================================================== *)
(** ** The shapes the validators accept *)
(* ===================================================================== *)

Module ShapeSpec.
Import Regex.

(** The strings a regular expression denotes. *)
Inductive lang : regex -> string -> Prop :=
| lang_eps : lang Eps EmptyString
| lang_class p c : p c = true -> lang (Class p) (String c EmptyString)
| lang_seq r1 r2 s1 s2 : lang r1 s1 -> lang r2 s2 -> lang (Seq r1 r2) (s1 +:+ s2)
| lang_alt_l r1 r2 s : lang r1 s -> lang (Alt r1 r2) s
| lang_alt_r r1 r2 s : lang r2 s -> lang (Alt r1 r2) s
| lang_star_nil r : lang (Star r) EmptyString
| lang_star_cons r s1 s2 : lang r s1 -> lang (Star r) s2 -> lang (Star r) (s1 +:+ s2).

Fixpoint all_chars (p : ascii -> bool) (s : string) : bool :=
  match s with
  | EmptyString => true
  | String c rest => p c && all_chars p rest
  end.

(** A word over [p]: one character or more, each satisfying [p]. *)
Definition word (p : ascii -> bool) (s : string) : Prop :=
  s <> EmptyString /\ all_chars p s = true.

Definition lower_or_digit_char (c : ascii) : bool :=
  in_range 97 122 c || in_range 48 57 c.

Definition digit_char (c : ascii) : bool := in_range 48 57 c.

(** Each segment behind a hyphen. *)
Fixpoint hyphenated (segments : list string) : string :=
  match segments with
  | [] => EmptyString
  | segment :: rest => "-" +:+ segment +:+ hyphenated rest
  end.

(** Kebab case: words of lower-case letters and digits, joined by single
    hyphens. *)
Definition kebab (s : string) : Prop :=
  exists first rest,
    s = first +:+ hyphenated rest /\
    word lower_or_digit_char first /\ Forall (word lower_or_digit_char) rest.

(** A string that starts with three numbers separated by dots. *)
Definition starts_with_semver (s : string) : Prop :=
  exists major minor patch rest,
    s = major +:+ "." +:+ minor +:+ "." +:+ patch +:+ rest /\
    word digit_char major /\ word digit_char minor /\ word digit_char patch.

End ShapeSpec.

(* ===================================================================== *)
(** ** Hook router: registrations and one-shot handlers *)
(* ===================================================================== *)

Module HookRuns.
Import Hooks HookSpec.

Definition ids (hs : list HandlerEntry) : list nat := map id hs.

(** Ids name registrations: no two entries of the router share one, and
    every id in use has been handed out. *)
Definition unique (w : World) : Prop :=
  (forall event,
     NoDup (ids (handlers_of event w)) /\
     forall x, x ∈ handlers_of event w -> (id x <= handlerIdCounter (service w))%nat) /\
  (forall event1 event2 x y,
     event1 <> event2 ->
     x ∈ handlers_of event1 w -> y ∈ handlers_of event2 w -> id x <> id y).

(** The one-shot entries among a list of entries. *)
Definition one_shots (l : list HandlerEntry) : list HandlerEntry :=
  List.filter (fun e => negb (is_plain e)) l.

(** The registrations made with [once] whose handler has been called, a
    registration appearing as often as it was called. *)
Definition once_calls (w : World) : list nat :=
  ids (one_shots (map fst (calls w))).

(** A one-shot registration that has been called was called once and is
    registered no more. *)
Definition spent (w : World) : Prop :=
  NoDup (once_calls w) /\
  forall n, n ∈ once_calls w ->
    (n <= handlerIdCounter (service w))%nat /\
    forall event x, x ∈ handlers_of event w -> id x <> n.

(** Handlers that always return. *)
Definition calm (_ : string) (_ : Payload) : Outcome := Resolves.

End HookRuns.

(* ===================================================================== *)
(** ** Message bus: histories *)
(* ===================================================================== *)

Module BusRuns.
Import Bus BusSpec.

(** What the clients of the bus and the host's timers can do to it. *)
Inductive Command :=
| Subscribe (channel handler : string) (subscriber : option string)
| SubscribeOnce (channel handler : string) (subscriber : option string)
| Unsubscribe (channel : string) (r : nat)
| Publish (channel : string) (message : Message) (sender : option string)
| RegisterMethod (snappId method handler : string)
| UnregisterMethod (snappId : string) (r : nat) (method : string)
| Request (requestId targetSnapp method payload : string) (timeout : option Z)
| Fire (n : nat)
| Clear.

Definition exec (behaviour : string -> Message -> string -> CallResult)
    (c : Command) : M World unit :=
  match c with
  | Subscribe channel handler subscriber =>
      subscribe channel handler subscriber >> ret tt
  | SubscribeOnce channel handler subscriber =>
      subscribeOnce channel handler subscriber
  | Unsubscribe channel r => unsubscribe channel r
  | Publish channel message sender => publish behaviour channel message sender
  | RegisterMethod snappId method handler =>
      registerMethod snappId method handler >> ret tt
  | UnregisterMethod snappId r method => unregisterMethod snappId r method
  | Request requestId targetSnapp method payload timeout =>
      request behaviour requestId targetSnapp method payload timeout >> ret tt
  | Fire n => fire n
  | Clear => clear
  end.

Fixpoint exec_all (behaviour : string -> Message -> string -> CallResult)
    (cs : list Command) : M World unit :=
  match cs with
  | [] => ret tt
  | c :: rest => exec behaviour c >> exec_all behaviour rest
  end.

(** A promise that has not been fulfilled: it is pending, or the timer
    has rejected it. *)
Definition unanswered (s : Settlement) : Prop :=
  match s with
  | Pending => True
  | Rejected t => failure_kind t = Some RequestTimeout
  | Fulfilled _ => False
  end.

(** Object identities and timers in use were handed out before now, and
    every timer rejects a promise that exists. *)
Definition sound (w : World) : Prop :=
  (forall channel sub, sub ∈ subscriptions_of channel w -> (ref sub < allocated w)%nat) /\
  fresh_timers w /\
  Forall (fun t => (rejects t < length (promises w))%nat) (timers w).

(** The world [request] publishes in: the promise made, the timer set and
    the resolver stored. *)
Definition awaiting (requestId targetSnapp method : string) (timeout : option Z)
    (w : World) : World :=
  {| bus := {| channels := channels (bus w); methods := methods (bus w);
               requestResolvers :=
                 <[requestId := {| promise := length (promises w);
                                   Bus.timeout := timers_set w |}]>
                   (requestResolvers (bus w)) |};
     allocated := allocated w;
     promises := promises w ++ [Pending];
     timers := timers w ++
               [{| timer_id := timers_set w; delay := default 5000 timeout;
                   for_request := requestId; target := targetSnapp;
                   Bus.method := method; rejects := length (promises w) |}];
     timers_set := S (timers_set w);
     calls := calls w; console := console w |}.

(** The subscription [subscribe] builds. *)
Definition subscription (handler : string) (subscriber : option string) (r : nat) : Subscription :=
  {| handler := handler; subscriber := default "unknown" subscriber;
     once := false; ref := r |}.

(** What a command leaves of the host's tables when it is not a request,
    a timer or a clear. *)
Definition same_host (w w' : World) : Prop :=
  promises w' = promises w /\ timers w' = timers w /\ timers_set w' = timers_set w /\
  (allocated w <= allocated w')%nat.

End BusRuns.

(* ===================================================================== *)
(** ** State store: files and restarts *)
(* ===================================================================== *)

Module StateRuns.
Import State StateSpec.

#[global] Instance Path_eq_dec : EqDecision Path.
Proof. solve_decision. Defined.

(** [!s.includes(':')] *)
Fixpoint no_colon (s : string) : bool :=
  match s with
  | EmptyString => true
  | String c rest => negb (Ascii.eqb c ":") && no_colon rest
  end.

(** Every character of [s] is one [sanitizePath] keeps. *)
Fixpoint safe (s : string) : bool :=
  match s with
  | EmptyString => true
  | String c rest => is_safe_char c && safe rest
  end.

(** The process ends and a new store is constructed over the same files,
    with the same pair of functions: its memory is empty. *)
Definition restart (w : World) : World :=
  create (crypto (service w)) (disk w).

(** When an entry made by [persist] with these options counts as
    expired. *)
Definition lapsed (now : Z) (options : PersistOptions) (t : Z) : bool :=
  isExpired t (entry_of now (Str EmptyString) options).

(** The file [persistToDisk] writes for an entry: which extension, and
    what text. *)
Definition written_extension (c : option Crypto) (entry : StateEntry) : Extension :=
  match c with
  | Some _ => if encrypted entry then DotEnc else DotJson
  | None => DotJson
  end.

Definition written_text (c : option Crypto) (entry : StateEntry) : FileText :=
  match c with
  | Some fns => if encrypted entry then encrypt fns (Json entry) else Json entry
  | None => Json entry
  end.

(** The calls that change what a namespace holds. *)
Inductive Change :=
| Persisted (now : Z) (key : string) (v : JsValue) (options : PersistOptions)
| Removed (key : string) (namespace : option string)
| Cleared (namespace : option string).

Definition change (snappId : string) (c : Change) : M World unit :=
  match c with
  | Persisted now key v options => persist now snappId key v options
  | Removed key namespace => remove snappId key namespace
  | Cleared namespace => clear snappId namespace
  end.


Definition in_namespace (ns : string) : PersistOptions :=
  {| opt_encrypted := None; opt_ttl := None; opt_sync := None;
     opt_namespace := Some ns |}.


End StateRuns.

(* ===================================================================== *)
(** ** API facade: sessions *)
(* ===================================================================== *)

Module ApiRuns.
Import Api ApiSession.


(** What [executeCommand] makes of what the handler does. *)
Definition outcome (o : HandlerOutcome) : CommandResult :=
  match o with
  | Returns r => r
  | Throws t =>
      {| success := false;
         result_message := Some ("Command failed: " +:+ interpolate (message_property t)) |}
  end.

Definition not_found (name : string) : CommandResult :=
  {| success := false; result_message := Some ("Command not found: " +:+ name) |}.

(** What an app can do with its facade. *)
Inductive Step :=
| Gated (c : Call)
| Execute (commandLine : string)
| OnTabEvent (callback : string)
| OffTabEvent (callback : string)
| Dispose.

Section Session.

Variable now : Z.
Variable subscribers : string -> Bus.Message -> string -> Bus.CallResult.
Variable handlers : string -> CommandArgs -> HandlerOutcome.

(** One step of the app, which catches what the facade throws.  The
    value is the tab or panel id the step was handed, if any. *)
Definition step (s : Step) : M World (option string) :=
  match s with
  | Gated c =>
      try_catch
        (let* r := perform now subscribers c in
         ret (match r with AnId i => Some i | _ => None end))
        (fun _ => ret None)
  | Execute commandLine => executeCommand handlers commandLine >> ret None
  | OnTabEvent callback => onTabEvent callback >> ret None
  | OffTabEvent callback => offTabEvent callback >> ret None
  | Dispose => dispose >> ret None
  end.

(** The ids handed out over a run of steps, oldest first, and the world
    the run ends in. *)
Fixpoint issued (history : list Step) (w : World) : list string * World :=
  match history with
  | [] => ([], w)
  | s :: rest =>
      let r := step s w in
      let (ids, w') := issued rest (final r) in
      (match completion r with
       | Normal (Some i) => i :: ids
       | _ => ids
       end, w')
  end.

End Session.

Definition tab_key (snappId : string) (n : nat) : string :=
  "tab_" +:+ snappId +:+ "_" +:+ pretty n.

Definition panel_key (snappId : string) (n : nat) : string :=
  "panel_" +:+ snappId +:+ "_" +:+ pretty n.

(** The facade's own record after the delegate of a call: the calls
    into the services leave it as it is. *)
Definition facade_after (c : Call) (a : SnAppApiImpl) : SnAppApiImpl :=
  match c with
  | RegisterTab tab =>
      {| id := id a; manifest := manifest a; state := state a;
         permissions := permissions a; workingDirectory := workingDirectory a;
         tabs := <[tab_key (id a) (S (tabIdCounter a))
                   := <["id" := State.Str (tab_key (id a) (S (tabIdCounter a)))]> tab]>
                   (tabs a);
         panels := panels a; tabEventCallbacks := tabEventCallbacks a;
         tabIdCounter := S (tabIdCounter a); panelIdCounter := panelIdCounter a;
         commands := commands a |}
  | UnregisterTab tabId => set_tabs (delete tabId) a
  | UpdateTab tabId updates =>
      match tabs a !! tabId with
      | Some tab => set_tabs (insert tabId (updates ∪ tab)) a
      | None => a
      end
  | RegisterPanel panel =>
      {| id := id a; manifest := manifest a; state := state a;
         permissions := permissions a; workingDirectory := workingDirectory a;
         tabs := tabs a;
         panels := <[panel_key (id a) (S (panelIdCounter a))
                     := <["id" := State.Str (panel_key (id a) (S (panelIdCounter a)))]> panel]>
                     (panels a);
         tabEventCallbacks := tabEventCallbacks a;
         tabIdCounter := tabIdCounter a; panelIdCounter := S (panelIdCounter a);
         commands := commands a |}
  | UpdatePanel panelId updates =>
      match panels a !! panelId with
      | Some panel => set_panels (insert panelId (updates ∪ panel)) a
      | None => a
      end
  | TogglePanel panelId expanded =>
      match panels a !! panelId with
      | Some panel =>
          set_panels (insert panelId
            (<["expanded" := State.Bool
                 (default (negb (value_truthy (panel !! "expanded"))) expanded)]> panel)) a
      | None => a
      end
  | RegisterCommand command =>
      set_commands (insert (id a +:+ ":" +:+ command_name command) command) a
  | UnregisterCommand name =>
      set_commands
        (delete (if includes_colon name then name else id a +:+ ":" +:+ name)) a
  | _ => a
  end.

(** The id a call is handed, if any. *)
Definition id_issued (c : Call) (a : SnAppApiImpl) : option string :=
  match c with
  | RegisterTab _ => Some (tab_key (id a) (S (tabIdCounter a)))
  | RegisterPanel _ => Some (panel_key (id a) (S (panelIdCounter a)))
  | _ => None
  end.

(** The facade's own record after [dispose]. *)
Definition disposed (a : SnAppApiImpl) : SnAppApiImpl :=
  {| id := id a; manifest := manifest a; state := state a;
     permissions := permissions a; workingDirectory := workingDirectory a;
     tabs := ∅; panels := ∅; tabEventCallbacks := [];
     tabIdCounter := tabIdCounter a; panelIdCounter := panelIdCounter a;
     commands := ∅ |}.

(** The facade's own record after a step. *)
Definition facade_after_step (s : Step) (a : SnAppApiImpl) : SnAppApiImpl :=
  match s with
  | Gated c => if hasPermission (ApiSpec.required c) a then facade_after c a else a
  | Execute _ => a
  | OnTabEvent callback =>
      set_callbacks (fun cbs =>
        if existsb (String.eqb callback) cbs then cbs else cbs ++ [callback]) a
  | OffTabEvent callback =>
      set_callbacks (List.filter (fun cb => negb (String.eqb cb callback))) a
  | Dispose => disposed a
  end.

Definition id_issued_by (s : Step) (a : SnAppApiImpl) : option string :=
  match s with
  | Gated c => if hasPermission (ApiSpec.required c) a then id_issued c a else None
  | _ => None
  end.

(** An id the facade has not handed out yet: its number is above the
    counter. *)
Definition unissued (w : World) (i : string) : Prop :=
  (exists n, i = tab_key (id (api w)) n /\ (tabIdCounter (api w) < n)%nat) \/
  (exists n, i = panel_key (id (api w)) n /\ (panelIdCounter (api w) < n)%nat).

(** A facade with every permission the scenarios use. *)
Definition full_access : World :=
  create "x" Scenario.manifest_x Registered
    ["storage:read"; "storage:write"; "ui:tab"; "ui:panel"; "command:register";
     "session:hook"; "bus:subscribe"]
    (State.create None ∅) Hooks.initial Bus.initial "/work".


(** A handler that answers with the number of its arguments. *)
Definition counting (_ : string) (args : CommandArgs) : HandlerOutcome :=
  Returns {| success := true;
             result_message := Some (pretty (length (positional args))) |}.


End ApiRuns.

(* ===================================================================== *)
(** * Properties *)
(* ===================================================================== *)

(* ===================================================================== *)
(** ** Lifecycle driver *)
(* ===================================================================== *)

Module LifecycleFacts.
Import Lifecycle Scenario LifecycleSpec.

Create HintDb lifecycle.
#[local] Hint Constructors table : lifecycle.

Lemma canTransition_table from to :
  canTransition from to = true <-> from = to \/ table from to.
Proof.
  split.
  - destruct from, to; cbn; intros H; try discriminate H;
      auto with lifecycle.
  - intros [-> | H].
    + unfold canTransition. rewrite bool_decide_eq_true_2; reflexivity.
    + destruct H; reflexivity.
Qed.

Ltac case_outcome o := destruct o as [[|?]|].

(** Case analysis on the operation, the state of the app and the outcome of
    the callbacks that this operation awaits. *)
Ltac case_operation op a :=
  let m := fresh "m" in let s := fresh "s" in let i := fresh "i" in
  let e := fresh "e" in let r := fresh "r" in let t := fresh "t" in
  let oa := fresh "oa" in let os := fresh "os" in let od := fresh "od" in
  destruct a as [m s i e r t];
  destruct op as [loader | [[oa os od]|?] | | ];
  [ case_outcome loader
  | case_outcome oa
  |
  | destruct i as [[oa os od]|]; [case_outcome os|]
  | destruct i as [[oa os od]|]; [case_outcome od|] ];
  destruct s.

(** Evaluate the run of the driver that the goal mentions. *)
Ltac run_driver :=
  match goal with
  | |- context [drive ?c ?op ?w] =>
      let r := fresh "r" in
      set (r := drive c op w); vm_compute in (value of r); subst r; cbn
  end.

(** C1.  Whatever operation the driver runs on whatever app, each value it
    writes to the state field is one step of the transition table away from
    the value it replaces, and the field ends at the last value written.
    The transitions [canTransition] admits are exactly the table's plus the
    no-op [x -> x]; a no-op transition changes nothing; a transition the
    table does not admit throws [LifecycleError from to] and changes
    nothing, also when it is the first transition of an operation whose
    precondition holds. *)
Theorem state_changes_follow_table (clock : nat -> Z) (op : Operation)
    (a : SnApp) (n : nat) (to : SnAppState) :
  let w' := final (drive clock op (start a n)) in
  along_table (state a) (written w') /\
  state (snapp w') = List.last (written w') (state a) /\
  (canTransition (state a) to = true <-> state a = to \/ table (state a) to) /\
  transition clock (state a) (start a n) = (Normal tt, start a n) /\
  (canTransition (state a) to = false ->
   transition clock to (start a n)
   = (Abrupt (LifecycleError (state a) to), start a n)) /\
  (precondition op (state a) = true ->
   canTransition (state a) (intermediate op) = false ->
   drive clock op (start a n)
   = (Abrupt (LifecycleError (state a) (intermediate op)), start a n)).
Proof.
  split; [|split; [|split; [|split; [|split]]]].
  - case_operation op a; cbn; repeat split; auto with lifecycle.
  - case_operation op a; reflexivity.
  - apply canTransition_table.
  - unfold transition, bind, gets. cbn.
    rewrite bool_decide_eq_true_2; reflexivity.
  - intros H. unfold transition, bind, gets. cbn.
    destruct (bool_decide (state a = to)) eqn:E.
    + apply bool_decide_eq_true_1 in E. subst to.
      unfold canTransition in H.
      rewrite bool_decide_eq_true_2 in H; [discriminate | reflexivity].
    + rewrite H. reflexivity.
  - intros Hpre Hcan.
    case_operation op a; cbn in Hpre, Hcan; try discriminate; reflexivity.
Qed.

Lemma state_changes_follow_table_witness :
  canTransition Registered Active = false /\
  transition ticking Active (start (app_x Registered) 0)
  = (Abrupt (LifecycleError Registered Active), start (app_x Registered) 0).
Proof.
  split; [reflexivity|].
  destruct (state_changes_follow_table ticking Suspend (app_x Registered) 0 Active)
    as (_ & _ & _ & _ & H & _).
  apply H. reflexivity.
Defined.

(** C3 as stated fails: [suspend] on an app that is not active, and [unload]
    on a registered app, return [false]; they do not raise. *)
Lemma suspend_unload_return_false :
  precondition Suspend (state (app_x Registered)) = false /\
  raises (completion (drive ticking Suspend (start (app_x Registered) 0))) = false /\
  precondition Unload (state (app_x Registered)) = false /\
  raises (completion (drive ticking Unload (start (app_x Registered) 0))) = false.
Proof. repeat split. Qed.

(** C3, amended.  When the precondition of an operation is violated the app
    record is left exactly as it was (no write to the state field, no clock
    reading); [load] and [activate] raise an error naming the app and its
    state, [suspend] and [unload] return [false] without raising. *)
Theorem violated_precondition_leaves_state (clock : nat -> Z) (op : Operation)
    (a : SnApp) (n : nat) :
  precondition op (state a) = false ->
  let r := drive clock op (start a n) in
  final r = start a n /\
  state (snapp (final r)) = state a /\
  completion r =
    match op with
    | Load _ =>
        Abrupt (JsError ("Cannot load SnApp " +:+ dquote +:+
                         interpolate (Manifest.id (manifest a)) +:+ dquote +:+
                         " in state: " +:+ show_state (state a)))
    | Activate _ =>
        Abrupt (JsError ("Cannot activate SnApp " +:+ dquote +:+
                         interpolate (Manifest.id (manifest a)) +:+ dquote +:+
                         " in state: " +:+ show_state (state a)))
    | Suspend | Unload => Normal (Some false)
    end.
Proof.
  intros H.
  case_operation op a; cbn in H; try discriminate H; repeat split.
Qed.

Lemma violated_precondition_leaves_state_witness :
  final (drive ticking (Load None) (start (app_x Active) 0)) = start (app_x Active) 0 /\
  completion (drive ticking (Load None) (start (app_x Active) 0))
  = Abrupt (JsError ("Cannot load SnApp " +:+ dquote +:+ "x" +:+ dquote +:+
                    " in state: active")).
Proof.
  destruct (violated_precondition_leaves_state ticking (Load None) (app_x Active) 0)
    as (H1 & _ & H2); [reflexivity|].
  split; [exact H1 | exact H2].
Defined.

(** C4 as stated fails: a load whose two transitions read the clock within
    the millisecond of the previous stamp ends in [loaded] with
    [stateChangedAt] equal to what it was, not strictly later. *)
Lemma stamp_not_strictly_later :
  let a := app_x Registered in
  let a' := snapp (final (drive frozen (Load (Some Resolves)) (start a 0))) in
  precondition (Load (Some Resolves)) (state a) = true /\
  canTransition (state a) Loading = true /\
  state a' = Loaded /\
  ~ (stateChangedAt a < stateChangedAt a').
Proof.
  repeat split; try reflexivity.
  vm_compute. intros H. discriminate H.
Qed.

(** C4, amended.  When the precondition of an operation holds and the table
    admits its first transition, the operation ends with the app in its
    target state ([error] when an awaited callback throws, and then the
    thrown value is re-raised); [stateChangedAt] holds the clock reading of
    the last transition that changed the state, so it is strictly later than
    the previous stamp as soon as the clock has moved past that stamp.  Only
    an [unload] that starts in [unloading] and fails takes no reading. *)
Theorem operation_reaches_target (clock : nat -> Z) (op : Operation)
    (a : SnApp) (n : nat) :
  precondition op (state a) = true ->
  canTransition (state a) (intermediate op) = true ->
  let r := drive clock op (start a n) in
  let a' := snapp (final r) in
  state a' = match failure op a with None => target op | Some _ => Error end /\
  (forall t, failure op a = Some t -> completion r = Abrupt t) /\
  (failure op a = None -> raises (completion r) = false) /\
  ((n < reads (final r))%nat \/
   (op = Unload /\ state a = Unloading /\ failure op a <> None /\
    stateChangedAt a' = stateChangedAt a)) /\
  ((n < reads (final r))%nat ->
   stateChangedAt a' = clock (Nat.pred (reads (final r))) /\
   ((forall k, (n <= k)%nat -> stateChangedAt a < clock k) ->
    stateChangedAt a < stateChangedAt a')).
Proof.
  intros Hpre Hcan.
  case_operation op a; cbn in Hpre, Hcan; try discriminate; run_driver.
  all: (split; [reflexivity|]).
  all: (split; [intros ? [=]; subst; reflexivity|]).
  all: (split; [try (intros [=]; fail); intros _; reflexivity|]).
  all: (split; [first [left; lia | right; repeat split; discriminate]|]).
  all: intros Hlt; try lia.
  all: (split; [reflexivity|]); intros Hc; apply Hc; lia.
Qed.

Lemma operation_reaches_target_witness :
  let a' := snapp (final (drive ticking (Load None) (start (app_x Registered) 0))) in
  state a' = Loaded /\ 1000 < stateChangedAt a'.
Proof.
  destruct (operation_reaches_target ticking (Load None) (app_x Registered) 0)
    as (H1 & _ & _ & _ & H2); [reflexivity | reflexivity |].
  split; [exact H1|].
  apply H2; [vm_compute; lia|].
  intros k _. unfold ticking. cbn. lia.
Defined.

End LifecycleFacts.

(* ===================================================================== *)
(** ** Registry *)
(* ===================================================================== *)

Module RegistryFacts.
Import Regex Registry RegistrySpec.

Example kebab_accepts : 
  map (matches kebab_case) ["my-snapp"; "snapp123"; "my-cool-snapp"; "a"; "1-2"]
  = [true; true; true; true; true].
Proof. reflexivity. Qed.

Example kebab_rejects :
  map (matches kebab_case) ["myApp"; "my_app"; "a--b"; "-a"; "a-"; EmptyString; "a b"]
  = [false; false; false; false; false; false; false].
Proof. reflexivity. Qed.

Example semver_examples :
  map (matches_prefix semver_start) ["1.0.0"; "0.1.0-beta.1"; "10.20.30+build"; "1.0"; "v1.0.0"; "1..0"; EmptyString]
  = [true; true; true; false; false; false; false].
Proof. reflexivity. Qed.

Lemma warn_unknown_run id perms w :
  warn_unknown id perms w
  = (Normal tt, {| registry := registry w;
                   console := console w ++ unknown_warnings id perms |}).
Proof.
  revert w. induction perms as [|perm rest IH]; intros w;
    cbn [warn_unknown unknown_warnings].
  - rewrite app_nil_r. destruct w; reflexivity.
  - unfold bind, when. destruct (is_valid_permission perm); cbn [negb].
    + unfold ret. rewrite IH. reflexivity.
    + unfold warn, modify. rewrite IH. cbn. rewrite <- app_assoc. reflexivity.
Qed.

Lemma validateManifest_run m w :
  let r := validateManifest m w in
  raises (completion r) = violates m /\
  registry (final r) = registry w /\
  (violates m = false ->
   r = (Normal tt,
        {| registry := registry w;
           console := console w ++ long_shortName_warning m ++
                      unknown_warnings (Manifest.id m) (elements (Manifest.permissions m)) |})).
Proof.
  unfold validateManifest, violates, missing, long_shortName_warning.
  destruct m as [id name short ver entry perms oc]; cbn.
  unfold bind, when.
  destruct (truthy id); cbn; [|repeat split; discriminate].
  destruct (truthy name); cbn; [|repeat split; discriminate].
  destruct (truthy entry); cbn; [|repeat split; discriminate].
  destruct (permissions_truthy perms) eqn:Hp; cbn; [|repeat split; discriminate].
  destruct oc as [[mv]|]; cbn; [|repeat split; discriminate].
  destruct (matches kebab_case (interpolate id)); cbn;
    [|rewrite ?orb_true_r; repeat split; discriminate].
  destruct (truthy ver && negb (matches_prefix semver_start (interpolate ver))); cbn;
    [rewrite ?orb_true_r; repeat split; discriminate|].
  rewrite ?orb_false_r.
  destruct (truthy short && (5 <? js_length (interpolate short))); cbn;
    (destruct perms as [[ps|s]|]; cbn; [|rewrite ?orb_true_r; repeat split; discriminate | discriminate Hp]);
    rewrite warn_unknown_run; cbn;
    (destruct (truthy mv); cbn; [|repeat split; discriminate]);
    repeat split; intros _; rewrite ?app_nil_r, <- ?app_assoc; reflexivity.
Qed.

(** C6 as stated fails in both directions: a manifest whose [name] is the
    empty string has every required field and breaks none of the stated
    rules, yet is rejected; a manifest whose [version] is the empty string
    has a version that does not start with digits, yet is accepted. *)
Lemma empty_strings_are_falsy :
  let m1 := with_name (Some EmptyString) Scenario.manifest_x in
  let m2 := with_version (Some EmptyString) Scenario.manifest_x in
  (~ stated_violation m1 /\
   has (registry empty) (Manifest.id m1) = false /\
   completion (register 1000 m1 empty)
   = Abrupt (JsError "Missing required field: name")) /\
  (stated_violation m2 /\
   raises (completion (register 1000 m2 empty)) = false).
Proof.
  cbn zeta. split; split.
  - unfold stated_violation; cbn.
    intros [H|[H|[H|[H|[H|[(o & H & H')|[(s & H & H')|[(v & H & _)|(s & H)]]]]]]]];
      try discriminate H.
    + injection H as <-. discriminate H'.
    + injection H as <-. vm_compute in H'. discriminate H'.
  - split; reflexivity.
  - unfold stated_violation.
    do 7 right. left. exists EmptyString. split; reflexivity.
  - reflexivity.
Qed.

Lemma violates_redecorated short perms m :
  violates (redecorated short perms m) = violates m.
Proof.
  destruct m as [id name sh ver entry [[ps|s]|] oc]; reflexivity.
Qed.

(** C6, amended.  [register] raises exactly when the id is already
    catalogued or a required-field rule is violated, a field counting as
    missing when it is absent or empty and a version being checked only when
    it is not empty.  Neither the short name nor the elements of the
    permissions array bear on that; they only add lines to the console.  A
    rejected manifest leaves the catalogue as it was; an accepted one is
    inserted under its id in state [registered] with both dates equal to
    [now]. *)
Theorem register_rejects_iff (now : Z) (m : SnAppManifest) (w : World) :
  let r := register now m w in
  let snapp := {| manifest := m; state := Registered;
                  instance := None; error := None;
                  registeredAt := now; stateChangedAt := now |} in
  raises (completion r) = has (registry w) (Manifest.id m) || violates m /\
  (forall short perms,
     raises (completion (register now (redecorated short perms m) w))
     = raises (completion r)) /\
  (has (registry w) (Manifest.id m) = true ->
   r = (Abrupt (JsError ("SnApp " +:+ dquote +:+ interpolate (Manifest.id m) +:+
                         dquote +:+ " is already registered")), w)) /\
  (raises (completion r) = true -> registry (final r) = registry w) /\
  (raises (completion r) = false ->
   r = (Normal snapp,
        {| registry := {| snapps := <[Manifest.id m := snapp]> (snapps (registry w)) |};
           console := console w ++ long_shortName_warning m ++
                      unknown_warnings (Manifest.id m)
                        (elements (Manifest.permissions m)) |})).
Proof.
  assert (Hraises : forall m',
    raises (completion (register now m' w))
    = has (registry w) (Manifest.id m') || violates m').
  { intros m'. unfold register, bind, gets.
    destruct (has (registry w) (Manifest.id m')); [reflexivity|]. cbn [orb].
    destruct (validateManifest_run m' w) as (Hv & _ & _).
    destruct (validateManifest m' w) as [[[]|t] w1]; cbn in *; exact Hv. }
  cbn zeta. split; [apply Hraises|]. split; [|split; [|split]].
  - intros short perms. rewrite !Hraises, violates_redecorated.
    destruct m as [id name sh ver entry [[ps|s]|] oc]; reflexivity.
  - intros Hhas. unfold register, bind, gets. rewrite Hhas. reflexivity.
  - unfold register, bind, gets.
    destruct (has (registry w) (Manifest.id m)); [reflexivity|].
    destruct (validateManifest_run m w) as (_ & Hreg & _).
    destruct (validateManifest m w) as [[[]|t] w1]; cbn in *;
      [discriminate | intros _; exact Hreg].
  - rewrite Hraises. intros Hno.
    apply orb_false_iff in Hno as [Hhas Hviol].
    unfold register, bind, gets. rewrite Hhas.
    destruct (validateManifest_run m w) as (_ & _ & Hrun).
    rewrite (Hrun Hviol). reflexivity.
Qed.

(** Scenario 1, first step: registering the manifest of app [x]. *)
Example register_x :
  let r := register 1000 Scenario.manifest_x empty in
  completion r = Normal (Scenario.app_x Registered) /\
  get (registry (final r)) "x" = Some (Scenario.app_x Registered) /\
  raises (completion (register 2000 Scenario.manifest_x (final r))) = true.
Proof. repeat split. Qed.

End RegistryFacts.

(* ===================================================================== *)
(** ** Hook router *)
(* ===================================================================== *)

Module HookFacts.
Import Hooks HookSpec.

Example sort_132 :
  map priority (sort [entry_with 1 1; entry_with 3 2; entry_with 2 3; entry_with 3 4; entry_with 1 5])
  = [3; 3; 2; 1; 1] /\
  map id (sort [entry_with 1 1; entry_with 3 2; entry_with 2 3; entry_with 3 4; entry_with 1 5])
  = [2; 4; 3; 1; 5]%nat.
Proof. split; reflexivity. Qed.

Lemma handlers_of_set event hs w :
  handlers_of event (set_handlers event hs w) = hs.
Proof. unfold handlers_of, set_handlers; cbn. by rewrite lookup_insert_eq. Qed.

Lemma world_eq (w1 w2 : World) :
  handlers (service w1) = handlers (service w2) ->
  handlerIdCounter (service w1) = handlerIdCounter (service w2) ->
  calls w1 = calls w2 -> console w1 = console w2 -> w1 = w2.
Proof.
  destruct w1 as [[h1 c1] k1 e1], w2 as [[h2 c2] k2 e2]; cbn.
  intros -> -> -> ->. reflexivity.
Qed.

Lemma after_emit_stop behaviour event payload fuel i w :
  visited fuel i (handlers_of event w) payload = ([], handlers_of event w) ->
  after_emit behaviour event payload fuel i w = w.
Proof.
  intros Hv. unfold after_emit. rewrite Hv.
  apply world_eq; cbn; rewrite ?app_nil_r; try reflexivity.
  unfold handlers_of. destruct (handlers (service w) !! event) eqn:E; cbn; [|reflexivity].
  by rewrite insert_id.
Qed.

Lemma call_run behaviour event payload e w :
  is_Some (handlers (service w) !! event) ->
  try_catch (call behaviour event e payload) (console_error event) w
  = (Normal tt, after_call behaviour event payload e w).
Proof.
  intros [hs Hev].
  assert (Hof : handlers_of event w = hs) by (unfold handlers_of; by rewrite Hev).
  unfold try_catch, call, after_call, bind, unsubscribe, record_call, modify, settle.
  cbn [errors]. rewrite Hof.
  destruct (handler e) as [fn|fn]; cbn [fn_of];
    destruct (behaviour fn payload) as [|t]; cbn beta; rewrite ?Hev; cbn;
    f_equal; apply world_eq; cbn; rewrite ?app_nil_r; reflexivity.
Qed.

Lemma emit_from_run behaviour event payload fuel :
  forall i w,
    emit_from behaviour fuel i event payload w
    = (Normal tt, after_emit behaviour event payload fuel i w).
Proof.
  induction fuel as [|fuel IH]; intros i w.
  - cbn [emit_from]. unfold ret. by rewrite after_emit_stop.
  - cbn [emit_from]. unfold bind at 1. unfold gets at 1.
    destruct (handlers_of event w !! i) as [e|] eqn:Hi.
    2:{ unfold ret. rewrite after_emit_stop; [reflexivity|]. cbn. by rewrite Hi. }
    assert (Hsome : exists hs, handlers (service w) !! event = Some hs /\ handlers_of event w = hs).
    { unfold handlers_of in *. destruct (handlers (service w) !! event) as [hs|]; [eauto|].
      cbn in Hi. discriminate Hi. }
    destruct Hsome as (hs & Hev & Hof).
    unfold bind.
    destruct (filter e payload) eqn:Hf; cbn [negb].
    2:{ unfold ret. rewrite IH. f_equal. unfold after_emit. cbn [visited].
        rewrite Hi, Hf. reflexivity. }
    rewrite call_run by eauto. rewrite IH. f_equal.
    unfold after_emit. cbn [visited]. rewrite Hi, Hf. cbn [negb].
    unfold after_call. rewrite Hof, Hev.
    destruct (handler e) as [fn|fn] eqn:Hh.
    + change (handlers_of event _) with (handlers_of event w). rewrite Hof.
      cbn [service calls console handlers handlerIdCounter]. rewrite Hev.
      destruct (visited fuel (S i) hs payload) as [called left].
      cbn [fst snd errors map fn_of]. rewrite Hh. cbn [fn_of].
      apply world_eq; cbn [service calls console handlers handlerIdCounter];
        rewrite <- ?app_assoc; try reflexivity.
      destruct (behaviour fn payload); reflexivity.
    + match goal with |- context [visited fuel (S i) (handlers_of event ?w') payload] =>
        replace (handlers_of event w') with (remove_id (id e) hs)
          by (unfold handlers_of; cbn; by rewrite lookup_insert_eq) end.
      cbn [service calls console handlers handlerIdCounter set_handlers].
      rewrite lookup_insert_eq.
      destruct (visited fuel (S i) (remove_id (id e) hs) payload) as [called left].
      cbn [fst snd errors map fn_of]. rewrite Hh. cbn [fn_of].
      apply world_eq; cbn [service calls console handlers handlerIdCounter];
        rewrite <- ?app_assoc, ?insert_insert_eq; try reflexivity.
      destruct (behaviour fn payload); reflexivity.
Qed.

Lemma ordered_sublist (k l : list HandlerEntry) :
  sublist k l -> ordered l -> ordered k.
Proof.
  unfold ordered. induction 1 as [|x k l Hs IH|x k l Hs IH]; intros Hl.
  - constructor.
  - apply StronglySorted_inv in Hl as [Hl Hx]. constructor; [auto|].
    rewrite Forall_forall in *. intros y Hy. apply Hx.
    eapply elem_of_sublist; eauto.
  - apply StronglySorted_inv in Hl as [Hl _]. auto.
Qed.

Lemma remove_id_sublist n l : sublist (remove_id n l) l.
Proof.
  induction l as [|x l IH]; cbn; [constructor|].
  destruct (Nat.eqb (id x) n); [by apply sublist_cons | by apply sublist_skip].
Qed.

Lemma drop_succ_sublist (l : list HandlerEntry) :
  forall i, sublist (drop (S i) l) (drop i l).
Proof.
  induction l as [|y l IH]; intros [|i]; cbn; try constructor.
  - reflexivity.
  - apply IH.
Qed.

Lemma drop_remove_id_sublist n l :
  forall i, sublist (drop i (remove_id n l)) (drop i l).
Proof.
  induction l as [|x l IH]; intros i; cbn [remove_id].
  - reflexivity.
  - destruct (Nat.eqb (id x) n).
    + destruct i as [|i]; cbn; [by apply sublist_cons | apply drop_succ_sublist].
    + destruct i as [|i]; cbn; [apply sublist_skip, remove_id_sublist | apply IH].
Qed.

Lemma insert_members e l x :
  x ∈ insert_by_priority e l <-> x = e \/ x ∈ l.
Proof.
  induction l as [|y l IH]; cbn.
  - rewrite list_elem_of_singleton, elem_of_nil. tauto.
  - destruct (comparator y e <? 0); rewrite !elem_of_cons, ?IH; tauto.
Qed.

Lemma insert_ordered e l :
  ordered l ->
  (forall x, x ∈ l -> priority e < priority x \/ before e x) ->
  ordered (insert_by_priority e l).
Proof.
  unfold ordered. induction l as [|y l IH]; intros Hl Hall; cbn.
  - repeat constructor.
  - apply StronglySorted_inv in Hl as [Hl Hy].
    unfold comparator. destruct (priority e - priority y <? 0) eqn:E.
    + apply Z.ltb_lt in E. constructor.
      * apply IH; [done|]. intros x Hx. apply Hall. by right.
      * rewrite Forall_forall in *. intros x Hx.
        apply insert_members in Hx as [->|Hx]; [left; lia | auto].
    + apply Z.ltb_ge in E. constructor; [by constructor|].
      rewrite Forall_forall in *. intros x Hx.
      assert (Hyx : x = y \/ x ∈ l) by (by apply elem_of_cons).
      destruct (Hall x Hx) as [Hlt|Hb]; [|done].
      destruct Hyx as [->|Hxl]; [lia|].
      specialize (Hy x Hxl). destruct Hy as [Hy|[Hy _]]; lia.
Qed.

Lemma sort_append_members l e x :
  x ∈ foldr insert_by_priority [e] l <-> x = e \/ x ∈ l.
Proof.
  induction l as [|y l IH]; cbn.
  - rewrite list_elem_of_singleton, elem_of_nil. tauto.
  - rewrite insert_members, IH, elem_of_cons. tauto.
Qed.

(** Re-sorting after a push keeps the array in order when the pushed entry
    carries a fresh, larger id. *)
Lemma sort_push_ordered l e :
  ordered l ->
  (forall x, x ∈ l -> (id x < id e)%nat) ->
  ordered (sort (l ++ [e])).
Proof.
  unfold sort. rewrite foldr_app. cbn [foldr].
  induction l as [|y l IH]; intros Hl Hid; cbn.
  - repeat constructor.
  - apply StronglySorted_inv in Hl as [Hl Hy]. apply insert_ordered.
    + apply IH; [done|]. intros x Hx. apply Hid. by right.
    + intros x Hx. apply sort_append_members in Hx as [->|Hx].
      * assert (id y < id e)%nat by (apply Hid; by left).
        unfold before.
        destruct (Z.lt_trichotomy (priority y) (priority e)) as [?|[?|?]];
          [left; lia | right; right; split; [done|lia] | right; left; lia].
      * right. rewrite Forall_forall in Hy. auto.
Qed.

Lemma sort_push_members l e x :
  x ∈ sort (l ++ [e]) <-> x = e \/ x ∈ l.
Proof. unfold sort. rewrite foldr_app. apply sort_append_members. Qed.

(** The entries [emit] calls form, in the order called, a sub-sequence of
    the array from index [i] on, and the array it leaves is a sub-sequence
    of the array it found. *)
Lemma visited_sublist payload fuel :
  forall i hs,
    sublist (fst (visited fuel i hs payload)) (drop i hs) /\
    sublist (snd (visited fuel i hs payload)) hs.
Proof.
  induction fuel as [|fuel IH]; intros i hs; cbn [visited].
  - split; [apply sublist_nil_l | reflexivity].
  - destruct (hs !! i) as [e|] eqn:Hi; [|split; [apply sublist_nil_l | reflexivity]].
    destruct (filter e payload); cbn [negb].
    + set (hs' := match handler e with
                  | Plain _ => hs
                  | OnceWrapper _ => remove_id (id e) hs
                  end).
      destruct (IH (S i) hs') as [IH1 IH2].
      destruct (visited fuel (S i) hs' payload) as [called left]. cbn [fst snd] in *.
      assert (Hdrop : sublist (drop (S i) hs') (drop (S i) hs)).
      { subst hs'. destruct (handler e); [reflexivity | apply drop_remove_id_sublist]. }
      assert (Hall : sublist hs' hs).
      { subst hs'. destruct (handler e); [reflexivity | apply remove_id_sublist]. }
      split.
      * rewrite (drop_S _ _ _ Hi). apply sublist_skip. by etrans.
      * by etrans.
    + destruct (IH (S i) hs) as [IH1 IH2]. split; [|done].
      rewrite (drop_S _ _ _ Hi). by apply sublist_cons.
Qed.

Lemma remove_id_length n (l : list HandlerEntry) :
  (length (remove_id n l) <= length l)%nat.
Proof. apply sublist_length, remove_id_sublist. Qed.

(** More fuel than the length of the array changes nothing: the loop ends
    because the index has run past the array. *)
Lemma visited_fuel payload extra fuel :
  forall i hs,
    (length hs <= fuel + i)%nat ->
    visited (fuel + extra) i hs payload = visited fuel i hs payload.
Proof.
  induction fuel as [|fuel IH]; intros i hs Hlen.
  - assert (Hi : hs !! i = None) by (apply lookup_ge_None; lia).
    destruct extra; cbn [Nat.add visited]; by rewrite ?Hi.
  - cbn [Nat.add visited]. destruct (hs !! i) as [e|] eqn:Hi; [|done].
    destruct (filter e payload); cbn [negb].
    + rewrite IH; [done|].
      destruct (handler e); [lia|].
      pose proof (remove_id_length (id e) hs). lia.
    + rewrite IH; [done | lia].
Qed.

Lemma emit_fuel_is_enough behaviour event payload extra w :
  emit_from behaviour (length (handlers_of event w) + extra) 0 event payload w
  = emit behaviour event payload w.
Proof.
  unfold emit, bind, gets. rewrite !emit_from_run. f_equal.
  unfold after_emit. rewrite visited_fuel by lia. reflexivity.
Qed.

Lemma ordered_lookup (l : list HandlerEntry) :
  ordered l ->
  forall i j a b, l !! i = Some a -> l !! j = Some b -> (i < j)%nat -> before a b.
Proof.
  unfold ordered. induction 1 as [|x l Hl IH Hx]; intros i j a b Hi Hj Hij.
  - rewrite lookup_nil in Hi. discriminate Hi.
  - destruct j as [|j]; [lia|]. cbn in Hj.
    destruct i as [|i]; cbn in Hi.
    + injection Hi as <-. rewrite Forall_forall in Hx. apply Hx.
      eapply list_elem_of_lookup_2; eauto.
    + eapply IH; eauto. lia.
Qed.

(** In an ordered list a higher priority stands first, and among equal
    priorities the earlier registration does. *)
Lemma ordered_positions (l : list HandlerEntry) i j a b :
  ordered l -> l !! i = Some a -> l !! j = Some b ->
  (priority b < priority a -> (i < j)%nat) /\
  (priority a = priority b -> (id a < id b)%nat -> (i < j)%nat).
Proof.
  intros Hl Hi Hj.
  destruct (Nat.lt_trichotomy i j) as [Hlt|[->|Hgt]].
  - split; intros; exact Hlt.
  - rewrite Hi in Hj. injection Hj as <-. split; intros; lia.
  - pose proof (ordered_lookup l Hl j i b a Hj Hi Hgt) as [H|[H1 H2]];
      split; intros; lia.
Qed.

Lemma tidy_initial : tidy initial.
Proof. intros event hs H. cbn in H. rewrite lookup_empty in H. discriminate H. Qed.

Lemma tidy_handlers_of event w :
  tidy w ->
  ordered (handlers_of event w) /\
  forall x, x ∈ handlers_of event w -> (id x <= handlerIdCounter (service w))%nat.
Proof.
  intros Hw. unfold handlers_of.
  destruct (handlers (service w) !! event) as [hs|] eqn:E; cbn.
  - by apply Hw in E.
  - split; [constructor|]. intros x Hx. by apply elem_of_nil in Hx.
Qed.

Lemma tidy_on event h options w :
  tidy w -> tidy (final (on event h options w)).
Proof.
  intros Hw event' hs. cbn.
  destruct (tidy_handlers_of event w Hw) as [Hord Hids].
  destruct (decide (event = event')) as [<-|Hne].
  - rewrite lookup_insert_eq. intros [= <-]. split.
    + apply sort_push_ordered; [done|]. intros x Hx. cbn. apply Hids in Hx. lia.
    + intros x Hx. apply sort_push_members in Hx as [->|Hx]; cbn; [lia|].
      apply Hids in Hx. lia.
  - rewrite lookup_insert_ne by done. intros Hev.
    destruct (Hw _ _ Hev) as [Ho Hi]. split; [done|].
    intros x Hx. apply Hi in Hx. lia.
Qed.

Lemma tidy_replace event hs hs' w :
  tidy w ->
  handlers (service w) !! event = Some hs ->
  sublist hs' hs ->
  forall event' l,
    <[event := hs']> (handlers (service w)) !! event' = Some l ->
    ordered l /\ forall x, x ∈ l -> (id x <= handlerIdCounter (service w))%nat.
Proof.
  intros Hw Hev Hsub event' l.
  destruct (decide (event = event')) as [<-|Hne].
  - rewrite lookup_insert_eq. intros [= <-].
    destruct (Hw _ _ Hev) as [Ho Hi]. split.
    + eapply ordered_sublist; eauto.
    + intros x Hx. apply Hi. eapply elem_of_sublist; eauto.
  - rewrite lookup_insert_ne by done. apply Hw.
Qed.

Lemma tidy_unsubscribe event n w :
  tidy w -> tidy (final (unsubscribe event n w)).
Proof.
  intros Hw. unfold unsubscribe, modify, final. cbn [snd].
  destruct (handlers (service w) !! event) as [hs|] eqn:E; [|done].
  intros event' l. cbn. eapply tidy_replace; eauto. apply remove_id_sublist.
Qed.

Lemma tidy_emit behaviour event payload w :
  tidy w -> tidy (final (emit behaviour event payload w)).
Proof.
  intros Hw. unfold emit, bind, gets. rewrite emit_from_run. cbn [final snd].
  unfold after_emit. intros event' l. cbn.
  destruct (handlers (service w) !! event) as [hs|] eqn:E; [|apply Hw].
  eapply tidy_replace; eauto.
  assert (Hof : handlers_of event w = hs) by (unfold handlers_of; by rewrite E).
  rewrite Hof. apply visited_sublist.
Qed.

Lemma tidy_clear event w :
  tidy w -> tidy (final (clear event w)).
Proof.
  intros Hw event' l. cbn. destruct event as [ev|].
  - destruct (decide (ev = event')) as [<-|Hne].
    + rewrite lookup_delete_eq. discriminate.
    + rewrite lookup_delete_ne by done. apply Hw.
  - rewrite lookup_empty. discriminate.
Qed.

Lemma exec_normal behaviour c w :
  completion (exec behaviour c w) = Normal tt.
Proof.
  destruct c; try reflexivity.
  cbn. unfold emit, bind, gets. by rewrite emit_from_run.
Qed.

Lemma tidy_exec behaviour c w :
  tidy w -> tidy (final (exec behaviour c w)).
Proof.
  intros Hw. destruct c; cbn [exec].
  - by apply (tidy_on event (Plain fn) options).
  - by apply (tidy_on event (OnceWrapper fn) no_options).
  - by apply tidy_unsubscribe.
  - by apply tidy_emit.
  - by apply tidy_clear.
Qed.

Lemma tidy_exec_all behaviour cs :
  forall w, tidy w -> tidy (final (exec_all behaviour cs w)).
Proof.
  induction cs as [|c cs IH]; intros w Hw; [done|].
  cbn [exec_all]. unfold bind.
  pose proof (exec_normal behaviour c w) as Hn.
  pose proof (tidy_exec behaviour c w Hw) as Ht.
  destruct (exec behaviour c w) as [[[]|t] w1]; cbn in Hn, Ht; [|discriminate Hn].
  by apply IH.
Qed.

Lemma emit_run behaviour event payload w :
  emit behaviour event payload w
  = (Normal tt,
     after_emit behaviour event payload (length (handlers_of event w)) 0 w).
Proof. unfold emit, bind, gets. apply emit_from_run. Qed.

Lemma called_during_emit behaviour event payload w :
  called_between w (final (emit behaviour event payload w))
  = fst (visited (length (handlers_of event w)) 0 (handlers_of event w) payload).
Proof.
  rewrite emit_run. unfold called_between, after_emit, final. cbn.
  rewrite drop_app_length, map_map. cbn. apply map_id.
Qed.

(** C9.  After any history of registrations, removals, emissions and
    clears, one [emit] calls its handlers so that of any two it calls the one
    with the higher priority is called first, and of two with equal priority
    the one registered first is; the calls made earlier stay on record; and
    three handlers registered on [session_start] with priorities 1, 3, 2 are
    called in the order 3, 2, 1. *)
Theorem emit_calls_in_priority_order (behaviour : string -> Payload -> Outcome)
    (history : list Command) (event : string) (payload : Payload)
    (i j : nat) (e1 e2 : HandlerEntry) :
  let w := final (exec_all behaviour history initial) in
  let w' := final (emit behaviour event payload w) in
  let called := called_between w w' in
  calls w' = (calls w ++ map (fun e => (e, payload)) called)%list /\
  (called !! i = Some e1 -> called !! j = Some e2 ->
   (priority e2 < priority e1 -> (i < j)%nat) /\
   (priority e1 = priority e2 -> (id e1 < id e2)%nat -> (i < j)%nat)) /\
  map priority
    (called_between
       (final (exec_all behaviour session_start_132 initial))
       (final (emit behaviour "session_start" [("sessionId", "s")]
                 (final (exec_all behaviour session_start_132 initial)))))
  = [3; 2; 1].
Proof.
  cbn zeta. split; [|split].
  - rewrite called_during_emit. rewrite emit_run. reflexivity.
  - rewrite called_during_emit.
    set (w := final (exec_all behaviour history initial)).
    assert (Hw : tidy w) by apply tidy_exec_all, tidy_initial.
    destruct (tidy_handlers_of event w Hw) as [Hord _].
    intros Hi Hj.
    pose proof (visited_sublist payload (length (handlers_of event w)) 0
                  (handlers_of event w)) as [Hs _].
    apply (ordered_positions _ i j e1 e2 (ordered_sublist _ _ Hs Hord) Hi Hj).
  - rewrite called_during_emit. reflexivity.
Qed.

(** Among handlers registered with [on], [emit] calls every one whose
    filter accepts the payload. *)
Lemma visited_plain payload hs fuel :
  forall i,
    Forall (fun e => is_plain e = true) hs ->
    (length hs <= fuel + i)%nat ->
    visited fuel i hs payload
    = (List.filter (fun e => filter e payload) (drop i hs), hs).
Proof.
  induction fuel as [|fuel IH]; intros i Hplain Hlen; cbn [visited].
  - rewrite drop_ge by lia. reflexivity.
  - destruct (hs !! i) as [e|] eqn:Hi.
    + rewrite (drop_S _ _ _ Hi). cbn [List.filter].
      assert (He : is_plain e = true).
      { rewrite Forall_forall in Hplain. apply Hplain.
        eapply list_elem_of_lookup_2; eauto. }
      unfold is_plain in He.
      destruct (filter e payload); cbn [negb].
      * destruct (handler e); [|discriminate He].
        rewrite IH by (done || lia). reflexivity.
      * rewrite IH by (done || lia). reflexivity.
    + apply lookup_ge_None in Hi. rewrite drop_ge by lia. reflexivity.
Qed.

End HookFacts.

(* ===================================================================== *)
(** ** Message bus *)
(* ===================================================================== *)

Module BusFacts.
Import Bus BusSpec.

Section Delivery.

Variable behaviour : string -> Message -> string -> CallResult.
Variables (channel : string) (message : Message) (sender : string).

#[local] Abbreviation returns := (BusSpec.returns behaviour message sender).

#[local] Abbreviation collected := (BusSpec.collected behaviour message sender).

#[local] Abbreviation thrown := (BusSpec.thrown behaviour channel message sender).

#[local] Abbreviation after_deliver :=
  (BusSpec.after_deliver behaviour channel message sender).

Lemma deliver_run subs :
  forall index toRemove w,
    deliver behaviour channel message sender subs index toRemove w
    = (Normal (toRemove ++ collected subs index), after_deliver subs w).
Proof.
  induction subs as [|sub rest IH]; intros index toRemove w.
  - cbn. unfold ret, after_deliver. cbn. rewrite !app_nil_r. by destruct w.
  - cbn [deliver collected]. unfold bind at 1.
    unfold try_catch, invoke, bind, modify, console_error, returns.
    destruct (behaviour (handler sub) message sender) as [|t] eqn:Hb;
      unfold modify; cbn [ret throw];
      rewrite IH; unfold after_deliver; cbn [map thrown bus allocated promises timers
                                             timers_set calls console];
      rewrite Hb, <- ?app_assoc, ?andb_true_r, ?andb_false_r; cbn [app].
    + destruct (once sub); cbn [app]; rewrite <- ?app_assoc; reflexivity.
    + reflexivity.
Qed.

Lemma collected_shift subs :
  forall index, collected subs (S index) = map S (collected subs index).
Proof.
  induction subs as [|sub rest IH]; intros index; cbn; [done|].
  rewrite map_app, <- IH. by destruct (once sub && returns sub).
Qed.

Lemma splice_all_foldr (toRemove : list nat) (subs : list Subscription) :
  splice_all toRemove subs = foldr splice subs toRemove.
Proof.
  unfold splice_all.
  rewrite <- (fold_left_rev_right splice (rev toRemove) subs).
  by rewrite rev_involutive.
Qed.

Lemma foldr_splice_cons (sub : Subscription) (rest : list Subscription) (js : list nat) :
  foldr splice (sub :: rest) (map S js) = sub :: foldr splice rest js.
Proof.
  induction js as [|j js IH]; cbn; [done|]. rewrite IH. reflexivity.
Qed.

(** Splicing the collected indices, last first, removes exactly the
    subscriptions collected: every index still names the element it named
    during the iteration. *)
Lemma splice_collected subs :
  splice_all (collected subs 0) subs
  = List.filter (fun sub => negb (once sub && returns sub)) subs.
Proof.
  rewrite splice_all_foldr.
  induction subs as [|sub rest IH]; cbn [collected List.filter]; [done|].
  rewrite collected_shift.
  destruct (once sub && returns sub); cbn [app negb foldr].
  - rewrite foldr_splice_cons. cbn. exact IH.
  - rewrite foldr_splice_cons. by rewrite IH.
Qed.

End Delivery.

Lemma publish_run behaviour channel message sender w :
  publish behaviour channel message sender w
  = (Normal tt,
     after_publish behaviour channel message (default "system" sender) w).
Proof.
  unfold publish, bind, gets. rewrite deliver_run. cbn [app].
  unfold modify, after_publish, after_deliver. cbn.
  rewrite splice_collected.
  destruct (channels (bus w) !! channel); reflexivity.
Qed.

(** C5 at its failing input: a one-shot subscription whose handler throws
    is not collected for removal, so the second publication on the channel
    calls it again and it is still subscribed afterwards.  A one-shot
    subscription whose handler returns is called for the first publication
    only. *)
Theorem throwing_once_handler_is_called_again :
  let w0 := final (subscribeOnce "c" "boom" None initial) in
  let w1 := final (publish boom "c" (Body "m1") None w0) in
  let w2 := final (publish boom "c" (Body "m2") None w1) in
  let v0 := final (subscribeOnce "c" "quiet" None initial) in
  let v1 := final (publish boom "c" (Body "m1") None v0) in
  let v2 := final (publish boom "c" (Body "m2") None v1) in
  called_handlers w2 = [("boom", Body "m1"); ("boom", Body "m2")] /\
  getSubscriberCount "c" w2 = 1%nat /\
  called_handlers v2 = [("quiet", Body "m1")] /\
  getSubscriberCount "c" v2 = 0%nat.
Proof. repeat split. Qed.

(** After a publication no one-shot subscription whose handler returned is
    left on the channel, and every other subscription is. *)
Lemma publish_removes_delivered_once behaviour channel message sender w sub :
  let w' := final (publish behaviour channel message sender w) in
  sub ∈ subscriptions_of channel w' <->
  sub ∈ subscriptions_of channel w /\
  (once sub && returns behaviour message (default "system" sender) sub) = false.
Proof.
  cbn zeta. rewrite publish_run. unfold final, after_publish, subscriptions_of. cbn.
  destruct (channels (bus w) !! channel) as [subs|] eqn:E; cbn.
  - rewrite lookup_insert_eq. cbn.
    rewrite !list_elem_of_In, List.filter_In, negb_true_iff. reflexivity.
  - rewrite E. cbn. rewrite elem_of_nil. tauto.
Qed.

Lemma uncalled_stay_uncalled (r : nat) (message : Message) (sender : string)
    (subs : list Subscription) :
  Forall (fun sub => ref sub <> r) subs ->
  List.filter (fun c : Subscription * Message * string => Nat.eqb (ref (fst (fst c))) r)
    (map (fun sub => (sub, message, sender)) subs) = [].
Proof.
  induction 1 as [|sub subs Hsub Hsubs IH]; cbn; [done|].
  destruct (Nat.eqb_spec (ref sub) r); [done | exact IH].
Qed.

Lemma times_called_app r w (l : list (Subscription * Message * string)) w' :
  calls w' = calls w ++ l ->
  times_called r w'
  = (times_called r w +
     length (List.filter (fun c => Nat.eqb (ref (fst (fst c))) r) l))%nat.
Proof.
  intros H. unfold times_called. by rewrite H, List.filter_app, length_app.
Qed.

(** A subscription object that is not on the channel is not called by any
    run of publications on it. *)
Lemma absent_never_called behaviour channel r ms :
  forall w,
    Forall (fun sub => ref sub <> r) (subscriptions_of channel w) ->
    times_called r (final (publish_all behaviour channel ms w)) = times_called r w.
Proof.
  induction ms as [|[message sender] ms IH]; intros w Habsent; [done|].
  cbn [publish_all]. unfold bind. rewrite publish_run.
  set (w1 := after_publish behaviour channel message (default "system" sender) w).
  assert (Hsubs : Forall (fun sub => ref sub <> r) (subscriptions_of channel w1)).
  { rewrite Forall_forall in *. intros sub Hin. apply Habsent.
    assert (Hin' : sub ∈ subscriptions_of channel
                     (final (publish behaviour channel message sender w)))
      by (by rewrite publish_run).
    by apply publish_removes_delivered_once in Hin' as [? _]. }
  rewrite (IH w1 Hsubs).
  rewrite (times_called_app r w
             (map (fun sub => (sub, message, default "system" sender))
                (subscriptions_of channel w))); [|reflexivity].
  rewrite uncalled_stay_uncalled by done. cbn. lia.
Qed.

(** What holds of C5: a one-shot subscription whose handler returns on the
    first publication is called for that publication and for no later
    one. *)
Lemma returning_once_handler_is_called_once behaviour channel message sender ms
    (before after : list Subscription) (s : Subscription) (w : World) :
  subscriptions_of channel w = before ++ s :: after ->
  Forall (fun sub => ref sub <> ref s) (before ++ after) ->
  once s = true ->
  behaviour (handler s) message (default "system" sender) = Returns ->
  times_called (ref s)
    (final (publish_all behaviour channel ((message, sender) :: ms) w))
  = S (times_called (ref s) w).
Proof.
  intros Hsubs Hothers Honce Hret.
  apply Forall_app in Hothers as [Hbefore Hafter].
  cbn [publish_all]. unfold bind. rewrite publish_run.
  set (w1 := after_publish behaviour channel message (default "system" sender) w).
  assert (Hgone : Forall (fun sub => ref sub <> ref s) (subscriptions_of channel w1)).
  { rewrite Forall_forall. intros sub Hin.
    assert (Hin' : sub ∈ subscriptions_of channel
                     (final (publish behaviour channel message sender w)))
      by (by rewrite publish_run).
    apply publish_removes_delivered_once in Hin' as [Hin' Hkeep].
    rewrite Hsubs in Hin'. apply elem_of_app in Hin' as [Hin'|Hin'].
    - rewrite Forall_forall in Hbefore. by apply Hbefore.
    - apply elem_of_cons in Hin' as [->|Hin'].
      + unfold returns in Hkeep. by rewrite Honce, Hret in Hkeep.
      + rewrite Forall_forall in Hafter. by apply Hafter. }
  rewrite (absent_never_called behaviour channel (ref s) ms w1 Hgone).
  rewrite (times_called_app (ref s) w
             (map (fun sub => (sub, message, default "system" sender))
                (subscriptions_of channel w))); [|reflexivity].
  rewrite Hsubs, map_app, List.filter_app, length_app. cbn [map List.filter fst].
  rewrite !uncalled_stay_uncalled by done. rewrite Nat.eqb_refl. cbn. lia.
Qed.

Lemma find_fresh (l : list Timer) (t : Timer) (n : nat) :
  Forall (fun t' => (timer_id t' < n)%nat) l ->
  timer_id t = n ->
  List.find (fun t' => Nat.eqb (timer_id t') n) (l ++ [t]) = Some t.
Proof.
  intros Hl <-. induction Hl as [|x l Hx Hl IH]; cbn.
  - by rewrite Nat.eqb_refl.
  - destruct (Nat.eqb_spec (timer_id x) (timer_id t)); [lia | exact IH].
Qed.

(** C2 as stated fails: with no handler registered for [srv.ping], the
    promise [request] returns is pending when the call returns, and what
    settles it is the timer, which rejects it with the timeout error. *)
Lemma unknown_method_is_not_reported :
  let r := request boom "req-1" "srv" "ping" "{}" (Some 50) initial in
  let p := 0%nat in
  registered_method "srv" "ping" initial = None /\
  completion r = Normal p /\
  promises (final r) !! p = Some Pending /\
  promises (final (fire 0 (final r))) !! p
  = Some (Rejected (JsError "Request timeout: srv.ping")) /\
  failure_kind (JsError "Request timeout: srv.ping") = Some RequestTimeout.
Proof. repeat split. Qed.

(** C2, amended.  When no handler is registered under
    [(targetApp, method)], [request] returns a promise that is pending; it
    has set one timer, for [timeout] milliseconds (5000 by default), and
    when that timer fires the promise is rejected with the timeout error
    naming [targetApp.method]. *)
Theorem unknown_method_times_out
    (behaviour : string -> Message -> string -> CallResult)
    (requestId targetApp method payload : string) (timeout : option Z) (w : World) :
  registered_method targetApp method w = None ->
  fresh_timers w ->
  let r := request behaviour requestId targetApp method payload timeout w in
  let p := length (promises w) in
  let timer := {| timer_id := timers_set w; delay := default 5000 timeout;
                  for_request := requestId; target := targetApp;
                  method := method; rejects := p |} in
  completion r = Normal p /\
  promises (final r) !! p = Some Pending /\
  timers (final r) = timers w ++ [timer] /\
  promises (final (fire (timers_set w) (final r))) !! p
  = Some (Rejected (JsError ("Request timeout: " +:+ targetApp +:+ "." +:+ method))) /\
  failure_kind (JsError ("Request timeout: " +:+ targetApp +:+ "." +:+ method))
  = Some RequestTimeout.
Proof.
  intros _ Hfresh. cbn zeta.
  cbv [request bind new_promise setTimeout gets modify ret].
  rewrite publish_run. cbn [completion final fst snd].
  unfold after_publish; cbn [promises timers with_bus bus timers_set].
  split; [reflexivity|]. split; [|split; [reflexivity|split; [|reflexivity]]].
  - rewrite lookup_app_r by lia. by rewrite Nat.sub_diag.
  - unfold fire, modify, final. cbn [snd timers].
    set (t := {| timer_id := timers_set w; delay := default 5000 timeout;
                 for_request := requestId; target := targetApp;
                 method := method; rejects := length (promises w) |}).
    rewrite (find_fresh (timers w) t (timers_set w) Hfresh eq_refl). cbn [promises rejects target Bus.method t].
    unfold reject. rewrite lookup_app_r by lia. rewrite Nat.sub_diag. cbn [lookup list_lookup].
    rewrite list_lookup_insert_eq; [reflexivity|]. rewrite length_app. cbn. lia.
Qed.

Lemma fresh_timers_initial : fresh_timers initial.
Proof. constructor. Qed.

Lemma unknown_method_times_out_witness :
  let r := request boom "req-1" "srv" "ping" "{}" None initial in
  promises (final r) !! 0%nat = Some Pending /\
  promises (final (fire 0 (final r))) !! 0%nat
  = Some (Rejected (JsError "Request timeout: srv.ping")).
Proof.
  destruct (unknown_method_times_out boom "req-1" "srv" "ping" "{}" None initial)
    as (_ & H1 & _ & H2 & _); [reflexivity | apply fresh_timers_initial |].
  split; [exact H1 | exact H2].
Defined.

End BusFacts.

(* ===================================================================== *)
(** ** Dispatch in the face of throwing handlers *)
(* ===================================================================== *)

Module DispatchFacts.

(** C10.  [emit] and [publish] complete normally whatever the handlers
    do, and [emit] does so however much more fuel its loop is given.  Which
    handlers are called, in which order, does not depend on what any of
    them does: the calls made under one behaviour of the handlers are the
    calls made under any other; [publish] calls every subscription of the
    channel, and [emit] calls every handler registered with [on] whose
    filter accepts the payload.  Each value thrown is printed to the
    console, in the order thrown. *)
Theorem throwing_handler_does_not_stop_siblings
    (hb hb' : string -> Hooks.Payload -> Outcome)
    (event : string) (payload : Hooks.Payload) (hw : Hooks.World)
    (bb bb' : string -> Bus.Message -> string -> Bus.CallResult)
    (channel : string) (message : Bus.Message) (sender : option string)
    (bw : Bus.World) (extra : nat) :
  let he := Hooks.emit hb event payload hw in
  let he' := Hooks.emit hb' event payload hw in
  let called := HookSpec.called_between hw (final he) in
  let bp := Bus.publish bb channel message sender bw in
  let bp' := Bus.publish bb' channel message sender bw in
  let subs := Bus.subscriptions_of channel bw in
  completion he = Normal tt /\
  Hooks.emit_from hb (length (Hooks.handlers_of event hw) + extra) 0 event payload hw
  = he /\
  Hooks.calls (final he) = Hooks.calls (final he') /\
  Hooks.calls (final he)
  = Hooks.calls hw ++ map (fun e => (e, payload)) called /\
  (Forall (fun e => HookSpec.is_plain e = true) (Hooks.handlers_of event hw) ->
   called = List.filter (fun e => Hooks.filter e payload) (Hooks.handlers_of event hw)) /\
  Hooks.console (final he)
  = Hooks.console hw ++ HookSpec.errors hb event payload called /\
  completion bp = Normal tt /\
  Bus.calls (final bp) = Bus.calls (final bp') /\
  Bus.calls (final bp)
  = Bus.calls bw ++ map (fun sub => (sub, message, default "system" sender)) subs /\
  Bus.console (final bp)
  = Bus.console bw ++
    BusSpec.thrown bb channel message (default "system" sender) subs.
Proof.
  cbn zeta. rewrite HookFacts.called_during_emit.
  rewrite HookFacts.emit_fuel_is_enough.
  rewrite !HookFacts.emit_run, !BusFacts.publish_run.
  repeat split.
  intros Hplain. rewrite HookFacts.visited_plain; [|done|lia].
  reflexivity.
Qed.

End DispatchFacts.

(* ===================================================================== *)
(** ** State store *)
(* ===================================================================== *)

Module StateFacts.
Import State StateSpec.



Lemma loaded_same_files fullKey w w' :
  same_files w w' -> loaded fullKey w = loaded fullKey w'.
Proof.
  intros [Hs Hd]. unfold loaded, readFile. by rewrite Hs, Hd.
Qed.

Lemma loadFromDisk_run fullKey w :
  completion (loadFromDisk fullKey w) = Normal (loaded fullKey w) /\
  same_files w (final (loadFromDisk fullKey w)).
Proof.
  unfold loadFromDisk, loaded, bind, Eff.get, same_files.
  destruct (readFile (getFilePath fullKey) DotEnc w) as [content|].
  - destruct (crypto (service w)) as [fns|];
      [destruct (parse (decrypt fns content)) as [e|]
      | destruct (parse content) as [e|]];
      try (repeat split; fail);
      unfold when; destruct (version e =? 1); repeat split.
  - destruct (readFile (getFilePath fullKey) DotJson w) as [content|];
      [|repeat split].
    assert (Hc : match crypto (service w) with
                 | Some _ => content
                 | None => content
                 end = content) by (by destruct (crypto (service w))).
    rewrite Hc. destruct (parse content) as [e|]; [|repeat split].
    unfold when; destruct (version e =? 1); repeat split.
Qed.

(** Every key [listKeys] collects names a file that loads to an entry
    which has not expired. *)
Lemma collect_keys_sound now ns entries :
  forall keys w,
    exists result,
      completion (collect_keys now ns entries keys w) = Normal result /\
      forall k, k ∈ result ->
        k ∈ keys \/
        exists e, loaded (getFullKey ns k) w = Some e /\ isExpired now e = false.
Proof.
  induction entries as [|entry rest IH]; intros keys w; cbn [collect_keys].
  - exists keys. split; [reflexivity | auto].
  - destruct (ends_with ".json" entry || ends_with ".enc" entry);
      [|apply IH].
    unfold bind.
    destruct (loadFromDisk_run (getFullKey ns (strip_extension entry)) w) as [Hc Hs].
    destruct (loadFromDisk (getFullKey ns (strip_extension entry)) w) as [c w1].
    cbn in Hc, Hs. subst c.
    assert (Hload : forall k, loaded (getFullKey ns k) w1 = loaded (getFullKey ns k) w).
    { intros k. symmetry. by apply loaded_same_files. }
    destruct (loaded (getFullKey ns (strip_extension entry)) w) as [e|] eqn:He.
    + destruct (isExpired now e) eqn:Hx; cbn [negb].
      * destruct (IH keys w1) as (result & Hr & Hk). exists result.
        split; [exact Hr|]. intros k Hin. destruct (Hk k Hin) as [?|(e' & H1 & H2)];
          [by left | right; exists e'; by rewrite <- Hload].
      * destruct (IH (keys ++ [strip_extension entry]) w1) as (result & Hr & Hk).
        exists result. split; [exact Hr|]. intros k Hin.
        destruct (Hk k Hin) as [Hin'|(e' & H1 & H2)].
        -- apply elem_of_app in Hin' as [?|Hin']; [by left|].
           apply list_elem_of_singleton in Hin' as ->. right. by exists e.
        -- right; exists e'; by rewrite <- Hload.
    + destruct (IH keys w1) as (result & Hr & Hk). exists result.
      split; [exact Hr|]. intros k Hin. destruct (Hk k Hin) as [?|(e' & H1 & H2)];
        [by left | right; exists e'; by rewrite <- Hload].
Qed.

Lemma listKeys_sound now snappId namespace w :
  exists result,
    completion (listKeys now snappId namespace w) = Normal result /\
    forall k, k ∈ result ->
      exists e, loaded (getFullKey (default snappId namespace) k) w = Some e /\
                isExpired now e = false.
Proof.
  unfold listKeys, bind, gets.
  destruct (readdir (sanitizePath (default snappId namespace)) w) as [entries|].
  - destruct (collect_keys_sound now (default snappId namespace) entries [] w)
      as (result & Hr & Hk).
    exists result. split; [exact Hr|]. intros k Hin.
    destruct (Hk k Hin) as [Hnil|?]; [|done]. by apply elem_of_nil in Hnil.
  - exists []. split; [reflexivity|]. intros k Hin. by apply elem_of_nil in Hin.
Qed.

Lemma extensions_differ (s : string) : s +:+ ".json" <> s +:+ ".enc".
Proof.
  induction s as [|c s IH]; cbn.
  - discriminate.
  - intros [= H]. by apply IH.
Qed.

Lemma persist_run now snappId key v options w :
  let ns := default snappId (opt_namespace options) in
  let r := persist now snappId key v options w in
  completion r = Normal tt /\
  memory_get ns key (final r) = Some (entry_of now v options) /\
  (reads_back options (getFullKey ns key) w ->
   loaded (getFullKey ns key) (final r) = Some (entry_of now v options)).
Proof.
  cbn zeta. fold (entry_of now v options).
  set (ns := default snappId (opt_namespace options)).
  set (entry := entry_of now v options).
  unfold persist. fold (entry_of now v options). fold ns. fold entry.
  unfold bind, memory_set, persistToDisk, modify, bind, gets, when, emitChange.
  cbn [with_memory service crypto].
  unfold reads_back.
  destruct (crypto (service w)) as [fns|] eqn:Hc;
    [destruct (default false (opt_encrypted options)) eqn:Henc; subst entry; cbn [encrypted entry_of]; rewrite ?Henc|];
    unfold writeFile, modify; cbn;
    destruct (default false (opt_sync options)); cbn;
    (split; [reflexivity|]);
    (split; [unfold memory_get; cbn; by rewrite !lookup_insert_eq|]);
    intros Hback; unfold loaded, readFile; cbn; rewrite ?Hc; cbn;
    rewrite ?lookup_insert_eq; cbn; rewrite ?lookup_insert_eq; cbn.
  all: try (rewrite Hback; reflexivity).
  all: unfold readFile in Hback.
  all: rewrite lookup_insert_ne by (unfold file_name; cbn; apply not_eq_sym, extensions_differ || apply extensions_differ).
  all: destruct (disk w !! dir (getFilePath (getFullKey ns key))) as [files|] eqn:Hd;
    cbn; rewrite ?Hback, ?lookup_empty; cbn; rewrite ?lookup_insert_eq; reflexivity.
Qed.

Lemma remove_normal snappId key namespace w :
  completion (remove snappId key namespace w) = Normal tt.
Proof. reflexivity. Qed.

Lemma restore_from_memory t snappId key dflt namespace w e :
  memory_get (default snappId namespace) key w = Some e ->
  completion (restore t snappId key dflt namespace w)
  = Normal (if isExpired t e then dflt else value e).
Proof.
  intros Hm. unfold restore, bind, gets. rewrite Hm.
  destruct (isExpired t e); reflexivity.
Qed.

(** C7 as stated fails.  A time-to-live of zero is no time-to-live: the
    entry never expires and [restore] returns the value long after
    [createdAt + 0].  And when an encrypted file of the same key is left on
    disk by an earlier [persist], [listKeys] reads that file instead of the
    one just written and lists the key after its expiry. *)
Lemma ttl_counterexamples :
  let w1 := final (persist 100 "a" "k" (Str "v") (ttl 0) (create None ∅)) in
  let v0 := final (persist 100 "a" "k" (Str "old") sealed (create (Some sealing) ∅)) in
  let v1 := final (persist 200 "a" "k" (Str "v") (ttl 5) v0) in
  completion (restore 200 "a" "k" (Str "d") None w1) = Normal (Str "v") /\
  completion (listKeys 1000 "a" None v1) = Normal ["k"; "k"].
Proof. split; reflexivity. Qed.

(** C7, amended.  After a [persist] with a time-to-live [T > 0] at time
    [now], [restore] of that namespace and key on the same store returns
    the stored value as long as [t <= now + T] and the default once
    [t > now + T]; and [listKeys] at such a [t] does not list the key,
    provided the file the store reads back for the key is the one this
    [persist] wrote. *)
Theorem ttl_expiry (now : Z) (snappId key : string) (v : JsValue)
    (options : PersistOptions) (T : Z) (dflt : JsValue) (t : Z) (w : World) :
  opt_ttl options = Some T ->
  0 < T ->
  0 <= now ->
  let ns := opt_namespace options in
  let w1 := final (persist now snappId key v options w) in
  (t <= now + T ->
   completion (restore t snappId key dflt ns w1) = Normal v) /\
  (now + T < t ->
   completion (restore t snappId key dflt ns w1) = Normal dflt) /\
  (now + T < t ->
   reads_back options (getFullKey (default snappId ns) key) w ->
   exists keys,
     completion (listKeys t snappId ns w1) = Normal keys /\ key ∉ keys).
Proof.
  intros Httl HT Hnow. cbn zeta.
  destruct (persist_run now snappId key v options w) as (_ & Hmem & Hload).
  assert (Hexp : forall t', isExpired t' (entry_of now v options) = (now + T <? t')).
  { intros t'. unfold isExpired, entry_of. cbn. rewrite Httl. cbn.
    destruct (Z.eqb_spec T 0); [lia|]. cbn.
    destruct (Z.eqb_spec (now + T) 0); [lia | reflexivity]. }
  split; [|split].
  - intros Ht. rewrite (restore_from_memory _ _ _ _ _ _ _ Hmem), Hexp.
    destruct (Z.ltb_spec (now + T) t); [lia | reflexivity].
  - intros Ht. rewrite (restore_from_memory _ _ _ _ _ _ _ Hmem), Hexp.
    destruct (Z.ltb_spec (now + T) t); [reflexivity | lia].
  - intros Ht Hback.
    destruct (listKeys_sound t snappId (opt_namespace options)
                (final (persist now snappId key v options w)))
      as (keys & Hkeys & Hsound).
    exists keys. split; [exact Hkeys|]. intros Hin.
    destruct (Hsound key Hin) as (e & He & Hx).
    rewrite (Hload Hback) in He. injection He as <-.
    rewrite Hexp in Hx. destruct (Z.ltb_spec (now + T) t); [discriminate | lia].
Qed.

Lemma ttl_expiry_witness :
  let w1 := final (persist 100 "a" "k" (Str "v") (ttl 1) (create None ∅)) in
  completion (restore 100 "a" "k" (Str "d") None w1) = Normal (Str "v") /\
  completion (restore 110 "a" "k" (Str "d") None w1) = Normal (Str "d") /\
  exists keys, completion (listKeys 110 "a" None w1) = Normal keys /\ "k" ∉ keys.
Proof.
  destruct (ttl_expiry 100 "a" "k" (Str "v") (ttl 1) 1 (Str "d") 100 (create None ∅))
    as (H1 & _ & _); [reflexivity | lia | lia |].
  destruct (ttl_expiry 100 "a" "k" (Str "v") (ttl 1) 1 (Str "d") 110 (create None ∅))
    as (_ & H2 & H3); [reflexivity | lia | lia |].
  split; [apply H1; lia|]. split; [apply H2; lia|].
  apply H3; [lia | reflexivity].
Defined.

End StateFacts.

(* ===================================================================== *)
(** ** API facade *)
(* ===================================================================== *)

Module ApiFacts.
Import Api ApiSpec.

Lemma append_cancel (p a b : string) : p +:+ a = p +:+ b -> a = b.
Proof.
  induction p as [|c p IH]; cbn; [done|]. intros [= H]. by apply IH.
Qed.

Lemma requirePermission_run tag w :
  requirePermission tag w
  = if hasPermission tag (api w) then (Normal tt, w)
    else (Abrupt (PermissionDenied tag), w).
Proof.
  unfold requirePermission, bind, gets. by destruct (hasPermission tag (api w)).
Qed.

Lemma in_stateService_normal {A} (m : M State.World A) w :
  raises (completion (m (stateService w))) = false ->
  raises (completion (in_stateService m w)) = false.
Proof. unfold in_stateService. by destruct (m (stateService w)). Qed.

Lemma listKeys_normal now snappId namespace (w : State.World) :
  raises (completion (State.listKeys now snappId namespace w)) = false.
Proof.
  destruct (StateFacts.listKeys_sound now snappId namespace w) as (keys & -> & _).
  reflexivity.
Qed.

Lemma restore_normal now snappId key dflt namespace (w : State.World) :
  raises (completion (State.restore now snappId key dflt namespace w)) = false.
Proof.
  unfold State.restore, bind, gets.
  destruct (State.memory_get (default snappId namespace) key w) as [e|].
  - by destruct (State.isExpired now e).
  - destruct (StateFacts.loadFromDisk_run
                (State.getFullKey (default snappId namespace) key) w) as [Hc _].
    destruct (State.loadFromDisk _ w) as [c w1]. cbn in Hc. subst c.
    destruct (StateSpec.loaded _ w) as [e|]; [|reflexivity].
    by destruct (State.isExpired now e).
Qed.

Lemma persist_normal now snappId key v options (w : State.World) :
  raises (completion (State.persist now snappId key v options w)) = false.
Proof.
  destruct (StateFacts.persist_run now snappId key v options w) as (-> & _).
  reflexivity.
Qed.

Section Guarded.

Variable now : Z.
Variable subscribers : string -> Bus.Message -> string -> Bus.CallResult.

#[local] Abbreviation delegate := (ApiSpec.delegate now subscribers).

Lemma delegate_normal c w :
  raises (completion (delegate c w)) = false.
Proof.
  unfold delegate, bind, gets.
  destruct c; try reflexivity.
  - (* persist *)
    pose proof (persist_normal now (id (api w)) key v
                  (default State.no_options options) (stateService w)) as H.
    unfold in_stateService.
    destruct (State.persist _ _ _ _ _ (stateService w)) as [[[]|t] st];
      [reflexivity | discriminate H].
  - (* restore *)
    pose proof (restore_normal now (id (api w)) key defaultValue None
                  (stateService w)) as H.
    unfold in_stateService.
    destruct (State.restore _ _ _ _ _ (stateService w)) as [[x|t] st];
      [reflexivity | discriminate H].
  - (* listKeys *)
    pose proof (listKeys_normal now (id (api w)) None (stateService w)) as H.
    unfold in_stateService.
    destruct (State.listKeys _ _ _ (stateService w)) as [[x|t] st];
      [reflexivity | discriminate H].
  - (* updateTab *)
    by destruct (tabs (api w) !! tabId0).
  - (* updatePanel *)
    by destruct (panels (api w) !! panelId).
  - (* togglePanel *)
    by destruct (panels (api w) !! panelId).
  - (* publish *)
    unfold in_messageBus. rewrite BusFacts.publish_run. reflexivity.
Qed.

Lemma perform_gated c w :
  perform now subscribers c w
  = if hasPermission (required c) (api w) then delegate c w
    else (Abrupt (PermissionDenied (required c)), w).
Proof.
  destruct c; cbn [perform required];
    unfold persist, restore, remove, listKeys, clear, registerTab, unregisterTab,
      updateTab, activateTab, registerPanel, updatePanel, togglePanel, showToast,
      registerCommand, unregisterCommand, onHook, onceHook, injectPromptContext,
      publish, subscribe;
    unfold bind at 1; unfold bind at 1; rewrite requirePermission_run;
    match goal with
    | |- context [hasPermission ?t (api w)] => destruct (hasPermission t (api w))
    end; try reflexivity.
  all: unfold delegate, bind, gets; cbn [gets].
  all: try reflexivity.
  all: repeat match goal with
       | |- context [match ?x with Some _ => _ | None => _ end] =>
           destruct x; try reflexivity
       | |- context [let (_, _) := ?m in _] => destruct m as [[?|?] ?]; try reflexivity
       end.
Qed.

End Guarded.

(** C8.  Every permission-gated operation throws [PermissionDenied] with
    its own tag, and touches nothing, when the facade was not granted that
    tag; when it was granted the tag the operation is its delegate, which
    does not raise; so [PermissionDenied tag] is raised exactly when [tag]
    is the operation's tag and is absent from the set.  A facade granted
    [storage:read] alone refuses [persist] with
    [PermissionDenied "storage:write"] and lets [restore] return the
    default for a key that was never stored. *)
Theorem permission_gate (now : Z)
    (subscribers : string -> Bus.Message -> string -> Bus.CallResult)
    (c : Call) (w : World) (tag : string) :
  let r := perform now subscribers c w in
  (hasPermission (required c) (api w) = false ->
   r = (Abrupt (PermissionDenied (required c)), w)) /\
  (hasPermission (required c) (api w) = true ->
   r = delegate now subscribers c w /\ raises (completion r) = false) /\
  (completion r = Abrupt (PermissionDenied tag) <->
   tag = required c /\ hasPermission tag (api w) = false) /\
  perform now subscribers (Persist "k" (State.Str "v") None) read_only
  = (Abrupt (PermissionDenied "storage:write"), read_only) /\
  completion (perform now subscribers (Restore "missing" (State.Str "d")) read_only)
  = Normal (AValue (State.Str "d")).
Proof.
  cbn zeta. rewrite perform_gated.
  pose proof (delegate_normal now subscribers c w) as Hd.
  destruct (hasPermission (required c) (api w)) eqn:Hp.
  - split; [discriminate|]. split; [auto|]. split; [|split; reflexivity].
    split.
    + intros H. rewrite H in Hd. discriminate Hd.
    + intros [-> H]. congruence.
  - split; [reflexivity|]. split; [discriminate|]. split; [|split; reflexivity].
    cbn [completion fst]. split.
    + intros [= H]. apply append_cancel in H. subst tag. by split.
    + intros [-> _]. reflexivity.
Qed.

Lemma permission_gate_witness :
  perform 0 silent (Persist "k" (State.Str "v") None) read_only
  = (Abrupt (PermissionDenied "storage:write"), read_only) /\
  raises (completion (perform 0 silent (Restore "missing" (State.Str "d")) read_only))
  = false.
Proof.
  destruct (permission_gate 0 silent (Persist "k" (State.Str "v") None) read_only
              "storage:write") as (H1 & _).
  destruct (permission_gate 0 silent (Restore "missing" (State.Str "d")) read_only
              "storage:read") as (_ & H2 & _).
  split; [apply H1; reflexivity | apply H2; reflexivity].
Defined.

End ApiFacts.

(* ===================================================================== *)
(** ** Lifecycle driver: runs of several operations *)
(* ===================================================================== *)

Module LifecycleRunFacts.
Import Lifecycle Scenario LifecycleSpec LifecycleRuns LifecycleFacts.

Lemma drive_keeps_consistent clock op w :
  consistent (snapp w) ->
  consistent (snapp (final (drive clock op w))) /\
  manifest (snapp (final (drive clock op w))) = manifest (snapp w) /\
  registeredAt (snapp (final (drive clock op w))) = registeredAt (snapp w).
Proof.
  destruct w as [a n ws]. unfold consistent. cbn [snapp].
  intros (Hs & He & Hi).
  case_operation op a; cbn in Hs, He, Hi; try discriminate Hs; run_driver.
  all: repeat split; cbn; try tauto; try discriminate; eauto.
  all: intros H; first [apply He in H; discriminate H | destruct H as [? [=]]].
Qed.

Lemma drive_all_cons clock op rest w :
  drive_all clock (op :: rest) w = drive_all clock rest (final (drive clock op w)).
Proof.
  cbn [drive_all]. unfold bind, try_catch, ret, final.
  destruct (drive clock op w) as [[?|?] ?]; reflexivity.
Qed.

Lemma drive_all_keeps_consistent clock ops :
  forall w,
    consistent (snapp w) ->
    consistent (snapp (final (drive_all clock ops w))) /\
    manifest (snapp (final (drive_all clock ops w))) = manifest (snapp w) /\
    registeredAt (snapp (final (drive_all clock ops w))) = registeredAt (snapp w).
Proof.
  induction ops as [|op rest IH]; intros w H; [repeat split; exact H || apply H|].
  destruct (drive_keeps_consistent clock op w H) as (H1 & H2 & H3).
  rewrite drive_all_cons.
  destruct (IH _ H1) as (K1 & K2 & K3).
  rewrite K2, K3. auto.
Qed.


(** X1.  An app record that is consistent stays consistent whatever
    operations a client runs on it and whatever they raise: between
    operations the state is never one of the four intermediate states,
    [error] is set exactly when the state is [error], a registered or
    loaded app has no instance and an active or suspended app has one.
    The manifest and the registration date are never touched. *)
Theorem operations_keep_record_consistent (clock : nat -> Z)
    (ops : list Operation) (a : SnApp) (n : nat) :
  consistent a ->
  let r := drive_all clock ops (start a n) in
  consistent (snapp (final r)) /\
  manifest (snapp (final r)) = manifest a /\
  registeredAt (snapp (final r)) = registeredAt a.
Proof.
  intros H. apply (drive_all_keeps_consistent clock ops (start a n)). exact H.
Qed.

Lemma operations_keep_record_consistent_witness :
  consistent (app_x Registered) /\
  consistent (snapp (final (drive_all ticking
    [Load (Some (Rejects (NonError "disk full"))); Suspend; Unload; Load None]
    (start (app_x Registered) 0)))).
Proof.
  assert (H : consistent (app_x Registered)).
  { split; [reflexivity|]. split; [|reflexivity].
    split; [intros [? [=]] | intros [=]]. }
  split; [exact H|].
  apply (operations_keep_record_consistent ticking
           [Load (Some (Rejects (NonError "disk full"))); Suspend; Unload; Load None]
           (app_x Registered) 0 H).
Defined.

(** X2.  On an app that is between operations, an operation whose
    precondition holds never fails on a transition of its own: it returns
    (with [true] for [suspend] and [unload]) unless a callback it awaits
    throws, and then it re-raises the thrown value as it is.  The record
    keeps the instance the factory produced even when [onActivate] throws;
    a successful [unload] clears [instance] and [error], a failed one
    keeps the instance; a failure stores the thrown value in [error],
    wrapped in an [Error] when it is not one. *)
Theorem operation_outcome (clock : nat -> Z) (op : Operation) (a : SnApp) (n : nat) :
  settled (state a) = true ->
  precondition op (state a) = true ->
  let r := drive clock op (start a n) in
  completion r = match failure op a with
                 | Some t => Abrupt t
                 | None => Normal (match op with
                                   | Suspend | Unload => Some true
                                   | _ => None
                                   end)
                 end /\
  instance (snapp (final r)) = instance_after op a /\
  error (snapp (final r)) = error_after op a.
Proof.
  intros Hs Hpre.
  case_operation op a; cbn in Hs, Hpre; try discriminate; run_driver;
    repeat split.
Qed.

Lemma operation_outcome_witness :
  let i := {| onActivate := Some (Rejects (NonError "no")); onSuspend := None;
              onDestroy := None |} in
  let r := drive ticking (Activate (Produces i)) (start (app_x Loaded) 0) in
  completion r = Abrupt (NonError "no") /\
  instance (snapp (final r)) = Some i /\
  error (snapp (final r)) = Some (JsError "no").
Proof.
  exact (operation_outcome ticking
           (Activate (Produces {| onActivate := Some (Rejects (NonError "no"));
                                  onSuspend := None; onDestroy := None |}))
           (app_x Loaded) 0 eq_refl eq_refl).
Defined.

Lemma register_returns_fresh_record now m w a :
  completion (Registry.register now m w) = Normal a ->
  a = {| manifest := m; state := Registered; instance := None; error := None;
         registeredAt := now; stateChangedAt := now |}.
Proof.
  unfold Registry.register, bind, gets, modify, ret, completion.
  destruct (Registry.has _ _); [intros [=]|].
  destruct (Registry.validateManifest m w) as [[[]|t] w1]; cbn; intros [=]; congruence.
Qed.

(** X3.  A record that [register] has just returned, taken through load,
    activate, suspend, activate and unload with instances whose callbacks
    resolve, passes through the ten states of the cycle in order, reads
    the clock once per state change, and ends as it began: registered,
    with no instance and no error, its manifest and registration date
    untouched. *)
Theorem full_cycle_returns_to_registered (clock : nat -> Z) (now : Z)
    (m : SnAppManifest) (w : Registry.World) (a : SnApp)
    (i i' : SnAppInstance) (n : nat) :
  completion (Registry.register now m w) = Normal a ->
  well_behaved i = true ->
  well_behaved i' = true ->
  let r := drive_all clock (full_cycle i i') (start a n) in
  written (final r)
  = [Loading; Loaded; Activating; Active; Suspending; Suspended;
     Activating; Active; Unloading; Registered] /\
  reads (final r) = (n + 10)%nat /\
  snapp (final r)
  = {| manifest := m; state := Registered; instance := None; error := None;
       registeredAt := now; stateChangedAt := clock (n + 9)%nat |}.
Proof.
  intros Hreg Hi Hi'.
  apply register_returns_fresh_record in Hreg. subst a.
  destruct i as [[[|?]|] [[|?]|] [[|?]|]]; try discriminate Hi;
  destruct i' as [[[|?]|] [[|?]|] [[|?]|]]; try discriminate Hi';
  cbn; rewrite ?Nat.add_succ_r, ?Nat.add_0_r; repeat split.
Qed.

Lemma full_cycle_returns_to_registered_witness :
  state (snapp (final (drive_all ticking (full_cycle quiet quiet)
                         (start (app_x Registered) 0)))) = Registered.
Proof.
  destruct (full_cycle_returns_to_registered ticking 1000 manifest_x Registry.empty
              (app_x Registered) quiet quiet 0 eq_refl eq_refl eq_refl)
    as (_ & _ & H).
  rewrite H. reflexivity.
Defined.

End LifecycleRunFacts.

(* ===================================================================== *)
(** ** Registry: histories of the catalogue *)
(* ===================================================================== *)

Module RegistryRunFacts.
Import Regex Registry RegistrySpec RegistryRuns RegistryFacts.

Lemma register_run now m w :
  register now m w
  = if has (registry w) (Manifest.id m) || violates m
    then (Abrupt (match (if has (registry w) (Manifest.id m) then None
                         else Some (validateManifest m w)) with
                  | Some (Abrupt t, _) => t
                  | _ => JsError ("SnApp " +:+ dquote +:+ interpolate (Manifest.id m) +:+
                                  dquote +:+ " is already registered")
                  end),
          {| registry := registry w;
             console := console (final (if has (registry w) (Manifest.id m)
                                        then (Normal tt, w) else validateManifest m w)) |})
    else
      let snapp := {| manifest := m; state := Registered;
                      instance := None; error := None;
                      registeredAt := now; stateChangedAt := now |} in
      (Normal snapp,
       {| registry := {| snapps := <[Manifest.id m := snapp]> (snapps (registry w)) |};
          console := console w ++ long_shortName_warning m ++
                     unknown_warnings (Manifest.id m)
                       (elements (Manifest.permissions m)) |}).
Proof.
  unfold register, bind, gets.
  destruct (has (registry w) (Manifest.id m)) eqn:Hhas; cbn [orb].
  - destruct w; reflexivity.
  - destruct (validateManifest_run m w) as (Hv & Hreg & Hrun).
    destruct (violates m).
    + destruct (validateManifest m w) as [[[]|t] [r c]]; cbn in *; [discriminate|].
      subst r. reflexivity.
    + rewrite (Hrun eq_refl). reflexivity.
Qed.

Lemma violates_id m :
  violates m = false ->
  exists id, Manifest.id m = Some id /\ matches kebab_case id = true.
Proof.
  unfold violates, missing. intros H.
  repeat (apply orb_false_iff in H as [H ?]).
  destruct (Manifest.id m) as [id|]; [|discriminate H].
  exists id. split; [reflexivity|].
  cbn in *. destruct (matches kebab_case id); [reflexivity | discriminate].
Qed.

Lemma registry_run_normal c w : completion (exec c w) = Normal tt.
Proof.
  destruct c as [now m | id | ]; cbn; try reflexivity.
  unfold try_catch, bind. rewrite register_run.
  destruct (has _ _ || violates m); reflexivity.
Qed.

Lemma validated_exec c w :
  validated (registry w) -> validated (registry (final (exec c w))).
Proof.
  intros H. destruct c as [now m | id | ]; cbn.
  - unfold try_catch, bind. rewrite register_run.
    destruct (has (registry w) (Manifest.id m) || violates m) eqn:E; cbn; [exact H|].
    apply orb_false_iff in E as [_ Hv].
    intros k a. cbn. rewrite lookup_insert_Some.
    intros [[<- <-] | [_ Hk]]; [|exact (H k a Hk)].
    destruct (violates_id m Hv) as (id & Hid & Hm).
    exists id. cbn. rewrite Hid. auto.
  - intros k a. cbn. rewrite lookup_delete_Some. intros [_ Hk]. exact (H k a Hk).
  - intros k a. cbn. rewrite lookup_empty. discriminate.
Qed.

(** X4.  Whatever a client does with [register], [unregister] and [clear],
    starting from an empty catalogue, every entry of the catalogue sits
    under the id of its own manifest, that id is a string in kebab case
    (never [undefined]), and the manifest satisfies every rule
    [validateManifest] enforces. *)
Theorem catalogue_holds_validated_manifests (history : list Command) :
  validated (registry (final (exec_all history empty))).
Proof.
  assert (H : forall cs w, validated (registry w) ->
                           validated (registry (final (exec_all cs w)))).
  { induction cs as [|c rest IH]; intros w Hw; [exact Hw|].
    cbn [exec_all]. unfold bind.
    pose proof (registry_run_normal c w) as Hn. pose proof (validated_exec c w Hw) as Hv.
    destruct (exec c w) as [[[]|t] w1]; cbn in Hn, Hv; [|discriminate Hn].
    apply IH. exact Hv. }
  apply H. intros k a. cbn. rewrite lookup_empty. discriminate.
Qed.

Lemma catalogue_holds_validated_manifests_witness :
  exists id,
    Some "x" = Some id /\
    Manifest.id Scenario.manifest_x = Some id /\
    matches kebab_case id = true /\ violates Scenario.manifest_x = false.
Proof.
  apply (catalogue_holds_validated_manifests
           [Register 1000 Scenario.manifest_x; Unregister "y"; Clear;
            Register 2000 Scenario.manifest_x]
           (Some "x")
           {| manifest := Scenario.manifest_x; state := Registered; instance := None;
              error := None; registeredAt := 2000; stateChangedAt := 2000 |}).
  reflexivity.
Defined.

(** X5.  [unregister] reports whether the id was catalogued.  For an id
    that is not, it returns [false] and changes nothing; for one that is,
    it returns [true], the id is gone, the count drops by one and every
    other entry stays.  Unregistering what [register] has just added gives
    back the catalogue as it was, so the same manifest can be registered
    again. *)
Theorem unregister_undoes_register (now : Z) (m : SnAppManifest) (id : string)
    (w : World) :
  let r := unregister id w in
  completion r = Normal (has (registry w) (Some id)) /\
  has (registry (final r)) (Some id) = false /\
  (forall k, k <> Some id -> snapps (registry (final r)) !! k = snapps (registry w) !! k) /\
  (has (registry w) (Some id) = false -> final r = w) /\
  (has (registry w) (Some id) = true ->
   S (count (registry (final r))) = count (registry w)) /\
  (Manifest.id m = Some id ->
   raises (completion (register now m w)) = false ->
   registry (final (unregister id (final (register now m w)))) = registry w /\
   completion (unregister id (final (register now m w))) = Normal true /\
   raises (completion (register now m
             (final (unregister id (final (register now m w)))))) = false).
Proof.
  cbn zeta.
  assert (Hrun : forall w', unregister id w'
    = (Normal (has (registry w') (Some id)),
       {| registry := {| snapps := delete (Some id) (snapps (registry w')) |};
          console := console w' |})) by reflexivity.
  rewrite !Hrun. cbn [completion final fst snd registry snapps].
  split; [reflexivity|]. split; [|split; [|split; [|split]]].
  - unfold has. cbn. rewrite lookup_delete_eq.
    apply bool_decide_eq_false_2. intros [? [=]].
  - intros k Hk. apply lookup_delete_ne. congruence.
  - unfold has. intros H. apply bool_decide_eq_false_1 in H.
    destruct w as [[s] c]. cbn in *. rewrite delete_id; [reflexivity|].
    destruct (s !! Some id); [exfalso; apply H; eauto | reflexivity].
  - unfold has, count. intros H. apply bool_decide_eq_true_1 in H.
    cbn. rewrite map_size_delete. destruct H as [a Ha]. rewrite Ha.
    assert (size (snapps (registry w)) <> 0%nat); [|lia].
    intros Hz. apply map_size_empty_inv in Hz. rewrite Hz, lookup_empty in Ha.
    discriminate Ha.
  - intros Hid. rewrite !register_run. rewrite Hid.
    destruct (has (registry w) (Some id) || violates m) eqn:E; cbn; [discriminate|].
    intros _. apply orb_false_iff in E as [Hhas Hv].
    assert (Hnone : snapps (registry w) !! Some id = None).
    { unfold has in Hhas. apply bool_decide_eq_false_1 in Hhas.
      destruct (snapps (registry w) !! Some id); [exfalso; apply Hhas; eauto | reflexivity]. }
    unfold has. cbn. rewrite delete_insert_eq, (delete_id _ _ Hnone), lookup_insert_eq, Hnone.
    rewrite Hv. destruct w as [[s] c]. cbn.
    repeat split.
Qed.

Lemma unregister_undoes_register_witness :
  registry (final (unregister "x" (final (register 1000 Scenario.manifest_x empty))))
  = registry empty.
Proof.
  destruct (unregister_undoes_register 1000 Scenario.manifest_x "x" empty)
    as (_ & _ & _ & _ & _ & H).
  destruct (H eq_refl eq_refl) as (H1 & _). exact H1.
Defined.

End RegistryRunFacts.

(* ===================================================================== *)
(** ** Discovery *)
(* ===================================================================== *)

Module DiscoveryFacts.
Import Discovery DiscoverySpec.

Lemma elem_of_concat_map {A B} (f : A -> list B) (l : list A) (x : B) :
  x ∈ concat (map f l) <-> exists a, a ∈ l /\ x ∈ f a.
Proof.
  induction l as [|a rest IH]; cbn.
  - split; [intros H; inversion H | intros (? & H & _); inversion H].
  - rewrite elem_of_app, IH. split.
    + intros [H | (b & Hb & Hx)]; [exists a; split; [left | exact H]|].
      exists b. split; [right; exact Hb | exact Hx].
    + intros (b & Hb & Hx). apply elem_of_cons in Hb as [-> | Hb]; eauto.
Qed.

Section Scan.

Variable join : string -> string -> string.
Variable fs : FileSystem.

Lemma scan_entries_run dir entries :
  forall r,
    scan_entries join fs dir entries r
    = (Normal tt,
       {| manifests := manifests r ++ found join fs dir entries;
          errors := errors r ++ broken join fs dir entries |}).
Proof.
  induction entries as [|entry rest IH]; intros r.
  - cbn. rewrite !app_nil_r. destruct r; reflexivity.
  - cbn [scan_entries found broken]. unfold bind, when.
    destruct (isDirectory entry); cbn.
    + unfold try_catch, bind, loadManifest, fileExists, load_error.
      destruct (readFile fs _) as [[m|err]|err]; cbn.
      * rewrite IH. cbn. rewrite <- !app_assoc. reflexivity.
      * destruct (access fs _); cbn; rewrite IH; cbn; rewrite <- ?app_assoc; reflexivity.
      * destruct (access fs _); cbn; rewrite IH; cbn; rewrite <- ?app_assoc; reflexivity.
    + rewrite IH. reflexivity.
Qed.

Lemma scanDirectory_run dir :
  scanDirectory join fs dir
  = match readdir fs dir with
    | Lists entries =>
        {| manifests := found join fs dir entries;
           errors := broken join fs dir entries |}
    | ListFails code err =>
        {| manifests := [];
           errors := if bool_decide (code = Some "ENOENT") then []
                     else [{| path := dir; error := toError err |}] |}
    end.
Proof.
  unfold scanDirectory. destruct (readdir fs dir) as [entries|code err].
  - rewrite scan_entries_run. reflexivity.
  - destruct (bool_decide (code = Some "ENOENT")); reflexivity.
Qed.

Lemma fold_push_all (paths : list string) :
  forall r,
    fold_left (fun result path => push_all result (scanDirectory join fs path)) paths r
    = {| manifests := manifests r ++ concat (map (fun p => manifests (scanDirectory join fs p)) paths);
         errors := errors r ++ concat (map (fun p => errors (scanDirectory join fs p)) paths) |}.
Proof.
  induction paths as [|p rest IH]; intros r; cbn.
  - rewrite !app_nil_r. destruct r; reflexivity.
  - rewrite IH. cbn. rewrite <- !app_assoc. reflexivity.
Qed.

Lemma found_elem dir entries m :
  m ∈ found join fs dir entries <->
  exists entry, entry ∈ entries /\ isDirectory entry = true /\
    readFile fs (join (join dir (name entry)) "snap.json") = Reads (Json m).
Proof.
  induction entries as [|e rest IH]; cbn.
  - split; [intros H; inversion H | intros (? & H & _); inversion H].
  - rewrite elem_of_app, IH. split.
    + intros [H | (entry & Hin & Hd & Hr)].
      * exists e. destruct (isDirectory e); [|inversion H].
        destruct (readFile fs _) as [[m'|?]|?]; try (inversion H; fail).
        apply list_elem_of_singleton in H. subst m'.
        split; [left|]; auto.
      * exists entry. split; [right; exact Hin | auto].
    + intros (entry & Hin & Hd & Hr).
      apply elem_of_cons in Hin as [-> | Hin].
      * left. rewrite Hd, Hr. left.
      * right. eauto.
Qed.

Lemma broken_elem dir entries x :
  x ∈ broken join fs dir entries <->
  exists entry err, entry ∈ entries /\ isDirectory entry = true /\
    load_error (readFile fs (join (join dir (name entry)) "snap.json")) = Some err /\
    access fs (join (join dir (name entry)) "snap.json") = true /\
    x = {| path := join dir (name entry); error := toError err |}.
Proof.
  induction entries as [|e rest IH]; cbn.
  - split; [intros H; inversion H | intros (? & ? & H & _); inversion H].
  - rewrite elem_of_app, IH. split.
    + intros [H | (entry & err & Hin & Hd & Hr & Ha & Hx)].
      * destruct (isDirectory e) eqn:Hd; [|inversion H].
        destruct (load_error _) as [err|] eqn:Hl; [|inversion H].
        destruct (access fs _) eqn:Ha; [|inversion H].
        apply list_elem_of_singleton in H.
        exists e, err. split; [left|]; auto.
      * exists entry, err. split; [right; exact Hin | auto].
    + intros (entry & err & Hin & Hd & Hr & Ha & Hx).
      apply elem_of_cons in Hin as [-> | Hin].
      * left. rewrite Hd, Hr, Ha. subst x. left.
      * right. eauto 10.
Qed.

End Scan.

(** X6.  [discover] scans the built-in path first and then the additional
    paths in the order given, and appends what each scan finds.  A
    manifest is reported exactly when some scanned directory lists a
    subdirectory whose [snap.json] reads and parses to it.  An error is
    reported exactly for a scanned directory that cannot be listed for a
    reason other than [ENOENT], and for a subdirectory whose [snap.json]
    exists but does not read or parse; a missing scan directory, a plain
    file and a subdirectory without [snap.json] are passed over in
    silence. *)
Theorem discover_reports (join : string -> string -> string) (fs : FileSystem)
    (options : RegistryOptions) :
  let result := discover join fs options in
  manifests result
  = concat (map (fun p => manifests (scanDirectory join fs p)) (scanned options)) /\
  errors result
  = concat (map (fun p => errors (scanDirectory join fs p)) (scanned options)) /\
  (forall m,
     m ∈ manifests result <->
     exists dir entries entry,
       dir ∈ scanned options /\ readdir fs dir = Lists entries /\
       entry ∈ entries /\ isDirectory entry = true /\
       readFile fs (join (join dir (name entry)) "snap.json") = Reads (Json m)) /\
  (forall x,
     x ∈ errors result <->
     (exists dir code err,
        dir ∈ scanned options /\ readdir fs dir = ListFails code err /\
        code <> Some "ENOENT" /\
        x = {| path := dir; error := toError err |}) \/
     (exists dir entries entry err,
        dir ∈ scanned options /\ readdir fs dir = Lists entries /\
        entry ∈ entries /\ isDirectory entry = true /\
        load_error (readFile fs (join (join dir (name entry)) "snap.json")) = Some err /\
        access fs (join (join dir (name entry)) "snap.json") = true /\
        x = {| path := join dir (name entry); error := toError err |})).
Proof.
  cbn zeta.
  assert (Hm : manifests (discover join fs options)
    = concat (map (fun p => manifests (scanDirectory join fs p)) (scanned options))).
  { unfold discover, scanned. rewrite fold_push_all. reflexivity. }
  assert (He : errors (discover join fs options)
    = concat (map (fun p => errors (scanDirectory join fs p)) (scanned options))).
  { unfold discover, scanned. rewrite fold_push_all. reflexivity. }
  split; [exact Hm|]. split; [exact He|]. split.
  - intros m. rewrite Hm, elem_of_concat_map. split.
    + intros (dir & Hdir & Hin).
      rewrite scanDirectory_run in Hin.
      destruct (readdir fs dir) as [entries|code err] eqn:Hr; [|inversion Hin].
      cbn in Hin. apply found_elem in Hin as (entry & ? & ? & ?).
      exists dir, entries, entry. auto.
    + intros (dir & entries & entry & Hdir & Hr & Hin & Hd & Hf).
      exists dir. split; [exact Hdir|].
      rewrite scanDirectory_run, Hr. cbn. apply found_elem. eauto.
  - intros x. rewrite He, elem_of_concat_map. split.
    + intros (dir & Hdir & Hin).
      rewrite scanDirectory_run in Hin.
      destruct (readdir fs dir) as [entries|code err] eqn:Hr; cbn in Hin.
      * right. apply broken_elem in Hin as (entry & err & ? & ? & ? & ? & ?).
        exists dir, entries, entry, err. auto 10.
      * left. destruct (bool_decide (code = Some "ENOENT")) eqn:Hc; [inversion Hin|].
        apply list_elem_of_singleton in Hin. apply bool_decide_eq_false_1 in Hc.
        exists dir, code, err. auto.
    + intros [(dir & code & err & Hdir & Hr & Hc & Hx)
             |(dir & entries & entry & err & Hdir & Hr & Hin & Hd & Hl & Ha & Hx)].
      * exists dir. split; [exact Hdir|].
        rewrite scanDirectory_run, Hr. cbn.
        rewrite bool_decide_eq_false_2 by exact Hc. subst x. left.
      * exists dir. split; [exact Hdir|].
        rewrite scanDirectory_run, Hr. cbn. apply broken_elem. eauto 10.
Qed.

Example discover_one_app :
  discover slash one_app {| builtinPath := None; additionalPaths := Some ["/opt/snapps"] |}
  = {| manifests := [Scenario.manifest_x]; errors := [] |}.
Proof. reflexivity. Qed.

End DiscoveryFacts.

(* ===================================================================== *)
(** ** The shapes the validators accept *)
(* ===================================================================== *)

Module ShapeFacts.
Import Regex Registry ShapeSpec.

Lemma append_eq_nil (s1 s2 : string) :
  s1 +:+ s2 = EmptyString -> s1 = EmptyString /\ s2 = EmptyString.
Proof. destruct s1; [intros H; split; [reflexivity | exact H] | intros [=]]. Qed.

Lemma append_eq_cons (s1 s2 : string) c s :
  s1 +:+ s2 = String c s ->
  (s1 = EmptyString /\ s2 = String c s) \/
  (exists s1', s1 = String c s1' /\ s = s1' +:+ s2).
Proof.
  intros H. destruct s1 as [|c' s1']; [left; auto | right].
  change (String c' s1' +:+ s2) with (String c' (s1' +:+ s2)) in H.
  injection H as -> <-. eauto.
Qed.


Lemma append_assoc (s1 s2 s3 : string) : (s1 +:+ s2) +:+ s3 = s1 +:+ (s2 +:+ s3).
Proof.
  induction s1 as [|c s IH]; [reflexivity|].
  change (String c (s +:+ s2) +:+ s3 = String c (s +:+ (s2 +:+ s3))).
  change (String c ((s +:+ s2) +:+ s3) = String c (s +:+ (s2 +:+ s3))).
  rewrite IH. reflexivity.
Qed.

Lemma lang_nullable r : nullable r = true <-> lang r EmptyString.
Proof.
  split.
  - induction r; cbn; intros H; try discriminate H.
    + constructor.
    + apply andb_true_iff in H as [H1 H2].
      change EmptyString with (EmptyString +:+ EmptyString). constructor; auto.
    + apply orb_true_iff in H as [H|H]; [apply lang_alt_l | apply lang_alt_r]; auto.
    + constructor.
  - intros H. remember EmptyString as s eqn:Hs.
    induction H; cbn; try reflexivity; try discriminate Hs.
    + apply append_eq_nil in Hs as [-> ->]. rewrite IHlang1, IHlang2; reflexivity.
    + rewrite IHlang by exact Hs. reflexivity.
    + rewrite IHlang by exact Hs. apply orb_true_r.
Qed.

Lemma lang_derive_1 c r : forall s, lang (derive c r) s -> lang r (String c s).
Proof.
  induction r; cbn; intros s H.
  - inversion H.
  - inversion H.
  - destruct (p c) eqn:Hp; inversion H; subst. constructor. exact Hp.
  - destruct (nullable r1) eqn:Hn.
    + inversion H as [| |? ? ? ? H1 H2| ? ? ? H1 | ? ? ? H1 | |]; subst.
      * inversion H1 as [| |? ? s1 s2 K1 K2| | | |]; subst.
        change (lang (Seq r1 r2) (String c s1 +:+ s2)). constructor; auto.
      * change (lang (Seq r1 r2) (EmptyString +:+ String c s)).
        constructor; [apply lang_nullable; exact Hn | auto].
    + inversion H as [| |? ? s1 s2 K1 K2| | | |]; subst.
      change (lang (Seq r1 r2) (String c s1 +:+ s2)). constructor; auto.
  - inversion H; subst; [apply lang_alt_l | apply lang_alt_r]; auto.
  - inversion H as [| |? ? s1 s2 K1 K2| | | |]; subst.
    change (lang (Star r) (String c s1 +:+ s2)). constructor; auto.
Qed.

Lemma lang_derive_2 c r s' :
  lang r s' -> forall s, s' = String c s -> lang (derive c r) s.
Proof.
  induction 1 as [|p c' Hp|r1 r2 s1 s2 H1 IH1 H2 IH2|r1 r2 s0 H1 IH1|r1 r2 s0 H1 IH1
                 |r|r s1 s2 H1 IH1 H2 IH2]; intros s Hs; cbn.
  - discriminate Hs.
  - injection Hs as -> <-. rewrite Hp. constructor.
  - apply append_eq_cons in Hs as [[-> ->] | (s1' & -> & ->)].
    + apply lang_nullable in H1. rewrite H1. apply lang_alt_r. auto.
    + destruct (nullable r1); [apply lang_alt_l|]; constructor; auto.
  - apply lang_alt_l. auto.
  - apply lang_alt_r. auto.
  - discriminate Hs.
  - apply append_eq_cons in Hs as [[-> ->] | (s1' & -> & ->)].
    + apply IH2. reflexivity.
    + constructor; auto.
Qed.

Lemma matches_lang s : forall r, matches r s = true <-> lang r s.
Proof.
  induction s as [|c s IH]; intros r; cbn.
  - apply lang_nullable.
  - rewrite IH. split; [apply lang_derive_1 | intros H; apply (lang_derive_2 c r _ H); reflexivity].
Qed.


Lemma lang_star_class p s : lang (Star (Class p)) s <-> all_chars p s = true.
Proof.
  split.
  - intros H. remember (Star (Class p)) as r eqn:Hr.
    induction H as [| | | | | |r s1 s2 H1 _ H2 IH2]; try discriminate Hr; [reflexivity|].
    injection Hr as ->. inversion H1 as [|? c Hc| | | | |]; subst.
    change (String c EmptyString +:+ s2) with (String c s2).
    cbn. rewrite IH2 by reflexivity. rewrite andb_true_r. assumption.
  - induction s as [|c s IH]; cbn; intros H; [constructor|].
    apply andb_true_iff in H as [Hc Hs].
    change (String c s) with (String c EmptyString +:+ s).
    constructor; [constructor; exact Hc | auto].
Qed.

Lemma lang_plus_class p s : lang (plus (Class p)) s <-> word p s.
Proof.
  unfold plus, word. split.
  - intros H. inversion H as [| |? ? s1 s2 H1 H2| | | |]; subst.
    inversion H1 as [|? c Hc| | | | |]; subst. apply lang_star_class in H2.
    change (String c EmptyString +:+ s2) with (String c s2).
    split; [discriminate|]. cbn. rewrite H2, andb_true_r. assumption.
  - intros [Hne H]. destruct s as [|c s]; [contradiction|].
    cbn in H. apply andb_true_iff in H as [Hc Hs].
    change (String c s) with (String c EmptyString +:+ s).
    constructor; [constructor; exact Hc | apply lang_star_class; exact Hs].
Qed.

Lemma lang_chr a s : lang (chr a) s <-> s = String a EmptyString.
Proof.
  unfold chr. split.
  - intros H. inversion H as [|? c Hc| | | | |]; subst.
    apply Ascii.eqb_eq in Hc. subst. reflexivity.
  - intros ->. constructor. apply Ascii.eqb_refl.
Qed.

Lemma lang_hyphenated p s :
  lang (Star (Seq (chr "-") (plus (Class p)))) s <->
  exists segments, s = hyphenated segments /\ Forall (word p) segments.
Proof.
  split.
  - intros H. remember (Star (Seq (chr "-") (plus (Class p)))) as r eqn:Hr.
    induction H as [| | | | | |r s1 s2 H1 _ H2 IH2]; try discriminate Hr.
    + exists []. split; [reflexivity | constructor].
    + injection Hr as ->. destruct (IH2 eq_refl) as (segments & -> & Hall).
      inversion H1 as [| |? ? t1 t2 K1 K2| | | |]; subst.
      apply lang_chr in K1. subst t1. apply lang_plus_class in K2.
      exists (t2 :: segments). split; [|constructor; assumption].
      cbn [hyphenated]. rewrite append_assoc. reflexivity.
  - intros (segments & -> & Hall).
    induction Hall as [|segment rest Hw _ IH]; cbn [hyphenated]; [constructor|].
    rewrite <- append_assoc. constructor; [|exact IH].
    constructor; [apply lang_chr; reflexivity | apply lang_plus_class; exact Hw].
Qed.

Lemma lang_any s : lang (Star any) s.
Proof. apply lang_star_class. induction s; cbn; auto. Qed.

(** X7.  The id pattern of [validateManifest] accepts exactly the strings
    in kebab case: one or more words of lower-case letters and digits,
    joined by single hyphens.  So an id is never empty, holds no
    upper-case letter, underscore or blank, and neither starts nor ends
    with a hyphen nor holds two hyphens in a row. *)
Theorem kebab_case_accepts_kebab (s : string) :
  matches kebab_case s = true <-> kebab s.
Proof.
  rewrite matches_lang. unfold kebab_case, kebab. split.
  - intros H. inversion H as [| |? ? s1 s2 H1 H2| | | |]; subst.
    apply lang_plus_class in H1. apply lang_hyphenated in H2 as (segments & -> & Hall).
    exists s1, segments. auto.
  - intros (first & rest & -> & Hw & Hall).
    constructor; [apply lang_plus_class; exact Hw | apply lang_hyphenated; eauto].
Qed.

(** X8.  The version pattern of [validateManifest] accepts exactly the
    strings that start with three numbers, each of one digit or more,
    separated by dots; whatever follows the third number is not looked
    at. *)
Theorem semver_start_accepts_prefix (s : string) :
  matches_prefix semver_start s = true <-> starts_with_semver s.
Proof.
  unfold matches_prefix. rewrite matches_lang.
  unfold semver_start, starts_with_semver, digit. split.
  - intros H. inversion H as [| |? ? s0 rest H0 Hrest| | | |]; subst.
    inversion H0 as [| |? ? major s1 Hmajor H1| | | |]; subst.
    inversion H1 as [| |? ? d1 s2 Hd1 H2| | | |]; subst.
    inversion H2 as [| |? ? minor s3 Hminor H3| | | |]; subst.
    inversion H3 as [| |? ? d2 patch Hd2 Hpatch| | | |]; subst.
    apply lang_chr in Hd1, Hd2. subst d1 d2.
    apply lang_plus_class in Hmajor, Hminor, Hpatch.
    exists major, minor, patch, rest. split; [|auto].
    rewrite !append_assoc. reflexivity.
  - intros (major & minor & patch & rest & -> & Hmajor & Hminor & Hpatch).
    replace (major +:+ "." +:+ minor +:+ "." +:+ patch +:+ rest)
      with ((major +:+ ("." +:+ (minor +:+ ("." +:+ patch)))) +:+ rest)
      by (rewrite !append_assoc; reflexivity).
    constructor; [|apply lang_any].
    constructor; [apply lang_plus_class; exact Hmajor|].
    constructor; [apply lang_chr; reflexivity|].
    constructor; [apply lang_plus_class; exact Hminor|].
    constructor; [apply lang_chr; reflexivity|].
    apply lang_plus_class; exact Hpatch.
Qed.

End ShapeFacts.

(* ===================================================================== *)
(** ** Hook router: registrations and one-shot handlers *)
(* ===================================================================== *)

Module HookRunFacts.
Import Hooks HookSpec HookRuns HookFacts.

Lemma before_priority a b : before a b -> priority b <= priority a.
Proof. intros [H | [H _]]; lia. Qed.

Lemma insert_front x l :
  ordered (x :: l) -> insert_by_priority x l = x :: l.
Proof.
  intros H. destruct l as [|y l]; [reflexivity|]. cbn.
  apply StronglySorted_inv in H as [_ H]. apply Forall_cons in H as [H _].
  apply before_priority in H. unfold comparator.
  destruct (Z.ltb_spec (priority x - priority y) 0); [lia | reflexivity].
Qed.

(** Where [sort] puts an entry pushed behind an array that is in order:
    somewhere inside it, the array being otherwise as it was. *)
Lemma sort_push_split l e :
  ordered l ->
  exists l1 l2, l = l1 ++ l2 /\ sort (l ++ [e]) = l1 ++ e :: l2.
Proof.
  unfold sort. rewrite foldr_app. cbn [foldr].
  induction l as [|x rest IH]; intros Hord.
  - exists [], []. split; reflexivity.
  - pose proof Hord as Hord'.
    apply StronglySorted_inv in Hord' as [Hrest Hx].
    destruct (IH Hrest) as (r1 & r2 & Hsplit & Hsort).
    cbn [foldr]. rewrite Hsort.
    destruct r1 as [|y r1]; cbn [app insert_by_priority].
    + cbn in Hsplit. subst r2.
      destruct (comparator e x <? 0) eqn:Hc.
      * exists [], (x :: rest). split; [reflexivity|].
        rewrite insert_front by exact Hord. reflexivity.
      * exists [x], rest. split; reflexivity.
    + assert (Hy : before x y).
      { rewrite Forall_forall in Hx. apply Hx. rewrite Hsplit. left. }
      apply before_priority in Hy. unfold comparator.
      destruct (Z.ltb_spec (priority x - priority y) 0); [lia|].
      exists (x :: y :: r1), r2. split; [rewrite Hsplit; reflexivity | reflexivity].
Qed.

Lemma remove_id_fresh n l :
  (forall x, x ∈ l -> id x <> n) -> remove_id n l = l.
Proof.
  induction l as [|x rest IH]; intros H; [reflexivity|]. cbn.
  destruct (Nat.eqb_spec (id x) n) as [E|_].
  - exfalso. apply (H x); [left | exact E].
  - rewrite IH; [reflexivity|]. intros y Hy. apply H. right. exact Hy.
Qed.

Lemma remove_id_middle n l1 e l2 :
  (forall x, x ∈ l1 -> id x <> n) -> id e = n ->
  remove_id n (l1 ++ e :: l2) = l1 ++ l2.
Proof.
  induction l1 as [|x rest IH]; intros H He; cbn.
  - rewrite He, Nat.eqb_refl. reflexivity.
  - destruct (Nat.eqb_spec (id x) n) as [E|_].
    + exfalso. apply (H x); [left | exact E].
    + rewrite IH; [reflexivity | | exact He]. intros y Hy. apply H. right. exact Hy.
Qed.


(** X9.  In a tidy router, as every router reached by a history is, [on]
    hands out an id no entry holds yet (one more than the last), the
    event has one handler more, and no other event is touched.  Calling the function [on]
    returned takes that entry out again and leaves every array as it was
    before the registration; calling it a second time changes nothing. *)
Theorem unsubscribe_undoes_on (event : string) (h : Handler)
    (options : HookOptions) (w : World) :
  tidy w ->
  let r := on event h options w in
  let n := S (handlerIdCounter (service w)) in
  let w' := final (unsubscribe event n (final r)) in
  completion r = Normal n /\
  (forall any x, x ∈ handlers_of any w -> (id x < n)%nat) /\
  count event (final r) = S (count event w) /\
  hasHandlers event (final r) = true /\
  (forall other, other <> event -> handlers_of other (final r) = handlers_of other w) /\
  (forall any, handlers_of any w' = handlers_of any w) /\
  final (unsubscribe event n w') = w'.
Proof.
  intros Htidy. cbn zeta.
  set (n := S (handlerIdCounter (service w))).
  set (e := {| handler := h; priority := default 0 (opt_priority options);
               filter := default (fun _ => true) (opt_filter options);
               async := default false (opt_async options); id := n |}).
  assert (Hfresh : forall any x, x ∈ handlers_of any w -> (id x < n)%nat).
  { intros any x Hx. destruct (tidy_handlers_of any w Htidy) as [_ Hle].
    specialize (Hle x Hx). unfold n. lia. }
  destruct (tidy_handlers_of event w Htidy) as [Hord _].
  destruct (sort_push_split (handlers_of event w) e Hord) as (l1 & l2 & Hsplit & Hsort).
  assert (Hremove : remove_id n (sort (handlers_of event w ++ [e])) = handlers_of event w).
  { rewrite Hsort, Hsplit. apply remove_id_middle; [|reflexivity].
    intros x Hx. assert (id x < n)%nat; [|lia].
    apply (Hfresh event). rewrite Hsplit. apply elem_of_app. left. exact Hx. }
  assert (Hon : on event h options w
    = (Normal n,
       {| service := {| handlers := <[event := sort (handlers_of event w ++ [e])]>
                                      (handlers (service w));
                        handlerIdCounter := n |};
          calls := calls w; console := console w |})) by reflexivity.
  rewrite Hon. cbn [completion final fst snd].
  assert (Hun : forall v hs,
    handlers (service v) !! event = Some hs ->
    final (unsubscribe event n v) = set_handlers event (remove_id n hs) v).
  { intros v hs Hv. unfold unsubscribe, modify, final. cbn. rewrite Hv. reflexivity. }
  rewrite (Hun _ (sort (handlers_of event w ++ [e])))
    by (cbn; apply lookup_insert_eq).
  rewrite Hremove.
  split; [reflexivity|]. split; [exact Hfresh|].
  split; [|split; [|split; [|split]]].
  - unfold count, handlers_of at 1. cbn [service handlers]. rewrite lookup_insert_eq.
    change (length (sort (handlers_of event w ++ [e])) = S (length (handlers_of event w))).
    rewrite Hsort, Hsplit, !length_app. cbn. lia.
  - unfold hasHandlers, handlers_of at 1. cbn [service handlers]. rewrite lookup_insert_eq.
    change ((0 <? length (sort (handlers_of event w ++ [e])))%nat = true).
    rewrite Hsort, length_app. apply Nat.ltb_lt. cbn [length]. lia.
  - intros other Hne. unfold handlers_of. cbn.
    rewrite lookup_insert_ne by congruence. reflexivity.
  - intros any. unfold handlers_of, set_handlers. cbn.
    destruct (decide (any = event)) as [->|Hne].
    + rewrite lookup_insert_eq. reflexivity.
    + rewrite !lookup_insert_ne by congruence. reflexivity.
  - rewrite (Hun _ (handlers_of event w))
      by (unfold set_handlers; cbn; apply lookup_insert_eq).
    rewrite remove_id_fresh.
    + unfold set_handlers. cbn. rewrite insert_insert_eq. reflexivity.
    + intros x Hx. specialize (Hfresh event x Hx). lia.
Qed.

Lemma unsubscribe_undoes_on_witness :
  handlers_of "e" (final (unsubscribe "e" 1 (final (on "e" (Plain "f") no_options initial))))
  = [].
Proof.
  destruct (unsubscribe_undoes_on "e" (Plain "f") no_options initial tidy_initial)
    as (_ & _ & _ & _ & _ & H & _).
  exact (H "e").
Defined.


Lemma ids_sublist (k l : list HandlerEntry) : sublist k l -> sublist (ids k) (ids l).
Proof.
  induction 1 as [|x k l _ IH|x k l _ IH]; cbn.
  - constructor.
  - by apply sublist_skip.
  - by apply sublist_cons.
Qed.

Lemma NoDup_ids_sublist (k l : list HandlerEntry) :
  sublist k l -> NoDup (ids l) -> NoDup (ids k).
Proof. intros H Hnd. apply (sublist_NoDup _ _ Hnd), ids_sublist, H. Qed.

Lemma elem_of_ids n (l : list HandlerEntry) : n ∈ ids l <-> exists x, x ∈ l /\ id x = n.
Proof.
  unfold ids. rewrite list_elem_of_fmap. split; intros (x & H1 & H2); eauto.
Qed.

Lemma remove_id_removes n l : NoDup (ids l) -> n ∉ ids (remove_id n l).
Proof.
  induction l as [|x rest IH]; cbn; intros H; [apply not_elem_of_nil|].
  apply NoDup_cons in H as [Hx Hrest].
  destruct (Nat.eqb_spec (id x) n) as [<-|Hne]; [exact Hx|].
  cbn. rewrite not_elem_of_cons. split; [congruence | auto].
Qed.

(** The one-shot entries an [emit] calls are gone from the array it
    leaves. *)
Lemma visited_once_gone payload fuel :
  forall i hs x y,
    NoDup (ids hs) ->
    x ∈ fst (visited fuel i hs payload) -> is_plain x = false ->
    y ∈ snd (visited fuel i hs payload) -> id y <> id x.
Proof.
  induction fuel as [|fuel IH]; intros i hs x y Hnd Hx Hp Hy; cbn [visited] in Hx, Hy.
  - cbn in Hx. by apply elem_of_nil in Hx.
  - destruct (hs !! i) as [e|] eqn:Hi; [|cbn in Hx; by apply elem_of_nil in Hx].
    destruct (negb (filter e payload)); [by apply (IH (S i) hs x y)|].
    set (hs' := match handler e with
                | Plain _ => hs
                | OnceWrapper _ => remove_id (id e) hs
                end) in *.
    assert (Hsub : sublist hs' hs).
    { unfold hs'. destruct (handler e); [reflexivity | apply remove_id_sublist]. }
    assert (Hnd' : NoDup (ids hs')) by (by apply (NoDup_ids_sublist hs' hs)).
    destruct (visited fuel (S i) hs' payload) as [called left] eqn:Hv.
    cbn [fst snd] in Hx, Hy.
    assert (Hy' : y ∈ snd (visited fuel (S i) hs' payload)) by (by rewrite Hv).
    apply elem_of_cons in Hx as [->|Hx].
    + unfold is_plain in Hp. unfold hs' in *.
      destruct (handler e); [discriminate Hp|].
      destruct (visited_sublist payload fuel (S i) (remove_id (id e) hs)) as [_ Hleft].
      intros Heq. apply (remove_id_removes (id e) hs Hnd).
      apply elem_of_ids. exists y. split; [|exact Heq].
      eapply elem_of_sublist; [exact Hy' | exact Hleft].
    + apply (IH (S i) hs' x y Hnd'); [by rewrite Hv | exact Hp | exact Hy'].
Qed.

Lemma handlers_of_on event h options w any :
  handlers_of any (final (on event h options w))
  = if decide (any = event)
    then sort (handlers_of event w ++
               [{| handler := h; priority := default 0 (opt_priority options);
                   filter := default (fun _ => true) (opt_filter options);
                   async := default false (opt_async options);
                   id := S (handlerIdCounter (service w)) |}])
    else handlers_of any w.
Proof.
  unfold handlers_of at 1. cbn.
  destruct (decide (any = event)) as [->|Hne].
  - rewrite lookup_insert_eq. reflexivity.
  - rewrite lookup_insert_ne by congruence. reflexivity.
Qed.

Lemma handlers_of_unsubscribe event n w any :
  handlers_of any (final (unsubscribe event n w))
  = if decide (any = event) then remove_id n (handlers_of event w)
    else handlers_of any w.
Proof.
  unfold unsubscribe, modify, final. cbn [snd].
  destruct (handlers (service w) !! event) as [hs|] eqn:E.
  - unfold handlers_of, set_handlers. cbn.
    destruct (decide (any = event)) as [->|Hne].
    + rewrite lookup_insert_eq, E. reflexivity.
    + rewrite lookup_insert_ne by congruence. reflexivity.
  - destruct (decide (any = event)) as [->|Hne]; [|reflexivity].
    unfold handlers_of. rewrite E. reflexivity.
Qed.

Lemma handlers_of_emit behaviour event payload w any :
  handlers_of any (final (emit behaviour event payload w))
  = if decide (any = event)
    then snd (visited (length (handlers_of event w)) 0 (handlers_of event w) payload)
    else handlers_of any w.
Proof.
  rewrite emit_run. unfold final, after_emit. cbn [snd].
  unfold handlers_of at 1. cbn [service handlers].
  destruct (handlers (service w) !! event) as [hs|] eqn:E.
  - destruct (decide (any = event)) as [->|Hne].
    + rewrite lookup_insert_eq. reflexivity.
    + rewrite lookup_insert_ne by congruence. reflexivity.
  - destruct (decide (any = event)) as [->|Hne]; [|reflexivity].
    rewrite E. unfold handlers_of. rewrite E. reflexivity.
Qed.

Lemma handlers_of_clear event w any :
  sublist (handlers_of any (final (clear event w))) (handlers_of any w).
Proof.
  unfold handlers_of, clear, modify, final. cbn.
  destruct event as [ev|].
  - destruct (decide (any = ev)) as [->|Hne].
    + rewrite lookup_delete_eq. apply sublist_nil_l.
    + rewrite lookup_delete_ne by congruence. reflexivity.
  - rewrite lookup_empty. apply sublist_nil_l.
Qed.

Lemma unique_shrink w w' :
  (forall any, sublist (handlers_of any w') (handlers_of any w)) ->
  handlerIdCounter (service w') = handlerIdCounter (service w) ->
  unique w -> unique w'.
Proof.
  intros Hsub Hc [H1 H2]. split.
  - intros event. destruct (H1 event) as [Hnd Hle]. split.
    + by apply (NoDup_ids_sublist _ _ (Hsub event)).
    + intros x Hx. rewrite Hc. apply Hle.
      eapply elem_of_sublist; [exact Hx | apply Hsub].
  - intros e1 e2 x y Hne Hx Hy. apply (H2 e1 e2 x y Hne).
    + eapply elem_of_sublist; [exact Hx | apply Hsub].
    + eapply elem_of_sublist; [exact Hy | apply Hsub].
Qed.

Lemma spent_shrink w w' :
  (forall any, sublist (handlers_of any w') (handlers_of any w)) ->
  handlerIdCounter (service w') = handlerIdCounter (service w) ->
  calls w' = calls w ->
  spent w -> spent w'.
Proof.
  intros Hsub Hc Hcalls [H1 H2]. unfold spent, once_calls. rewrite Hcalls, Hc.
  split; [exact H1|]. intros n Hn. destruct (H2 n Hn) as [Hle Hout].
  split; [exact Hle|]. intros event x Hx. apply (Hout event).
  eapply elem_of_sublist; [exact Hx | apply Hsub].
Qed.


Lemma one_shots_sublist l : sublist (one_shots l) l.
Proof.
  induction l as [|x l IH]; cbn; [constructor|].
  destruct (negb (is_plain x)); [by apply sublist_skip | by apply sublist_cons].
Qed.

Lemma elem_of_one_shots x l : x ∈ one_shots l <-> x ∈ l /\ is_plain x = false.
Proof.
  unfold one_shots. rewrite !list_elem_of_In, List.filter_In, negb_true_iff. reflexivity.
Qed.

Lemma calls_emit behaviour event payload w :
  calls (final (emit behaviour event payload w))
  = calls w ++ map (fun e => (e, payload))
                 (fst (visited (length (handlers_of event w)) 0 (handlers_of event w) payload)).
Proof. rewrite emit_run. reflexivity. Qed.

Lemma once_calls_emit behaviour event payload w :
  once_calls (final (emit behaviour event payload w))
  = once_calls w ++
    ids (one_shots (fst (visited (length (handlers_of event w)) 0
                           (handlers_of event w) payload))).
Proof.
  unfold once_calls. rewrite calls_emit, map_app, map_map. cbn [fst].
  rewrite map_id. unfold one_shots, ids. rewrite List.filter_app, map_app. reflexivity.
Qed.

Lemma emit_shrinks behaviour event payload w any :
  sublist (handlers_of any (final (emit behaviour event payload w))) (handlers_of any w).
Proof.
  rewrite handlers_of_emit. destruct (decide (any = event)) as [->|_]; [|reflexivity].
  apply visited_sublist.
Qed.

Lemma unsubscribe_shrinks event n w any :
  sublist (handlers_of any (final (unsubscribe event n w))) (handlers_of any w).
Proof.
  rewrite handlers_of_unsubscribe. destruct (decide (any = event)) as [->|_]; [|reflexivity].
  apply remove_id_sublist.
Qed.

Lemma counter_emit behaviour event payload w :
  handlerIdCounter (service (final (emit behaviour event payload w)))
  = handlerIdCounter (service w).
Proof. rewrite emit_run. reflexivity. Qed.

Lemma counter_unsubscribe event n w :
  handlerIdCounter (service (final (unsubscribe event n w)))
  = handlerIdCounter (service w).
Proof.
  unfold unsubscribe, modify, final. cbn.
  destruct (handlers (service w) !! event); reflexivity.
Qed.

Lemma calls_unsubscribe event n w :
  calls (final (unsubscribe event n w)) = calls w.
Proof.
  unfold unsubscribe, modify, final. cbn.
  destruct (handlers (service w) !! event); reflexivity.
Qed.

Lemma unique_on event h options w :
  tidy w -> unique w -> unique (final (on event h options w)).
Proof.
  intros Htidy [H1 H2].
  set (e := {| handler := h; priority := default 0 (opt_priority options);
               filter := default (fun _ => true) (opt_filter options);
               async := default false (opt_async options);
               id := S (handlerIdCounter (service w)) |}).
  destruct (tidy_handlers_of event w Htidy) as [Hord _].
  destruct (sort_push_split (handlers_of event w) e Hord) as (l1 & l2 & Hsplit & Hsort).
  assert (Hin : forall x, x ∈ sort (handlers_of event w ++ [e]) <->
                          x = e \/ x ∈ handlers_of event w)
    by (intros x; apply sort_push_members).
  assert (Hc : handlerIdCounter (service (final (on event h options w)))
               = S (handlerIdCounter (service w))) by reflexivity.
  split.
  - intros any. rewrite handlers_of_on, Hc. fold e.
    destruct (decide (any = event)) as [->|Hne].
    + split.
      * rewrite Hsort. unfold ids. rewrite map_app. cbn [map].
        rewrite <- Permutation_middle. apply NoDup_cons. split.
        -- rewrite <- map_app, <- Hsplit. intros Hx.
           apply elem_of_ids in Hx as (x & Hx & Heq).
           destruct (H1 event) as [_ Hle]. specialize (Hle x Hx). cbn in Heq. lia.
        -- rewrite <- map_app, <- Hsplit. apply H1.
      * intros x Hx. apply Hin in Hx as [->|Hx]; [cbn; lia|].
        destruct (H1 event) as [_ Hle]. specialize (Hle x Hx). lia.
    + destruct (H1 any) as [Hnd Hle]. split; [exact Hnd|].
      intros x Hx. specialize (Hle x Hx). lia.
  - intros e1 e2 x y Hne. rewrite !handlers_of_on. fold e.
    destruct (decide (e1 = event)) as [->|N1]; destruct (decide (e2 = event)) as [->|N2];
      try congruence.
    + intros Hx Hy. apply Hin in Hx as [->|Hx]; [|by apply (H2 event e2)].
      destruct (H1 e2) as [_ Hle]. specialize (Hle y Hy). cbn. lia.
    + intros Hx Hy. apply Hin in Hy as [->|Hy]; [|by apply (H2 e1 event)].
      destruct (H1 e1) as [_ Hle]. specialize (Hle x Hx). cbn. lia.
    + apply H2. exact Hne.
Qed.

Lemma spent_on event h options w :
  spent w -> spent (final (on event h options w)).
Proof.
  intros [H1 H2]. split; [exact H1|].
  intros n Hn. destruct (H2 n Hn) as [Hle Hout].
  split; [cbn; lia|].
  intros any x. rewrite handlers_of_on.
  destruct (decide (any = event)) as [->|_]; [|apply Hout].
  intros Hx. apply sort_push_members in Hx as [->|Hx]; [cbn; lia | by apply (Hout event)].
Qed.

Lemma spent_emit behaviour event payload w :
  unique w -> spent w -> spent (final (emit behaviour event payload w)).
Proof.
  intros [U1 U2] [H1 H2].
  set (hs := handlers_of event w).
  set (v := visited (length hs) 0 hs payload).
  assert (Hcalled : sublist (fst v) hs).
  { destruct (visited_sublist payload (length hs) 0 hs) as [Hs _]. exact Hs. }
  assert (Hnew : forall n, n ∈ ids (one_shots (fst v)) ->
                   exists x, x ∈ fst v /\ is_plain x = false /\ x ∈ hs /\ id x = n).
  { intros n Hn. apply elem_of_ids in Hn as (x & Hx & Heq).
    apply elem_of_one_shots in Hx as [Hx Hp].
    exists x. repeat split; try assumption.
    eapply elem_of_sublist; [exact Hx | exact Hcalled]. }
  unfold spent. rewrite once_calls_emit, counter_emit. fold hs. fold v. split.
  - apply NoDup_app. split; [exact H1|]. split.
    + intros n Hold Hn. apply Hnew in Hn as (x & _ & _ & Hx & Heq).
      destruct (H2 n Hold) as [_ Hout]. exact (Hout event x Hx Heq).
    + apply (NoDup_ids_sublist _ hs); [|apply U1].
      etransitivity; [apply one_shots_sublist | exact Hcalled].
  - intros n Hn. apply elem_of_app in Hn as [Hold|Hn].
    + destruct (H2 n Hold) as [Hle Hout]. split; [exact Hle|].
      intros any x Hx. apply (Hout any).
      eapply elem_of_sublist; [exact Hx | apply emit_shrinks].
    + apply Hnew in Hn as (x & Hcalledx & Hp & Hx & <-). split.
      * destruct (U1 event) as [_ Hle]. by apply Hle.
      * intros any y. rewrite handlers_of_emit.
        destruct (decide (any = event)) as [->|Hne].
        -- fold hs. intros Hy.
           apply (visited_once_gone payload (length hs) 0 hs x y); try assumption.
           apply U1.
        -- intros Hy. apply (U2 any event y x Hne Hy Hx).
Qed.

(** The three properties together make the invariant of the router. *)
Lemma router_invariant behaviour history :
  let w := final (exec_all behaviour history initial) in
  tidy w /\ unique w /\ spent w.
Proof.
  cbn zeta.
  assert (H : forall cs w, tidy w /\ unique w /\ spent w ->
    tidy (final (exec_all behaviour cs w)) /\
    unique (final (exec_all behaviour cs w)) /\
    spent (final (exec_all behaviour cs w))).
  { induction cs as [|c rest IH]; intros w Hw; [exact Hw|].
    cbn [exec_all]. unfold bind.
    pose proof (exec_normal behaviour c w) as Hn.
    assert (Hstep : tidy (final (exec behaviour c w)) /\
                    unique (final (exec behaviour c w)) /\
                    spent (final (exec behaviour c w))).
    { destruct Hw as (Ht & Hu & Hs).
      split; [by apply tidy_exec|].
      destruct c as [event fn options | event fn | event n | event payload | event].
      - assert (E : final (exec behaviour (On event fn options) w)
                    = final (on event (Plain fn) options w)) by reflexivity.
        rewrite E. split; [by apply unique_on | by apply spent_on].
      - assert (E : final (exec behaviour (Once event fn) w)
                    = final (on event (OnceWrapper fn) no_options w)) by reflexivity.
        rewrite E. split; [by apply unique_on | by apply spent_on].
      - cbn [exec]. split.
        + apply (unique_shrink w); [apply unsubscribe_shrinks | apply counter_unsubscribe | exact Hu].
        + apply (spent_shrink w); [apply unsubscribe_shrinks | apply counter_unsubscribe
                                  | apply calls_unsubscribe | exact Hs].
      - cbn [exec]. split.
        + apply (unique_shrink w); [apply emit_shrinks | apply counter_emit | exact Hu].
        + by apply spent_emit.
      - cbn [exec]. split.
        + apply (unique_shrink w); [apply handlers_of_clear | reflexivity | exact Hu].
        + apply (spent_shrink w); [apply handlers_of_clear | reflexivity | reflexivity | exact Hs]. }
    destruct (exec behaviour c w) as [[[]|t] w1]; cbn in Hn, Hstep; [|discriminate Hn].
    by apply IH. }
  apply H. split; [apply tidy_initial|]. split.
  - split.
    + intros event. split; [constructor|]. intros x Hx. by apply elem_of_nil in Hx.
    + intros e1 e2 x y _ Hx. by apply elem_of_nil in Hx.
  - split; [constructor|]. intros n Hn. by apply elem_of_nil in Hn.
Qed.

(** X10.  After any history of registrations, removals, emissions and
    clears, whatever the handlers do, no registration made with [once]
    has been called more than once, and one that has been called is
    registered no longer: the wrapper unsubscribes itself before it calls
    the handler, so a handler that throws is removed as well. *)
Theorem one_shot_hook_is_called_at_most_once
    (behaviour : string -> Payload -> Outcome) (history : list Command) :
  let w := final (exec_all behaviour history initial) in
  NoDup (once_calls w) /\
  forall e payload event,
    (e, payload) ∈ calls w -> is_plain e = false -> e ∉ handlers_of event w.
Proof.
  cbn zeta. destruct (router_invariant behaviour history) as (_ & _ & [H1 H2]).
  split; [exact H1|].
  intros e payload event Hcall Hp Hin.
  assert (Hn : id e ∈ once_calls (final (exec_all behaviour history initial))).
  { unfold once_calls. apply elem_of_ids. exists e. split; [|reflexivity].
    apply elem_of_one_shots. split; [|exact Hp].
    apply list_elem_of_fmap. exists (e, payload). split; [reflexivity | exact Hcall]. }
  destruct (H2 _ Hn) as [_ Hout]. exact (Hout event e Hin eq_refl).
Qed.


Lemma NoDup_ids_inj (l : list HandlerEntry) x y :
  NoDup (ids l) -> x ∈ l -> y ∈ l -> id x = id y -> x = y.
Proof.
  induction l as [|z l IH]; cbn; intros Hnd Hx Hy Heq; [by apply elem_of_nil in Hx|].
  apply NoDup_cons in Hnd as [Hz Hnd].
  apply elem_of_cons in Hx as [->|Hx]; apply elem_of_cons in Hy as [->|Hy].
  - reflexivity.
  - exfalso. apply Hz. apply elem_of_ids. exists y. by split.
  - exfalso. apply Hz. apply elem_of_ids. exists x. by split.
  - by apply IH.
Qed.

Lemma remove_id_keeps n l y : y ∈ l -> id y <> n -> y ∈ remove_id n l.
Proof.
  induction l as [|x l IH]; cbn; intros Hy Hne; [exact Hy|].
  apply elem_of_cons in Hy as [->|Hy].
  - destruct (Nat.eqb_spec (id x) n); [contradiction | left].
  - destruct (Nat.eqb_spec (id x) n); [exact Hy | right; by apply IH].
Qed.

(** An entry leaves the array during an [emit] only by being called. *)
Lemma visited_keeps payload fuel :
  forall i hs y,
    NoDup (ids hs) -> y ∈ hs ->
    y ∉ fst (visited fuel i hs payload) -> y ∈ snd (visited fuel i hs payload).
Proof.
  induction fuel as [|fuel IH]; intros i hs y Hnd Hy Hout; cbn [visited] in *; [exact Hy|].
  destruct (hs !! i) as [e|] eqn:Hi; [|exact Hy].
  destruct (negb (filter e payload)); [by apply IH|].
  set (hs' := match handler e with
              | Plain _ => hs
              | OnceWrapper _ => remove_id (id e) hs
              end) in *.
  assert (Hsub : sublist hs' hs).
  { unfold hs'. destruct (handler e); [reflexivity | apply remove_id_sublist]. }
  destruct (visited fuel (S i) hs' payload) as [called left] eqn:Hv.
  cbn [fst snd] in *.
  apply not_elem_of_cons in Hout as [Hne Hout].
  assert (Hy' : y ∈ hs').
  { unfold hs'. destruct (handler e); [exact Hy|].
    apply remove_id_keeps; [exact Hy|]. intros Heq. apply Hne.
    apply (NoDup_ids_inj hs); try assumption.
    eapply list_elem_of_lookup_2; eauto. }
  specialize (IH (S i) hs' y (NoDup_ids_sublist _ _ Hsub Hnd) Hy').
  rewrite Hv in IH. apply IH. exact Hout.
Qed.

Section Skip.

Variable payload : Payload.
Variables (pre rest : list HandlerEntry) (o b : HandlerEntry).
Hypothesis distinct : NoDup (ids (pre ++ o :: b :: rest)).
Hypothesis plain : Forall (fun e => is_plain e = true) pre.
Hypothesis one_shot : is_plain o = false.
Hypothesis accepted : filter o payload = true.

Lemma skip_lookup_pre i :
  (i < length pre)%nat ->
  exists e, (pre ++ o :: b :: rest) !! i = Some e /\ is_plain e = true /\ e <> b.
Proof.
  intros Hi. destruct (lookup_lt_is_Some_2 pre i Hi) as [e He].
  exists e. rewrite lookup_app_l by exact Hi. split; [exact He|].
  assert (Hin : e ∈ pre) by (eapply list_elem_of_lookup_2; eauto).
  split; [rewrite Forall_forall in plain; by apply plain|].
  intros ->. unfold ids in distinct. rewrite map_app in distinct.
  apply NoDup_app in distinct as (_ & Hdisj & _).
  apply (Hdisj (id b)); [apply elem_of_ids; eauto|].
  cbn. right. left.
Qed.

Lemma skip_after_removal :
  remove_id (id o) (pre ++ o :: b :: rest) = pre ++ b :: rest.
Proof.
  apply remove_id_middle; [|reflexivity].
  intros x Hx Heq. unfold ids in distinct. rewrite map_app in distinct.
  apply NoDup_app in distinct as (_ & Hdisj & _).
  apply (Hdisj (id x)); [apply elem_of_ids; eauto|].
  cbn. rewrite Heq. left.
Qed.

Lemma skip_not_in_rest : (b ∉ rest) /\ b <> o.
Proof.
  unfold ids in distinct. rewrite map_app in distinct.
  apply NoDup_app in distinct as (_ & _ & Hnd). cbn in Hnd.
  apply NoDup_cons in Hnd as [Ho Hnd]. apply NoDup_cons in Hnd as [Hb _].
  split.
  - intros Hin. apply Hb. apply elem_of_ids. eauto.
  - intros ->. apply Ho. left.
Qed.

Lemma skip_not_called fuel :
  forall i, (i <= length pre)%nat ->
    b ∉ fst (visited fuel i (pre ++ o :: b :: rest) payload).
Proof.
  induction fuel as [|fuel IH]; intros i Hi; cbn [visited]; [apply not_elem_of_nil|].
  destruct (decide (i = length pre)) as [->|Hne].
  - rewrite list_lookup_middle by reflexivity.
    rewrite accepted. cbn [negb].
    unfold is_plain in one_shot. destruct (handler o) eqn:Ho; [discriminate one_shot|].
    rewrite skip_after_removal.
    destruct (visited_sublist payload fuel (S (length pre)) (pre ++ b :: rest)) as [Hs _].
    destruct (visited fuel (S (length pre)) (pre ++ b :: rest) payload) as [called left].
    destruct skip_not_in_rest as [Hrest Hbo].
    cbn [fst] in *. apply not_elem_of_cons. split; [exact Hbo|].
    intros Hin. apply Hrest.
    eapply elem_of_sublist in Hs; [|exact Hin].
    rewrite drop_app_ge in Hs by lia.
    replace (S (length pre) - length pre)%nat with 1%nat in Hs by lia.
    exact Hs.
  - destruct (skip_lookup_pre i) as (e & He & Hp & Hb); [lia|].
    rewrite He. destruct (negb (filter e payload)); [apply IH; lia|].
    unfold is_plain in Hp. destruct (handler e); [|discriminate Hp].
    specialize (IH (S i)).
    destruct (visited fuel (S i) (pre ++ o :: b :: rest) payload) as [called left].
    cbn [fst] in *. apply not_elem_of_cons. split; [congruence | apply IH; lia].
Qed.

Lemma skip_called fuel :
  forall i, (i <= length pre)%nat -> (length pre < fuel + i)%nat ->
    o ∈ fst (visited fuel i (pre ++ o :: b :: rest) payload).
Proof.
  induction fuel as [|fuel IH]; intros i Hi Hfuel; cbn [visited]; [lia|].
  destruct (decide (i = length pre)) as [->|Hne].
  - rewrite list_lookup_middle by reflexivity.
    rewrite accepted. cbn [negb].
    destruct (visited fuel (S (length pre)) _ payload) as [called left]. left.
  - destruct (skip_lookup_pre i) as (e & He & Hp & Hb); [lia|].
    rewrite He. destruct (negb (filter e payload)); [apply IH; lia|].
    unfold is_plain in Hp. destruct (handler e); [|discriminate Hp].
    specialize (IH (S i)).
    destruct (visited fuel (S i) (pre ++ o :: b :: rest) payload) as [called left].
    cbn [fst] in *. right. apply IH; lia.
Qed.

End Skip.

(** X11.  [emit] walks the live array while a one-shot wrapper splices
    itself out of it, so the entry that stands directly behind a one-shot
    entry moves into the slot just visited: when the entries before the
    one-shot entry were registered with [on], the emit calls the one-shot
    entry, removes it, and does not call the entry behind it, which stays
    registered. *)
Theorem entry_behind_one_shot_is_skipped
    (behaviour : string -> Payload -> Outcome) (history : list Command)
    (event : string) (payload : Payload)
    (pre rest : list HandlerEntry) (o b : HandlerEntry) :
  let w := final (exec_all behaviour history initial) in
  let w' := final (emit behaviour event payload w) in
  handlers_of event w = pre ++ o :: b :: rest ->
  Forall (fun e => is_plain e = true) pre ->
  is_plain o = false ->
  filter o payload = true ->
  o ∈ called_between w w' /\
  (b ∉ called_between w w') /\
  (o ∉ handlers_of event w') /\
  b ∈ handlers_of event w'.
Proof.
  cbn zeta. intros Hhs Hplain Honce Hacc.
  destruct (router_invariant behaviour history) as (_ & [U1 _] & _).
  set (w := final (exec_all behaviour history initial)) in *.
  assert (Hnd : NoDup (ids (pre ++ o :: b :: rest))) by (rewrite <- Hhs; apply U1).
  rewrite called_during_emit, handlers_of_emit.
  destruct (decide (event = event)); [|congruence].
  rewrite Hhs.
  assert (Ho : o ∈ fst (visited (length (pre ++ o :: b :: rest)) 0
                          (pre ++ o :: b :: rest) payload)).
  { apply skip_called; try assumption; [lia|]. rewrite length_app. cbn. lia. }
  assert (Hb : b ∉ fst (visited (length (pre ++ o :: b :: rest)) 0
                          (pre ++ o :: b :: rest) payload)).
  { apply skip_not_called; try assumption. lia. }
  split; [exact Ho|]. split; [exact Hb|]. split.
  - intros Hin.
    exact (visited_once_gone payload _ 0 _ o o Hnd Ho Honce Hin eq_refl).
  - apply visited_keeps; [exact Hnd | | exact Hb].
    apply elem_of_app. right. right. left.
Qed.

Lemma entry_behind_one_shot_is_skipped_witness :
  let w := final (exec_all calm [Once "e" "a"; On "e" "b" no_options] initial) in
  let w' := final (emit calm "e" [] w) in
  let o := {| handler := OnceWrapper "a"; priority := 0; filter := fun _ => true;
              async := false; id := 1 |} in
  let b := {| handler := Plain "b"; priority := 0; filter := fun _ => true;
              async := false; id := 2 |} in
  o ∈ called_between w w' /\
  (b ∉ called_between w w') /\
  (o ∉ handlers_of "e" w') /\
  b ∈ handlers_of "e" w'.
Proof.
  apply (entry_behind_one_shot_is_skipped calm
           [Once "e" "a"; On "e" "b" no_options] "e" [] [] []);
    [reflexivity | constructor | reflexivity | reflexivity].
Defined.

End HookRunFacts.

(* ===================================================================== *)
(** ** Message bus: histories *)
(* ===================================================================== *)

Module BusRunFacts.
Import Bus BusSpec BusRuns BusFacts.

Lemma subscriptions_published behaviour channel message sender w any :
  subscriptions_of any (after_publish behaviour channel message sender w)
  = if decide (any = channel)
    then List.filter (fun sub => negb (once sub && returns behaviour message sender sub))
           (subscriptions_of channel w)
    else subscriptions_of any w.
Proof.
  unfold after_publish.
  unfold subscriptions_of at 1. cbn [bus].
  destruct (channels (bus w) !! channel) as [subs|] eqn:E.
  - unfold set_channel. cbn [channels].
    destruct (decide (any = channel)) as [->|Hne].
    + rewrite lookup_insert_eq. unfold subscriptions_of. rewrite E. reflexivity.
    + rewrite lookup_insert_ne by congruence. reflexivity.
  - destruct (decide (any = channel)) as [->|Hne]; [|reflexivity].
    rewrite E. unfold subscriptions_of. rewrite E. reflexivity.
Qed.

Lemma subscriptions_after_publish behaviour channel message sender w any :
  subscriptions_of any (final (publish behaviour channel message sender w))
  = if decide (any = channel)
    then List.filter (fun sub => negb (once sub &&
                                       returns behaviour message (default "system" sender) sub))
           (subscriptions_of channel w)
    else subscriptions_of any w.
Proof. rewrite publish_run. apply subscriptions_published. Qed.

Lemma filter_sublist {A} (f : A -> bool) (l : list A) : sublist (List.filter f l) l.
Proof.
  induction l as [|x l IH]; cbn; [constructor|].
  destruct (f x); [by apply sublist_skip | by apply sublist_cons].
Qed.

Lemma Forall_of_sublist {A} (P : A -> Prop) (k l : list A) :
  sublist k l -> Forall P l -> Forall P k.
Proof.
  intros Hs Hl. rewrite Forall_forall in *. intros x Hx. apply Hl.
  eapply elem_of_sublist; eauto.
Qed.





Lemma add_subscription_run channel handler subscriber once w :
  add_subscription channel handler subscriber once w
  = (Normal (allocated w),
     {| bus := set_channel channel
                 (subscriptions_of channel w ++
                  [{| Bus.handler := handler; Bus.subscriber := subscriber;
                      Bus.once := once; ref := allocated w |}]) (bus w);
        allocated := S (allocated w); promises := promises w;
        timers := timers w; timers_set := timers_set w;
        calls := calls w; console := console w |}).
Proof. reflexivity. Qed.

Lemma subscriptions_of_set channel subs w any :
  subscriptions_of any (with_bus (set_channel channel subs) w)
  = if decide (any = channel) then subs else subscriptions_of any w.
Proof.
  unfold subscriptions_of, with_bus, set_channel. cbn.
  destruct (decide (any = channel)) as [->|Hne].
  - rewrite lookup_insert_eq. reflexivity.
  - rewrite lookup_insert_ne by congruence. reflexivity.
Qed.

Lemma subscriptions_after_add channel handler subscriber once w any :
  subscriptions_of any (final (add_subscription channel handler subscriber once w))
  = if decide (any = channel)
    then subscriptions_of channel w ++
         [{| Bus.handler := handler; Bus.subscriber := subscriber;
             Bus.once := once; ref := allocated w |}]
    else subscriptions_of any w.
Proof.
  rewrite add_subscription_run. unfold subscriptions_of, final, set_channel. cbn.
  destruct (decide (any = channel)) as [->|Hne].
  - rewrite lookup_insert_eq. reflexivity.
  - rewrite lookup_insert_ne by congruence. reflexivity.
Qed.

Lemma remove_ref_sublist r l : sublist (remove_ref r l) l.
Proof.
  induction l as [|x l IH]; cbn; [constructor|].
  destruct (Nat.eqb (ref x) r); [by apply sublist_cons | by apply sublist_skip].
Qed.

Lemma remove_ref_last r l s :
  (forall x, x ∈ l -> ref x <> r) -> ref s = r -> remove_ref r (l ++ [s]) = l.
Proof.
  induction l as [|x l IH]; cbn; intros Hl Hs.
  - rewrite Hs, Nat.eqb_refl. reflexivity.
  - destruct (Nat.eqb_spec (ref x) r) as [E|_].
    + exfalso. apply (Hl x); [left | exact E].
    + rewrite IH; [reflexivity | | exact Hs]. intros y Hy. apply Hl. right. exact Hy.
Qed.

Lemma subscriptions_after_unsubscribe channel r w any :
  subscriptions_of any (final (unsubscribe channel r w))
  = if decide (any = channel) then remove_ref r (subscriptions_of channel w)
    else subscriptions_of any w.
Proof.
  unfold unsubscribe, modify, final. cbn [snd].
  destruct (channels (bus w) !! channel) as [subs|] eqn:E.
  - rewrite subscriptions_of_set.
    destruct (decide (any = channel)); [|reflexivity].
    unfold subscriptions_of. rewrite E. reflexivity.
  - destruct (decide (any = channel)) as [->|]; [|reflexivity].
    unfold subscriptions_of. rewrite E. reflexivity.
Qed.

Lemma registerMethod_run snappId method handler w :
  registerMethod snappId method handler w
  = let t := match methods (bus w) !! snappId with
             | Some t => t
             | None => {| table_ref := allocated w; registrations := ∅ |}
             end in
    (Normal (table_ref t),
     {| bus := {| channels := channels (bus w);
                  methods := <[snappId := {| table_ref := table_ref t;
                                             registrations := <[method := handler]>
                                                                (registrations t) |}]>
                               (methods (bus w));
                  requestResolvers := requestResolvers (bus w) |};
        allocated := match methods (bus w) !! snappId with
                     | Some _ => allocated w
                     | None => S (allocated w)
                     end;
        promises := promises w; timers := timers w; timers_set := timers_set w;
        calls := calls w; console := console w |}).
Proof.
  unfold registerMethod, bind, Eff.get.
  destruct (methods (bus w) !! snappId); reflexivity.
Qed.

Lemma request_run behaviour requestId targetSnapp method payload timeout w :
  request behaviour requestId targetSnapp method payload timeout w
  = (Normal (length (promises w)),
     after_publish behaviour ("rpc:" +:+ targetSnapp +:+ ":" +:+ method)
       (Envelope requestId payload "requester") "system"
       (awaiting requestId targetSnapp method timeout w)).
Proof.
  cbv [request bind new_promise setTimeout gets modify ret].
  rewrite publish_run. reflexivity.
Qed.

Lemma sound_step w w' :
  (forall any sub, sub ∈ subscriptions_of any w' ->
     sub ∈ subscriptions_of any w \/ (allocated w <= ref sub < allocated w')%nat) ->
  (allocated w <= allocated w')%nat ->
  fresh_timers w' ->
  Forall (fun t => (rejects t < length (promises w'))%nat) (timers w') ->
  sound w -> sound w'.
Proof.
  intros Hsubs Hle Hf Hr (H1 & _ & _). split; [|split; assumption].
  intros any sub Hin. destruct (Hsubs any sub Hin) as [Hold|Hnew]; [|lia].
  specialize (H1 any sub Hold). lia.
Qed.

Lemma sound_same_host w w' :
  (forall any sub, sub ∈ subscriptions_of any w' ->
     sub ∈ subscriptions_of any w \/ (allocated w <= ref sub < allocated w')%nat) ->
  same_host w w' ->
  sound w -> sound w'.
Proof.
  intros Hsubs (Hp & Ht & Hs & Hle) Hw.
  apply (sound_step w w' Hsubs Hle); [| |exact Hw].
  - destruct Hw as (_ & Hf & _). unfold fresh_timers in *. by rewrite Ht, Hs.
  - destruct Hw as (_ & _ & Hr). by rewrite Ht, Hp.
Qed.

Lemma sound_exec behaviour c w :
  sound w ->
  completion (exec behaviour c w) = Normal tt /\ sound (final (exec behaviour c w)).
Proof.
  intros Hw.
  destruct c as [channel handler subscriber | channel handler subscriber | channel r
                | channel message sender | snappId method handler | snappId r method
                | requestId targetSnapp method payload timeout | n | ].
  - split; [reflexivity|].
    assert (E : final (exec behaviour (Subscribe channel handler subscriber) w)
                = final (add_subscription channel handler (default "unknown" subscriber) false w))
      by reflexivity.
    rewrite E.
    apply (sound_same_host w); [|rewrite add_subscription_run; repeat split; cbn; lia|exact Hw].
    intros any sub. rewrite subscriptions_after_add.
    destruct (decide (any = channel)) as [->|_]; [|by left].
    intros Hin. apply elem_of_app in Hin as [Hin|Hin]; [by left|].
    apply list_elem_of_singleton in Hin as ->. right.
    rewrite add_subscription_run. cbn. lia.
  - split; [reflexivity|].
    assert (E : final (exec behaviour (SubscribeOnce channel handler subscriber) w)
                = final (add_subscription channel handler (default "unknown" subscriber) true w))
      by reflexivity.
    rewrite E.
    apply (sound_same_host w); [|rewrite add_subscription_run; repeat split; cbn; lia|exact Hw].
    intros any sub. rewrite subscriptions_after_add.
    destruct (decide (any = channel)) as [->|_]; [|by left].
    intros Hin. apply elem_of_app in Hin as [Hin|Hin]; [by left|].
    apply list_elem_of_singleton in Hin as ->. right.
    rewrite add_subscription_run. cbn. lia.
  - split; [reflexivity|]. cbn [exec].
    apply (sound_same_host w); [| |exact Hw].
    + intros any sub. rewrite subscriptions_after_unsubscribe.
      destruct (decide (any = channel)) as [->|_]; [|by left].
      intros Hin. left. eapply elem_of_sublist; [exact Hin | apply remove_ref_sublist].
    + unfold unsubscribe, modify, final. cbn.
      destruct (channels (bus w) !! channel); repeat split; cbn; lia.
  - cbn [exec]. rewrite publish_run. split; [reflexivity|].
    apply (sound_same_host w); [| repeat split; cbn; lia |exact Hw].
    intros any sub Hin. left.
    assert (Hin' : sub ∈ subscriptions_of any
                     (final (publish behaviour channel message sender w)))
      by (by rewrite publish_run).
    rewrite subscriptions_after_publish in Hin'.
    destruct (decide (any = channel)) as [->|_]; [|exact Hin'].
    eapply elem_of_sublist; [exact Hin' | apply filter_sublist].
  - assert (E : exec behaviour (RegisterMethod snappId method handler) w
      = (Normal tt, final (registerMethod snappId method handler w))).
    { cbn [exec]. unfold bind. rewrite registerMethod_run. reflexivity. }
    rewrite E. split; [reflexivity|]. rewrite registerMethod_run. cbn [final snd].
    apply (sound_same_host w); [| |exact Hw].
    + intros any sub Hin. left. exact Hin.
    + destruct (methods (bus w) !! snappId); repeat split; cbn; lia.
  - split; [reflexivity|]. cbn [exec].
    apply (sound_same_host w); [| |exact Hw].
    + intros any sub Hin. left. revert Hin. unfold unregisterMethod, modify, final. cbn.
      destruct (methods (bus w) !! snappId) as [t|]; [destruct (Nat.eqb _ _)|]; cbn; auto.
    + unfold unregisterMethod, modify, final. cbn.
      destruct (methods (bus w) !! snappId) as [t|]; [destruct (Nat.eqb _ _)|];
        repeat split; cbn; lia.
  - assert (E : exec behaviour (Request requestId targetSnapp method payload timeout) w
      = (Normal tt,
         after_publish behaviour ("rpc:" +:+ targetSnapp +:+ ":" +:+ method)
           (Envelope requestId payload "requester") "system"
           (awaiting requestId targetSnapp method timeout w))).
    { cbn [exec]. unfold bind. rewrite request_run. reflexivity. }
    rewrite E. split; [reflexivity|]. cbn [final snd].
    destruct Hw as (H1 & H2 & H3).
    apply (sound_step w).
    + intros any sub Hin. left.
      rewrite subscriptions_published in Hin.
      destruct (decide (any = _)) as [->|_]; [|exact Hin].
      eapply elem_of_sublist in Hin; [exact Hin | apply filter_sublist].
    + cbn. lia.
    + unfold fresh_timers, after_publish, awaiting. cbn [timers timers_set].
      apply Forall_app. split.
      * eapply Forall_impl; [exact H2|]. cbn. intros; lia.
      * constructor; [cbn; lia | constructor].
    + unfold after_publish, awaiting. cbn [timers promises]. rewrite length_app. cbn [length].
      apply Forall_app. split.
      * eapply Forall_impl; [exact H3|]. cbn. intros; lia.
      * constructor; [cbn; lia | constructor].
    + split; [exact H1 | split; assumption].
  - split; [reflexivity|]. cbn [exec]. unfold fire, modify, final. cbn [snd].
    destruct (List.find _ (timers w)) as [t|]; [|exact Hw].
    destruct Hw as (H1 & H2 & H3).
    apply (sound_step w).
    + intros any sub Hin. left. exact Hin.
    + cbn. lia.
    + unfold fresh_timers. cbn [timers timers_set].
      eapply Forall_of_sublist; [apply filter_sublist | exact H2].
    + cbn [timers promises].
      assert (Hlen : length (reject (rejects t)
                (JsError ("Request timeout: " +:+ target t +:+ "." +:+ Bus.method t))
                (promises w)) = length (promises w)).
      { unfold reject. destruct (promises w !! rejects t) as [[| |]|];
          rewrite ?length_insert; reflexivity. }
      rewrite Hlen. eapply Forall_of_sublist; [apply filter_sublist | exact H3].
    + split; [exact H1 | split; assumption].
  - split; [reflexivity|]. cbn [exec]. unfold clear, modify, final. cbn [snd].
    destruct Hw as (H1 & H2 & H3).
    apply (sound_step w).
    + intros any sub Hin. unfold subscriptions_of in Hin. cbn in Hin.
      rewrite lookup_empty in Hin. by apply elem_of_nil in Hin.
    + cbn. lia.
    + unfold fresh_timers. cbn [timers timers_set].
      eapply Forall_of_sublist; [apply filter_sublist | exact H2].
    + cbn [timers promises].
      eapply Forall_of_sublist; [apply filter_sublist | exact H3].
    + split; [exact H1 | split; assumption].
Qed.

Lemma sound_initial : sound initial.
Proof.
  split; [|split; constructor].
  intros channel sub Hin. by apply elem_of_nil in Hin.
Qed.

Lemma exec_all_cons behaviour c rest w :
  sound w ->
  exec_all behaviour (c :: rest) w
  = exec_all behaviour rest (final (exec behaviour c w)).
Proof.
  intros Hw. destruct (sound_exec behaviour c w Hw) as [Hn _].
  cbn [exec_all]. unfold bind.
  destruct (exec behaviour c w) as [[[]|t] w1]; cbn in Hn; [reflexivity | discriminate Hn].
Qed.

Lemma sound_exec_all behaviour cs :
  forall w, sound w -> sound (final (exec_all behaviour cs w)).
Proof.
  induction cs as [|c rest IH]; intros w Hw; [exact Hw|].
  rewrite exec_all_cons by exact Hw. apply IH.
  by apply sound_exec.
Qed.


(** X13.  In a bus reached by any history, [subscribe] appends a
    subscription whose identity no subscription holds yet, so the channel
    has one subscriber more; calling the function [subscribe] returned
    takes exactly that subscription out again, leaving every channel with
    the subscriptions it had, and calling it again changes nothing. *)
Theorem unsubscribe_undoes_subscribe
    (behaviour : string -> Message -> string -> CallResult) (history : list Command)
    (channel handler : string) (subscriber : option string) :
  let w := final (exec_all behaviour history initial) in
  let r := subscribe channel handler subscriber w in
  let w' := final (unsubscribe channel (allocated w) (final r)) in
  completion r = Normal (allocated w) /\
  (forall any sub, sub ∈ subscriptions_of any w -> ref sub <> allocated w) /\
  subscriptions_of channel (final r)
  = subscriptions_of channel w ++ [subscription handler subscriber (allocated w)] /\
  getSubscriberCount channel (final r) = S (getSubscriberCount channel w) /\
  (forall any, subscriptions_of any w' = subscriptions_of any w) /\
  (forall any, subscriptions_of any (final (unsubscribe channel (allocated w) w'))
               = subscriptions_of any w).
Proof.
  cbn zeta. set (w := final (exec_all behaviour history initial)).
  assert (Hw : sound w) by apply sound_exec_all, sound_initial.
  destruct Hw as (Hrefs & _ & _).
  assert (Hfresh : forall any sub, sub ∈ subscriptions_of any w -> ref sub <> allocated w).
  { intros any sub Hin. specialize (Hrefs any sub Hin). lia. }
  assert (E : subscribe channel handler subscriber w
              = add_subscription channel handler (default "unknown" subscriber) false w)
    by reflexivity.
  rewrite E.
  assert (Hsubs : subscriptions_of channel
                    (final (add_subscription channel handler (default "unknown" subscriber) false w))
                  = subscriptions_of channel w ++ [subscription handler subscriber (allocated w)]).
  { rewrite subscriptions_after_add. destruct (decide (channel = channel)); [reflexivity | congruence]. }
  assert (Hback : forall any,
    subscriptions_of any
      (final (unsubscribe channel (allocated w)
         (final (add_subscription channel handler (default "unknown" subscriber) false w))))
    = subscriptions_of any w).
  { intros any. rewrite subscriptions_after_unsubscribe, Hsubs.
    destruct (decide (any = channel)) as [->|Hne].
    - apply remove_ref_last; [apply Hfresh | reflexivity].
    - rewrite subscriptions_after_add. destruct (decide (any = channel)); [congruence | reflexivity]. }
  split; [reflexivity|]. split; [exact Hfresh|]. split; [exact Hsubs|].
  split; [|split; [exact Hback|]].
  - unfold getSubscriberCount. rewrite Hsubs, length_app. cbn. lia.
  - intros any. rewrite subscriptions_after_unsubscribe, !Hback.
    destruct (decide (any = channel)) as [->|_]; [|reflexivity].
    clear -Hfresh. specialize (Hfresh channel).
    induction (subscriptions_of channel w) as [|x l IH]; [reflexivity|]. cbn.
    destruct (Nat.eqb_spec (ref x) (allocated w)) as [Heq|_].
    + exfalso. apply (Hfresh x); [left | exact Heq].
    + rewrite IH; [reflexivity|]. intros sub Hin. apply Hfresh. right. exact Hin.
Qed.

Lemma promises_exec behaviour c w :
  promises (final (exec behaviour c w))
  = match c with
    | Request _ _ _ _ _ => promises w ++ [Pending]
    | Fire n =>
        match List.find (fun t => Nat.eqb (timer_id t) n) (timers w) with
        | Some t =>
            reject (rejects t)
              (JsError ("Request timeout: " +:+ target t +:+ "." +:+ Bus.method t))
              (promises w)
        | None => promises w
        end
    | _ => promises w
    end.
Proof.
  destruct c as [channel handler subscriber | channel handler subscriber | channel r
                | channel message sender | snappId method handler | snappId r method
                | requestId targetSnapp method payload timeout | n | ]; cbn [exec].
  - reflexivity.
  - reflexivity.
  - unfold unsubscribe, modify, final. cbn.
    destruct (channels (bus w) !! channel); reflexivity.
  - rewrite publish_run. reflexivity.
  - unfold bind. rewrite registerMethod_run. reflexivity.
  - unfold unregisterMethod, modify, final. cbn.
    destruct (methods (bus w) !! snappId) as [t|]; [destruct (Nat.eqb _ _)|]; reflexivity.
  - unfold bind. rewrite request_run. reflexivity.
  - unfold fire, modify, final. cbn.
    destruct (List.find _ (timers w)); reflexivity.
  - reflexivity.
Qed.


Lemma bus_run_normal behaviour c w : completion (exec behaviour c w) = Normal tt.
Proof.
  destruct c; cbn [exec]; try reflexivity.
  - rewrite publish_run. reflexivity.
  - unfold bind. rewrite registerMethod_run. reflexivity.
  - unfold bind. rewrite request_run. reflexivity.
Qed.

Lemma exec_all_step behaviour c rest w :
  exec_all behaviour (c :: rest) w
  = exec_all behaviour rest (final (exec behaviour c w)).
Proof.
  pose proof (bus_run_normal behaviour c w) as Hn.
  cbn [exec_all]. unfold bind.
  destruct (exec behaviour c w) as [[[]|t] w1]; cbn in Hn; [reflexivity | discriminate Hn].
Qed.

Lemma unanswered_reject p target method l :
  Forall unanswered l ->
  Forall unanswered
    (reject p (JsError ("Request timeout: " +:+ target +:+ "." +:+ method)) l).
Proof.
  intros H. unfold reject. destruct (l !! p) as [[| |]|]; try exact H.
  apply Forall_insert; [exact H | reflexivity].
Qed.

(** X14.  Nothing in the bus ever fulfils a request.  After any history
    of subscriptions, publications, method registrations, requests, timer
    callbacks and clears, whatever the subscribers do, every promise
    [request] has returned is either still pending or has been rejected
    with the timeout error; the handlers given to [registerMethod] are
    stored and never called. *)
Theorem request_is_never_answered
    (behaviour : string -> Message -> string -> CallResult) (history : list Command) :
  Forall unanswered (promises (final (exec_all behaviour history initial))).
Proof.
  assert (H : forall cs w, Forall unanswered (promises w) ->
                Forall unanswered (promises (final (exec_all behaviour cs w)))).
  { induction cs as [|c rest IH]; intros w Hw; [exact Hw|].
    rewrite exec_all_step. apply IH. rewrite promises_exec.
    destruct c; try exact Hw.
    - apply Forall_app. split; [exact Hw | constructor; [exact I | constructor]].
    - destruct (List.find _ (timers w)); [|exact Hw].
      by apply unanswered_reject. }
  apply H. constructor.
Qed.






(** X16.  [registerMethod] files the handler under the app and the method
    name, replacing whatever was filed there, and leaves every other
    registration alone.  The function it returns deletes by method name
    from the app's table: after a second registration of the same method
    the function returned by the first one removes the second handler. *)
Theorem unregister_removes_current_handler
    (snappId method h1 h2 : string) (w : World) :
  let r1 := registerMethod snappId method h1 w in
  let r2 := registerMethod snappId method h2 (final r1) in
  registered_method snappId method (final r1) = Some h1 /\
  registered_method snappId method (final r2) = Some h2 /\
  completion r2 = completion r1 /\
  (forall r, completion r1 = Normal r ->
     registered_method snappId method
       (final (unregisterMethod snappId r method (final r2))) = None) /\
  (forall a m, (a, m) <> (snappId, method) ->
     registered_method a m (final r2) = registered_method a m w).
Proof.
  cbn zeta. rewrite !registerMethod_run. cbn zeta. cbn [final snd completion fst bus methods].
  rewrite !lookup_insert_eq. cbn [table_ref registrations].
  unfold registered_method. cbn [bus methods].
  rewrite !lookup_insert_eq. cbn [registrations]. rewrite !lookup_insert_eq.
  split; [reflexivity|]. split; [reflexivity|]. split; [reflexivity|]. split.
  - intros r [= <-]. unfold unregisterMethod, modify, final. cbn [snd bus methods].
    rewrite lookup_insert_eq. cbn [table_ref]. rewrite Nat.eqb_refl.
    cbn [with_bus bus methods]. rewrite lookup_insert_eq. cbn [registrations].
    apply lookup_delete_eq.
  - intros a m Hne. rewrite insert_insert_eq.
    destruct (decide (a = snappId)) as [->|Ha].
    + rewrite lookup_insert_eq. cbn [registrations].
      assert (Hm : m <> method) by congruence.
      rewrite !lookup_insert_ne by congruence.
      destruct (methods (bus w) !! snappId); [reflexivity | apply lookup_empty].
    + rewrite lookup_insert_ne by congruence. reflexivity.
Qed.

End BusRunFacts.

(* ===================================================================== *)
(** ** State store: files and restarts *)
(* ===================================================================== *)

Module StateRunFacts.
Import State StateSpec StateRuns StateFacts.

Lemma append_cons c (s1 s2 : string) : String c s1 +:+ s2 = String c (s1 +:+ s2).
Proof. reflexivity. Qed.

Lemma safe_underscore : is_safe_char "_" = true.
Proof. reflexivity. Qed.

Lemma sanitize_char_safe c :
  is_safe_char (if is_safe_char c then c else "_"%char) = true.
Proof. destruct (is_safe_char c) eqn:E; [exact E | reflexivity]. Qed.

Lemma sanitizePath_safe s : safe (sanitizePath s) = true.
Proof.
  induction s as [|c s IH]; [reflexivity|]. cbn [sanitizePath safe].
  rewrite sanitize_char_safe, IH. reflexivity.
Qed.

Lemma sanitizePath_of_safe s : safe s = true -> sanitizePath s = s.
Proof.
  induction s as [|c s IH]; [reflexivity|]. cbn [sanitizePath safe].
  intros H. apply andb_true_iff in H as [Hc Hs]. rewrite Hc, IH by exact Hs. reflexivity.
Qed.

Lemma sanitizePath_length s : String.length (sanitizePath s) = String.length s.
Proof. induction s as [|c s IH]; [reflexivity|]. cbn. by rewrite IH. Qed.

Lemma sanitizePath_app s1 s2 :
  sanitizePath (s1 +:+ s2) = sanitizePath s1 +:+ sanitizePath s2.
Proof.
  induction s1 as [|c s1 IH]; [reflexivity|].
  rewrite append_cons. cbn [sanitizePath]. rewrite append_cons, IH. reflexivity.
Qed.

Lemma split_at_colon_full ns key :
  split_at_colon (ns +:+ ":" +:+ key)
  = if no_colon ns then (ns, key)
    else (fst (split_at_colon ns), snd (split_at_colon ns) +:+ ":" +:+ key).
Proof.
  induction ns as [|c ns IH]; [reflexivity|].
  rewrite append_cons. cbn [split_at_colon no_colon].
  destruct (Ascii.eqb c ":") eqn:Hc; cbn [negb andb]; [reflexivity|].
  rewrite IH. destruct (no_colon ns); [reflexivity|].
  destruct (split_at_colon ns) as [a b]. reflexivity.
Qed.

Lemma getFilePath_plain ns key :
  no_colon ns = true ->
  getFilePath (getFullKey ns key)
  = {| dir := sanitizePath ns; stem := sanitizePath key |}.
Proof.
  intros H. unfold getFilePath, getFullKey. rewrite split_at_colon_full, H. reflexivity.
Qed.

(** Where an entry lives depends on the key through [sanitizePath] only. *)
Lemma getFilePath_sanitised ns k1 k2 :
  sanitizePath k1 = sanitizePath k2 ->
  getFilePath (getFullKey ns k1) = getFilePath (getFullKey ns k2).
Proof.
  intros H. unfold getFilePath, getFullKey. rewrite !split_at_colon_full.
  destruct (no_colon ns); [by rewrite H|].
  destruct (split_at_colon ns) as [a b]. cbn [fst snd].
  rewrite !sanitizePath_app, H. reflexivity.
Qed.

Lemma loaded_path k1 k2 w w' :
  getFilePath k1 = getFilePath k2 ->
  crypto (service w) = crypto (service w') -> disk w = disk w' ->
  loaded k1 w = loaded k2 w'.
Proof.
  intros Hp Hc Hd. unfold loaded, readFile. rewrite Hp, Hc, Hd. reflexivity.
Qed.

Lemma restore_from_disk t snappId key dflt namespace w :
  memory_get (default snappId namespace) key w = None ->
  completion (restore t snappId key dflt namespace w)
  = Normal (match loaded (getFullKey (default snappId namespace) key) w with
            | Some e => if isExpired t e then dflt else value e
            | None => dflt
            end).
Proof.
  intros Hm. unfold restore, bind, gets. rewrite Hm.
  destruct (loadFromDisk_run (getFullKey (default snappId namespace) key) w) as [Hc _].
  destruct (loadFromDisk _ w) as [c w1]. cbn in Hc. subst c.
  destruct (loaded _ w) as [e|]; [|reflexivity].
  destruct (isExpired t e); reflexivity.
Qed.


Lemma lapsed_entry now v options t :
  isExpired t (entry_of now v options) = lapsed now options t.
Proof. reflexivity. Qed.

(** X17.  What [persist] wrote, [restore] of the same namespace and key
    gives back, from the same store and from a store constructed anew
    over the same files: the value while the entry has not expired, the
    default afterwards.  An entry written without a time-to-live (or with
    a time-to-live of zero) never expires.  The new store reads the value
    from the file, which needs the file [persist] wrote to be the one read
    back. *)
Theorem persisted_value_is_restored (now t : Z) (snappId key : string)
    (v dflt : JsValue) (options : PersistOptions) (w : World) :
  let ns := opt_namespace options in
  let w1 := final (persist now snappId key v options w) in
  completion (restore t snappId key dflt ns w1)
  = Normal (if lapsed now options t then dflt else v) /\
  (reads_back options (getFullKey (default snappId ns) key) w ->
   completion (restore t snappId key dflt ns (restart w1))
   = Normal (if lapsed now options t then dflt else v)) /\
  (nonzero (opt_ttl options) = false -> lapsed now options t = false).
Proof.
  cbn zeta.
  destruct (persist_run now snappId key v options w) as (_ & Hmem & Hload).
  split; [|split].
  - rewrite (restore_from_memory _ _ _ _ _ _ _ Hmem), lapsed_entry. reflexivity.
  - intros Hback. rewrite restore_from_disk by reflexivity.
    rewrite (loaded_path _ (getFullKey (default snappId (opt_namespace options)) key)
               _ (final (persist now snappId key v options w)));
      [|reflexivity | reflexivity | reflexivity].
    rewrite (Hload Hback), lapsed_entry. reflexivity.
  - intros Hz. unfold lapsed, isExpired, entry_of. cbn. rewrite Hz. reflexivity.
Qed.



(** What [remove] leaves: the memory without the key, the disk without
    the two files of the key. *)
Lemma remove_run snappId key namespace w :
  let ns := default snappId namespace in
  let p := getFilePath (getFullKey ns key) in
  remove snappId key namespace w
  = (Normal tt,
     {| service := {| memory := match memory (service w) !! ns with
                                | Some entries => <[ns := delete key entries]> (memory (service w))
                                | None => memory (service w)
                                end;
                      crypto := crypto (service w);
                      changeHandlers := changeHandlers (service w) |};
        disk := match disk w !! dir p with
                | Some files =>
                    <[dir p := delete (file_name p DotEnc) (delete (file_name p DotJson) files)]>
                      (disk w)
                | None => disk w
                end;
        notified := notified w; console := console w |}).
Proof.
  cbn zeta. unfold remove, bind, memory_delete, unlink, modify, with_memory, with_disk. cbn.
  destruct (disk w !! dir (getFilePath (getFullKey (default snappId namespace) key)))
    as [files|] eqn:E; cbn; rewrite ?E; [|reflexivity].
  rewrite lookup_insert_eq, insert_insert_eq. reflexivity.
Qed.

Lemma memory_get_after_remove snappId key namespace w ns' key' :
  memory_get ns' key' (final (remove snappId key namespace w))
  = if decide (ns' = default snappId namespace /\ key' = key) then None
    else memory_get ns' key' w.
Proof.
  rewrite remove_run. unfold memory_get, final. cbn.
  destruct (memory (service w) !! default snappId namespace) as [entries|] eqn:E.
  - destruct (decide (ns' = default snappId namespace)) as [->|Hns].
    + rewrite lookup_insert_eq, E.
      destruct (decide (key' = key)) as [->|Hk].
      * rewrite decide_True by done. apply lookup_delete_eq.
      * rewrite decide_False by tauto. apply lookup_delete_ne. congruence.
    + rewrite decide_False by tauto. rewrite lookup_insert_ne by congruence. reflexivity.
  - destruct (decide (ns' = default snappId namespace /\ key' = key)) as [[-> ->]|_];
      [|reflexivity].
    rewrite E. reflexivity.
Qed.

Lemma readFile_after_remove snappId key namespace w p x :
  readFile p x (final (remove snappId key namespace w))
  = if decide (dir p = dir (getFilePath (getFullKey (default snappId namespace) key)) /\
               (file_name p x = file_name (getFilePath (getFullKey (default snappId namespace) key)) DotJson \/
                file_name p x = file_name (getFilePath (getFullKey (default snappId namespace) key)) DotEnc))
    then None else readFile p x w.
Proof.
  rewrite remove_run. unfold readFile, final. cbn.
  set (q := getFilePath (getFullKey (default snappId namespace) key)).
  destruct (disk w !! dir q) as [files|] eqn:E.
  - destruct (decide (dir p = dir q)) as [Hd|Hd].
    + rewrite Hd, lookup_insert_eq, E.
      destruct (decide (file_name p x = file_name q DotEnc)) as [->|He].
      * rewrite decide_True by tauto. apply lookup_delete_eq.
      * rewrite lookup_delete_ne by congruence.
        destruct (decide (file_name p x = file_name q DotJson)) as [->|Hj].
        -- rewrite decide_True by tauto. apply lookup_delete_eq.
        -- rewrite decide_False by tauto. apply lookup_delete_ne. congruence.
    + rewrite decide_False by tauto. rewrite lookup_insert_ne by congruence. reflexivity.
  - destruct (decide _) as [[Hd _]|_]; [|reflexivity].
    rewrite Hd, E. reflexivity.
Qed.

Lemma loaded_after_remove snappId key namespace w fullKey :
  getFilePath fullKey = getFilePath (getFullKey (default snappId namespace) key) ->
  loaded fullKey (final (remove snappId key namespace w)) = None.
Proof.
  intros Hp. unfold loaded. rewrite !readFile_after_remove, Hp.
  rewrite !decide_True by tauto. reflexivity.
Qed.

(** X18.  After [remove], [restore] of that namespace and key returns
    the default and changes nothing, on the same store and on a store
    constructed anew over the same files; [listKeys] does not list the
    key's file name.  The key is removed from memory and both of its
    files, plain and encrypted, from the disk, whether or not they were
    there. *)
Theorem removed_key_restores_default (t : Z) (snappId key : string)
    (namespace : option string) (dflt : JsValue) (w : World) :
  let w1 := final (remove snappId key namespace w) in
  completion (remove snappId key namespace w) = Normal tt /\
  restore t snappId key dflt namespace w1 = (Normal dflt, w1) /\
  completion (restore t snappId key dflt namespace (restart w1)) = Normal dflt /\
  exists keys,
    completion (listKeys t snappId namespace w1) = Normal keys /\
    (sanitizePath key ∉ keys).
Proof.
  cbn zeta. set (w1 := final (remove snappId key namespace w)).
  assert (Hmem : memory_get (default snappId namespace) key w1 = None).
  { unfold w1. rewrite memory_get_after_remove. rewrite decide_True by done. reflexivity. }
  assert (Hload : forall fullKey,
    getFilePath fullKey = getFilePath (getFullKey (default snappId namespace) key) ->
    loaded fullKey w1 = None) by (intros; by apply loaded_after_remove).
  split; [reflexivity|]. split; [|split].
  - unfold restore, bind, gets. rewrite Hmem.
    specialize (Hload _ eq_refl). unfold loaded in Hload.
    unfold loadFromDisk, bind, Eff.get.
    destruct (readFile _ DotEnc w1) as [c|] eqn:E1.
    + exfalso. unfold w1 in E1. rewrite readFile_after_remove in E1.
      rewrite decide_True in E1 by tauto. discriminate E1.
    + destruct (readFile _ DotJson w1) as [c|] eqn:E2; [|reflexivity].
      exfalso. unfold w1 in E2. rewrite readFile_after_remove in E2.
      rewrite decide_True in E2 by tauto. discriminate E2.
  - rewrite restore_from_disk by reflexivity.
    rewrite (loaded_path _ (getFullKey (default snappId namespace) key) _ w1);
      [|reflexivity | reflexivity | reflexivity].
    rewrite Hload by reflexivity. reflexivity.
  - destruct (listKeys_sound t snappId namespace w1) as (keys & Hk & Hsound).
    exists keys. split; [exact Hk|]. intros Hin.
    destruct (Hsound _ Hin) as (e & He & _).
    rewrite Hload in He; [discriminate He|].
    apply getFilePath_sanitised. apply sanitizePath_of_safe, sanitizePath_safe.
Qed.


Lemma persist_world now snappId key v options w :
  let ns := default snappId (opt_namespace options) in
  let p := getFilePath (getFullKey ns key) in
  let entry := entry_of now v options in
  final (persist now snappId key v options w)
  = {| service := {| memory := <[ns := <[key := entry]> (default ∅ (memory (service w) !! ns))]>
                                 (memory (service w));
                     crypto := crypto (service w);
                     changeHandlers := changeHandlers (service w) |};
       disk := <[dir p := <[file_name p (written_extension (crypto (service w)) entry)
                            := written_text (crypto (service w)) entry]>
                            (default ∅ (disk w !! dir p))]> (disk w);
       notified := notified w ++
                   (if default false (opt_sync options)
                    then map (fun h => (h, {| ev_namespace := ns; ev_key := key;
                                              ev_snappId := snappId |}))
                           (changeHandlers (service w))
                    else []);
       console := console w |}.
Proof.
  cbn zeta. unfold persist. fold (entry_of now v options).
  unfold bind, memory_set, persistToDisk, modify, bind, gets, when, emitChange,
    writeFile, modify, with_memory, with_disk, written_extension, written_text.
  cbn. destruct (crypto (service w)) as [fns|] eqn:E;
    [destruct (default false (opt_encrypted options)) eqn:Henc|];
    destruct (default false (opt_sync options)); cbn; rewrite ?E, ?Henc, ?app_nil_r;
    reflexivity.
Qed.

Lemma memory_get_after_persist now snappId key v options w ns' key' :
  memory_get ns' key' (final (persist now snappId key v options w))
  = if decide (ns' = default snappId (opt_namespace options) /\ key' = key)
    then Some (entry_of now v options)
    else memory_get ns' key' w.
Proof.
  rewrite persist_world. unfold memory_get. cbn.
  destruct (decide (ns' = default snappId (opt_namespace options))) as [->|Hns].
  - rewrite lookup_insert_eq.
    destruct (decide (key' = key)) as [->|Hk].
    + rewrite decide_True by done. apply lookup_insert_eq.
    + rewrite decide_False by tauto. rewrite lookup_insert_ne by congruence.
      destruct (memory (service w) !! default snappId (opt_namespace options));
        [reflexivity | apply lookup_empty].
  - rewrite decide_False by tauto. rewrite lookup_insert_ne by congruence. reflexivity.
Qed.


Lemma loaded_other_dir (w w' : World) fullKey :
  crypto (service w') = crypto (service w) ->
  (forall x, readFile (getFilePath fullKey) x w' = readFile (getFilePath fullKey) x w) ->
  loaded fullKey w' = loaded fullKey w.
Proof. intros Hc Hr. unfold loaded. rewrite !Hr, Hc. reflexivity. Qed.

(** X19.  The file of an entry is named after the sanitised key, so two
    keys that [sanitizePath] maps to the same text share one file.  The
    memory keeps them apart, the disk does not: a store constructed anew
    over the files restores, under either key, what was last persisted
    under the other. *)
Theorem keys_sanitised_alike_share_a_file (now t : Z) (snappId key1 key2 : string)
    (v dflt : JsValue) (options : PersistOptions) (w : World) :
  sanitizePath key1 = sanitizePath key2 ->
  let ns := opt_namespace options in
  let w1 := final (persist now snappId key2 v options w) in
  getFilePath (getFullKey (default snappId ns) key1)
  = getFilePath (getFullKey (default snappId ns) key2) /\
  (key1 <> key2 ->
   memory_get (default snappId ns) key1 w1 = memory_get (default snappId ns) key1 w) /\
  (reads_back options (getFullKey (default snappId ns) key2) w ->
   completion (restore t snappId key1 dflt ns (restart w1))
   = Normal (if lapsed now options t then dflt else v)).
Proof.
  intros Hsan. cbn zeta.
  pose proof (getFilePath_sanitised (default snappId (opt_namespace options)) key1 key2 Hsan)
    as Hpath.
  split; [exact Hpath|]. split.
  - intros Hne. rewrite memory_get_after_persist. rewrite decide_False by tauto. reflexivity.
  - intros Hback. rewrite restore_from_disk by reflexivity.
    destruct (persist_run now snappId key2 v options w) as (_ & _ & Hload).
    rewrite (loaded_path _ (getFullKey (default snappId (opt_namespace options)) key2)
               _ (final (persist now snappId key2 v options w)));
      [|exact Hpath | reflexivity | reflexivity].
    rewrite (Hload Hback), lapsed_entry. reflexivity.
Qed.

Lemma keys_sanitised_alike_share_a_file_witness :
  completion (restore 5 "app" "a/b" (Str "none") None
                (restart (final (persist 0 "app" "a.b" (Str "v") no_options (create None ∅)))))
  = Normal (Str "v").
Proof.
  destruct (keys_sanitised_alike_share_a_file 0 5 "app" "a/b" "a.b" (Str "v") (Str "none")
              no_options (create None ∅) eq_refl) as (_ & _ & H).
  apply H. reflexivity.
Defined.


Lemma clear_run snappId namespace w :
  clear snappId namespace w
  = (Normal tt,
     {| service := {| memory := delete (default snappId namespace) (memory (service w));
                      crypto := crypto (service w);
                      changeHandlers := changeHandlers (service w) |};
        disk := delete (sanitizePath (default snappId namespace)) (disk w);
        notified := notified w; console := console w |}).
Proof. reflexivity. Qed.

Lemma length_append (s1 s2 : string) :
  String.length (s1 +:+ s2) = (String.length s1 + String.length s2)%nat.
Proof.
  induction s1 as [|c s1 IH]; [reflexivity|].
  rewrite append_cons. cbn. by rewrite IH.
Qed.

Lemma longer_differs (s s' : string) c : s <> s +:+ String c s'.
Proof.
  intros H. apply (f_equal String.length) in H.
  rewrite length_append in H. cbn in H. lia.
Qed.

(** X20.  [clear] drops the namespace from memory and removes its
    directory.  For a namespace without a colon that is where its files
    are, so afterwards [restore] returns the default for every key and
    changes nothing, on the same store and on one constructed anew, and
    [listKeys] returns the empty list. *)
Theorem clear_empties_namespace (t : Z) (snappId key : string)
    (namespace : option string) (dflt : JsValue) (w : World) :
  no_colon (default snappId namespace) = true ->
  let w1 := final (clear snappId namespace w) in
  restore t snappId key dflt namespace w1 = (Normal dflt, w1) /\
  completion (restore t snappId key dflt namespace (restart w1)) = Normal dflt /\
  listKeys t snappId namespace w1 = (Normal [], w1).
Proof.
  intros Hns. cbn zeta. rewrite clear_run. cbn [final snd].
  set (w1 := {| service := _ |}).
  assert (Hmem : memory_get (default snappId namespace) key w1 = None).
  { unfold memory_get, w1. cbn. rewrite lookup_delete_eq. reflexivity. }
  assert (Hread : forall x (v : World), disk v = disk w1 ->
            readFile (getFilePath (getFullKey (default snappId namespace) key)) x v = None).
  { intros x v Hv. unfold readFile. rewrite getFilePath_plain by exact Hns.
    rewrite Hv. unfold w1. cbn. rewrite lookup_delete_eq. reflexivity. }
  split; [|split].
  - unfold restore, bind, gets. rewrite Hmem.
    unfold loadFromDisk, bind, Eff.get. rewrite !Hread by reflexivity. reflexivity.
  - rewrite restore_from_disk by reflexivity.
    unfold loaded. rewrite !Hread by reflexivity. reflexivity.
  - unfold listKeys, bind, gets, readdir. unfold w1 at 1. cbn [disk].
    rewrite lookup_delete_eq. reflexivity.
Qed.

Lemma clear_empties_namespace_witness :
  let w0 := final (persist 0 "app" "k" (Str "v") no_options (create None ∅)) in
  completion (restore 1 "app" "k" (Str "none") None (final (clear "app" None w0)))
  = Normal (Str "none").
Proof.
  destruct (clear_empties_namespace 1 "app" "k" None (Str "none")
              (final (persist 0 "app" "k" (Str "v") no_options (create None ∅))) eq_refl)
    as (H & _).
  cbn zeta. rewrite H. reflexivity.
Defined.

(** X21.  The namespace of a file path is the text before the first
    colon of [namespace:key], while [clear] and [listKeys] take the whole
    namespace for the directory.  So the files of a namespace that holds
    a colon are written to one directory and cleared and listed from
    another: after [persist] and [clear], [restore] still returns the
    value, read back from the file [clear] did not remove. *)
Theorem clear_misses_namespace_with_colon (now t : Z) (snappId key a b : string)
    (v dflt : JsValue) (options : PersistOptions) (w : World) :
  no_colon a = true ->
  opt_namespace options = Some (a +:+ ":" +:+ b) ->
  reads_back options (getFullKey (a +:+ ":" +:+ b) key) w ->
  let ns := Some (a +:+ ":" +:+ b) in
  let w1 := final (clear snappId ns (final (persist now snappId key v options w))) in
  dir (getFilePath (getFullKey (a +:+ ":" +:+ b) key)) = sanitizePath a /\
  sanitizePath (a +:+ ":" +:+ b) <> sanitizePath a /\
  completion (restore t snappId key dflt ns w1)
  = Normal (if lapsed now options t then dflt else v).
Proof.
  intros Ha Hopt Hback. cbn zeta.
  assert (Hdir : dir (getFilePath (getFullKey (a +:+ ":" +:+ b) key)) = sanitizePath a).
  { unfold getFilePath, getFullKey.
    replace ((a +:+ ":" +:+ b) +:+ ":" +:+ key) with (a +:+ ":" +:+ (b +:+ ":" +:+ key)).
    - rewrite split_at_colon_full, Ha. reflexivity.
    - symmetry. rewrite ShapeFacts.append_assoc. reflexivity. }
  assert (Hne : sanitizePath (a +:+ ":" +:+ b) <> sanitizePath a).
  { rewrite sanitizePath_app. intros H. symmetry in H. revert H. apply longer_differs. }
  split; [exact Hdir|]. split; [exact Hne|].
  rewrite clear_run. cbn [final snd default].
  set (w0 := final (persist now snappId key v options w)).
  set (w1 := {| service := _ |}).
  assert (Hmem : memory_get (a +:+ ":" +:+ b) key w1 = None).
  { unfold memory_get, w1. cbn. rewrite lookup_delete_eq. reflexivity. }
  rewrite (restore_from_disk t snappId key dflt (Some (a +:+ ":" +:+ b)) w1 Hmem).
  change (default snappId (Some (a +:+ ":" +:+ b))) with (a +:+ ":" +:+ b).
  assert (Hsame : loaded (getFullKey (a +:+ ":" +:+ b) key) w1
                  = loaded (getFullKey (a +:+ ":" +:+ b) key) w0).
  { apply loaded_other_dir; [reflexivity|].
    intros x. unfold readFile. rewrite Hdir. unfold w1. cbn [disk].
    rewrite lookup_delete_ne by exact Hne. reflexivity. }
  rewrite Hsame.
  destruct (persist_run now snappId key v options w) as (_ & _ & Hload).
  rewrite Hopt in Hload.
  change (default snappId (Some (a +:+ ":" +:+ b))) with (a +:+ ":" +:+ b) in Hload.
  unfold w0. rewrite (Hload Hback), lapsed_entry. reflexivity.
Qed.

Lemma clear_misses_namespace_with_colon_witness :
  let w0 := final (persist 0 "app" "k" (Str "v") (in_namespace "team:app") (create None ∅)) in
  completion (restore 1 "app" "k" (Str "none") (Some "team:app")
                (final (clear "app" (Some "team:app") w0)))
  = Normal (Str "v").
Proof.
  destruct (clear_misses_namespace_with_colon 0 1 "app" "k" "team" "app" (Str "v") (Str "none")
              (in_namespace "team:app") (create None ∅))
    as (_ & _ & H); [reflexivity | reflexivity | reflexivity |].
  exact H.
Defined.






(** *** File names *)















(** *** Removing expired entries *)










End StateRunFacts.

(* ===================================================================== *)
(** ** API facade: sessions *)
(* ===================================================================== *)

Module ApiRunFacts.
Import Api ApiSpec ApiSession ApiRuns ApiFacts.






Section Session.

Variable now : Z.
Variable subscribers : string -> Bus.Message -> string -> Bus.CallResult.
Variable handlers : string -> CommandArgs -> HandlerOutcome.

#[local] Abbreviation delegate := (ApiSpec.delegate now subscribers).
#[local] Abbreviation step := (ApiRuns.step now subscribers handlers).
#[local] Abbreviation issued := (ApiRuns.issued now subscribers handlers).

Ltac service_call :=
  match goal with
  | |- context [State.persist ?a ?b ?c ?d ?e ?f] =>
      destruct (State.persist a b c d e f) as [[?|?] ?]
  | |- context [State.restore ?a ?b ?c ?d ?e ?f] =>
      destruct (State.restore a b c d e f) as [[?|?] ?]
  | |- context [State.remove ?a ?b ?c ?d] =>
      destruct (State.remove a b c d) as [[?|?] ?]
  | |- context [State.listKeys ?a ?b ?c ?d] =>
      destruct (State.listKeys a b c d) as [[?|?] ?]
  | |- context [State.clear ?a ?b ?c] =>
      destruct (State.clear a b c) as [[?|?] ?]
  | |- context [Hooks.on ?a ?b ?c ?d] =>
      destruct (Hooks.on a b c d) as [[?|?] ?]
  | |- context [Hooks.once ?a ?b ?c] =>
      destruct (Hooks.once a b c) as [[?|?] ?]
  | |- context [Bus.publish ?a ?b ?c ?d ?e] =>
      destruct (Bus.publish a b c d e) as [[?|?] ?]
  | |- context [Bus.subscribe ?a ?b ?c ?d] =>
      destruct (Bus.subscribe a b c d) as [[?|?] ?]
  end.

(** What a delegate does to the facade's own record, and which id it
    hands out. *)
Lemma delegate_facade c w :
  api (final (delegate c w)) = facade_after c (api w) /\
  forall r, completion (delegate c w) = Normal r ->
    match r with AnId i => Some i | _ => None end = id_issued c (api w).
Proof.
  destruct c; unfold ApiSpec.delegate, bind, gets, in_stateService, in_hookService,
    in_messageBus; cbn [gets facade_after id_issued];
    try service_call; cbn;
    try (split; [reflexivity | intros r H; first [discriminate H | injection H as <-; reflexivity]]).
  all: match goal with
       | |- context [tabs (api ?v) !! ?k] => destruct (tabs (api v) !! k)
       | |- context [panels (api ?v) !! ?k] => destruct (panels (api v) !! k)
       end; cbn; split; try reflexivity; intros r [= <-]; reflexivity.
Qed.

Lemma executeCommand_run line w :
  executeCommand handlers line w
  = (Normal (match commands (api w) !! hd EmptyString (split_words line) with
             | Some command =>
                 outcome (handlers (command_handler command)
                            {| positional := tl (split_words line); raw := line |})
             | None => not_found (hd EmptyString (split_words line))
             end), w).
Proof.
  unfold executeCommand, bind, gets. cbn.
  destruct (commands (api w) !! _) as [command|]; [|reflexivity].
  unfold try_catch. destruct (handlers _ _); reflexivity.
Qed.

Lemma step_run s w :
  completion (step s w) = Normal (id_issued_by s (api w)) /\
  api (final (step s w)) = facade_after_step s (api w).
Proof.
  destruct s as [c | line | cb | cb | ]; cbn [ApiRuns.step id_issued_by facade_after_step].
  - unfold try_catch, bind. rewrite perform_gated.
    destruct (hasPermission (required c) (api w)); [|split; reflexivity].
    pose proof (delegate_normal now subscribers c w) as Hn.
    destruct (delegate_facade c w) as [Ha Hi].
    destruct (ApiSpec.delegate now subscribers c w) as [[r|t] w1]; [|discriminate Hn].
    cbn in *. split; [|exact Ha]. f_equal. by apply Hi.
  - unfold bind. rewrite executeCommand_run. split; reflexivity.
  - split; reflexivity.
  - split; reflexivity.
  - split; reflexivity.
Qed.


Lemma facade_after_step_counters s a :
  id (facade_after_step s a) = id a /\
  (tabIdCounter a <= tabIdCounter (facade_after_step s a))%nat /\
  (panelIdCounter a <= panelIdCounter (facade_after_step s a))%nat /\
  forall i, id_issued_by s a = Some i ->
    (i = tab_key (id a) (tabIdCounter (facade_after_step s a)) /\
     (tabIdCounter a < tabIdCounter (facade_after_step s a))%nat) \/
    (i = panel_key (id a) (panelIdCounter (facade_after_step s a)) /\
     (panelIdCounter a < panelIdCounter (facade_after_step s a))%nat).
Proof.
  destruct s as [c | line | cb | cb | ]; cbn [facade_after_step id_issued_by];
    try (cbn; repeat split; try lia; intros i [=]; fail).
  destruct (hasPermission (required c) a); [|repeat split; try lia; intros i [=]].
  destruct c; cbn [facade_after id_issued];
    repeat match goal with
           | |- context [match ?x with Some _ => _ | None => _ end] => destruct x
           end;
    cbn; repeat split; try lia; intros i [=]; subst i; [left | right]; split; (reflexivity || lia).
Qed.

Lemma tab_key_inj snappId n m : tab_key snappId n = tab_key snappId m -> n = m.
Proof.
  unfold tab_key. intros H.
  apply append_cancel, append_cancel, append_cancel in H.
  by apply (inj pretty) in H.
Qed.

Lemma panel_key_inj snappId n m : panel_key snappId n = panel_key snappId m -> n = m.
Proof.
  unfold panel_key. intros H.
  apply append_cancel, append_cancel, append_cancel in H.
  by apply (inj pretty) in H.
Qed.

Lemma tab_key_is_no_panel_key a n b m : tab_key a n <> panel_key b m.
Proof. discriminate. Qed.

Lemma issued_cons s rest w :
  issued (s :: rest) w
  = (match id_issued_by s (api w) with
     | Some i => i :: fst (issued rest (final (step s w)))
     | None => fst (issued rest (final (step s w)))
     end, snd (issued rest (final (step s w)))).
Proof.
  cbn [ApiRuns.issued]. destruct (step_run s w) as [Hc _]. rewrite Hc.
  destruct (issued rest (final (step s w))) as [ids w']. cbn.
  destruct (id_issued_by s (api w)); reflexivity.
Qed.

Lemma issued_are_new history :
  forall w,
    NoDup (fst (issued history w)) /\
    forall i, i ∈ fst (issued history w) -> unissued w i.
Proof.
  induction history as [|s rest IH]; intros w.
  - split; [constructor|]. intros i Hin. by apply elem_of_nil in Hin.
  - rewrite issued_cons. cbn [fst].
    destruct (step_run s w) as [_ Ha].
    destruct (facade_after_step_counters s (api w)) as (Hid & Htab & Hpanel & Hissued).
    destruct (IH (final (step s w))) as [Hnd Hnew].
    assert (Hold : forall i, i ∈ fst (issued rest (final (step s w))) -> unissued w i).
    { intros i Hin. specialize (Hnew i Hin). unfold unissued in *.
      rewrite Ha, Hid in Hnew.
      destruct Hnew as [(n & -> & Hn)|(n & -> & Hn)]; [left | right];
        exists n; (split; [reflexivity | lia]). }
    destruct (id_issued_by s (api w)) as [i0|]; [|split; assumption].
    specialize (Hissued i0 eq_refl).
    split.
    + apply NoDup_cons. split; [|exact Hnd].
      intros Hin. specialize (Hnew i0 Hin). unfold unissued in Hnew.
      rewrite Ha, Hid in Hnew.
      destruct Hissued as [[-> _]|[-> _]]; destruct Hnew as [(n & Heq & Hn)|(n & Heq & Hn)].
      * apply tab_key_inj in Heq. lia.
      * by apply tab_key_is_no_panel_key in Heq.
      * symmetry in Heq. by apply tab_key_is_no_panel_key in Heq.
      * apply panel_key_inj in Heq. lia.
    + intros i Hin. apply elem_of_cons in Hin as [->|Hin]; [|by apply Hold].
      unfold unissued.
      destruct Hissued as [[-> Hlt]|[-> Hlt]]; [left | right]; eexists; split;
        (reflexivity || exact Hlt).
Qed.





Lemma issued_app before after :
  forall w, snd (issued (before ++ after) w) = snd (issued after (snd (issued before w))).
Proof.
  induction before as [|s rest IH]; intros w; [reflexivity|].
  change ((s :: rest) ++ after) with (s :: (rest ++ after)).
  rewrite !issued_cons. cbn [snd]. apply IH.
Qed.

(** No delegate takes an entry out of the hook service. *)
Lemma delegate_keeps_hook_handlers c w event x :
  x ∈ Hooks.handlers_of event (hookService w) ->
  x ∈ Hooks.handlers_of event (hookService (final (ApiSpec.delegate now subscribers c w))).
Proof.
  intros Hx.
  destruct c; unfold ApiSpec.delegate, bind, gets, in_stateService, in_hookService,
    in_messageBus; cbn [gets].
  all: try (try service_call; cbn;
            repeat match goal with
                   | |- context [tabs (api ?v) !! ?k] => destruct (tabs (api v) !! k)
                   | |- context [panels (api ?v) !! ?k] => destruct (panels (api v) !! k)
                   end; exact Hx).
  all: cbn; unfold Hooks.handlers_of at 1; cbn;
    (destruct (decide (event = event0)) as [->|Hne];
     [rewrite lookup_insert_eq; cbn; apply HookFacts.sort_push_members; by right
     |rewrite lookup_insert_ne by congruence; exact Hx]).
Qed.

Lemma step_keeps_hook_handlers s w event x :
  x ∈ Hooks.handlers_of event (hookService w) ->
  x ∈ Hooks.handlers_of event (hookService (final (step s w))).
Proof.
  intros Hx. destruct s as [c | line | cb | cb | ]; cbn [ApiRuns.step].
  - unfold try_catch, bind. rewrite perform_gated.
    destruct (hasPermission (required c) (api w)); [|exact Hx].
    pose proof (delegate_normal now subscribers c w) as Hn.
    pose proof (delegate_keeps_hook_handlers c w event x Hx) as Hk.
    destruct (ApiSpec.delegate now subscribers c w) as [[r|t] w1]; [|discriminate Hn].
    exact Hk.
  - unfold bind. rewrite executeCommand_run. exact Hx.
  - exact Hx.
  - exact Hx.
  - exact Hx.
Qed.

Lemma run_keeps_hook_handlers history event x :
  forall w,
    x ∈ Hooks.handlers_of event (hookService w) ->
    x ∈ Hooks.handlers_of event (hookService (snd (issued history w))).
Proof.
  induction history as [|s rest IH]; intros w Hx; [exact Hx|].
  rewrite issued_cons. cbn [snd]. apply IH. by apply step_keeps_hook_handlers.
Qed.

End Session.







(** X26.  [dispose] empties the facade's tables of tabs, panels, commands
    and tab callbacks, and releases nothing the app registered with the
    services: a handler registered with [onHook] is still in the hook
    service when the session ends, whatever steps followed, [dispose]
    among them. *)
Theorem dispose_keeps_hook_handlers (now : Z)
    (subscribers : string -> Bus.Message -> string -> Bus.CallResult)
    (handlers : string -> CommandArgs -> HandlerOutcome)
    (event handler : string) (options : option Hooks.HookOptions)
    (after : list Step) (w : World) :
  hasPermission "session:hook" (api w) = true ->
  let r := onHook event handler options w in
  let w1 := snd (issued now subscribers handlers (after ++ [Dispose]) (final r)) in
  (exists n, completion r = Normal n /\
             n ∈ HookRuns.ids (Hooks.handlers_of event (hookService w1))) /\
  tabs (api w1) = ∅ /\ panels (api w1) = ∅ /\ commands (api w1) = ∅ /\
  tabEventCallbacks (api w1) = [].
Proof.
  intros Hp r w1. split.
  - exists (S (Hooks.handlerIdCounter (Hooks.service (hookService w)))).
    assert (Hr : r = (Normal (S (Hooks.handlerIdCounter (Hooks.service (hookService w)))),
                      snd r)).
    { unfold r, onHook, bind. rewrite requirePermission_run, Hp. reflexivity. }
    split; [by rewrite Hr|].
    set (entry := {| Hooks.handler := Hooks.Plain handler;
                     Hooks.priority := default 0 (Hooks.opt_priority (default Hooks.no_options options));
                     Hooks.filter := default (fun _ => true)
                                       (Hooks.opt_filter (default Hooks.no_options options));
                     Hooks.async := default false
                                      (Hooks.opt_async (default Hooks.no_options options));
                     Hooks.id := S (Hooks.handlerIdCounter (Hooks.service (hookService w))) |}).
    change (Hooks.id entry ∈ HookRuns.ids (Hooks.handlers_of event (hookService w1))).
    apply list_elem_of_fmap_2. unfold w1. apply run_keeps_hook_handlers.
    unfold r, onHook, bind. rewrite requirePermission_run, Hp.
    unfold in_hookService. cbn. unfold Hooks.handlers_of at 1. cbn.
    rewrite lookup_insert_eq. cbn. apply HookFacts.sort_push_members. by left.
  - unfold w1. rewrite issued_app, issued_cons. cbn [snd ApiRuns.issued].
    destruct (step_run now subscribers handlers Dispose
                (snd (issued now subscribers handlers after (final r)))) as [_ Ha].
    rewrite Ha. repeat split; reflexivity.
Qed.

Lemma dispose_keeps_hook_handlers_witness :
  let w1 := final (dispose (final (onHook "session_start" "h" None full_access))) in
  Hooks.count "session_start" (hookService w1) = 1%nat /\ commands (api w1) = ∅.
Proof.
  destruct (dispose_keeps_hook_handlers 0 silent counting "session_start" "h" None []
              full_access eq_refl) as [_ (_ & _ & H & _)].
  cbn zeta. split; [reflexivity | exact H].
Defined.

(** X27.  The ids [registerTab] and [registerPanel] hand out are never
    reused: over any run of steps of an app on its facade, from any
    facade, no id is handed out twice, and none is an id the counters had
    reached before the run.  Unregistering a tab or disposing of the
    facade does not bring an id back, since neither touches the
    counters. *)
Theorem ids_are_never_reused (now : Z)
    (subscribers : string -> Bus.Message -> string -> Bus.CallResult)
    (handlers : string -> CommandArgs -> HandlerOutcome)
    (history : list Step) (w : World) :
  NoDup (fst (issued now subscribers handlers history w)) /\
  Forall (unissued w) (fst (issued now subscribers handlers history w)).
Proof.
  destruct (issued_are_new now subscribers handlers history w) as [H1 H2].
  split; [exact H1|]. by apply Forall_forall.
Qed.

End ApiRunFacts.
